(** * DevEvent: normalizers, validators, retrieval handler and connection cache

    A shallow embedding of the TypeScript sources of the event application:

    - [database/event.model.ts]   : [generateSlug], [normalizeTime], the
                                    event pre-save hook
    - [database/booking.model.ts] : [EMAIL_REGEX], the booking pre-save hook
    - [app/api/events/[slug]/route.ts] : [validateSlug], [GET]
    - [lib/actions/event.actions.ts]   : [getSimilarEventsBySlug]
    - [lib/mongodb.ts]                 : [connectDB]

    JavaScript strings are sequences of UTF-16 code units, regular
    expressions are run by a backtracking matcher in continuation-passing
    style, and the asynchronous handlers are written in a state and
    exception monad over the process-wide cache and the document store. *)

From Stdlib Require Import String Ascii.
From Stdlib Require Import List NArith Bool Lia Arith PeanoNat ZifyBool.
Import ListNotations.

Set Implicit Arguments.

(* ================================================================== *)
(** * JavaScript strings *)
(* ================================================================== *)

Module JSString.

(** A JavaScript string is a sequence of UTF-16 code units. *)
Definition jsstring := list N.

(** Literals: an ASCII Rocq string read as code units. *)
Definition js (s : string) : jsstring :=
  map N_of_ascii (list_ascii_of_string s).

Definition inRange (lo hi c : N) : bool := (N.leb lo c && N.leb c hi)%bool.

Definition isDigit (c : N) : bool := inRange 48 57 c.      (* [0-9], also \d *)
Definition isLowerAZ (c : N) : bool := inRange 97 122 c.   (* [a-z] *)
Definition isUpperAZ (c : N) : bool := inRange 65 90 c.    (* [A-Z] *)
Definition isAscii (c : N) : bool := N.ltb c 128.

(** WhiteSpace and LineTerminator code points of ECMAScript: what
    [String.prototype.trim] strips and what [\s] matches. *)
Definition isWhite (c : N) : bool :=
  (inRange 9 13 c              (* TAB LF VT FF CR *)
   || N.eqb c 32               (* SPACE *)
   || N.eqb c 160              (* NO-BREAK SPACE *)
   || N.eqb c 5760             (* OGHAM SPACE MARK *)
   || inRange 8192 8202 c      (* EN QUAD .. HAIR SPACE *)
   || N.eqb c 8232 || N.eqb c 8233   (* LINE / PARAGRAPH SEPARATOR *)
   || N.eqb c 8239 || N.eqb c 8287   (* NARROW NBSP, MEDIUM MATH SPACE *)
   || N.eqb c 12288            (* IDEOGRAPHIC SPACE *)
   || N.eqb c 65279)%bool.     (* ZERO WIDTH NO-BREAK SPACE *)

Fixpoint dropWhile (p : N -> bool) (s : jsstring) : jsstring :=
  match s with
  | [] => []
  | c :: t => if p c then dropWhile p t else s
  end.

Definition trimStart (s : jsstring) : jsstring := dropWhile isWhite s.
Definition trimEnd (s : jsstring) : jsstring := rev (dropWhile isWhite (rev s)).

(** [String.prototype.trim] *)
Definition trim (s : jsstring) : jsstring := trimEnd (trimStart s).

Definition asciiLower (c : N) : N := if isUpperAZ c then (c + 32)%N else c.

(** [padStart(n, c)] with a one-unit pad string. *)
Definition padStart (n : nat) (c : N) (s : jsstring) : jsstring :=
  repeat c (n - length s) ++ s.

Fixpoint uintUnits (d : Decimal.uint) : jsstring :=
  match d with
  | Decimal.Nil => []
  | Decimal.D0 r => 48%N :: uintUnits r
  | Decimal.D1 r => 49%N :: uintUnits r
  | Decimal.D2 r => 50%N :: uintUnits r
  | Decimal.D3 r => 51%N :: uintUnits r
  | Decimal.D4 r => 52%N :: uintUnits r
  | Decimal.D5 r => 53%N :: uintUnits r
  | Decimal.D6 r => 54%N :: uintUnits r
  | Decimal.D7 r => 55%N :: uintUnits r
  | Decimal.D8 r => 56%N :: uintUnits r
  | Decimal.D9 r => 57%N :: uintUnits r
  end.

(** A JavaScript number as far as [normalizeTime] needs one: a natural
    number or [NaN]. *)
Inductive jsnum := Num (n : N) | NaN.

(** [Number.prototype.toString()] *)
Definition numToString (x : jsnum) : jsstring :=
  match x with
  | Num n => uintUnits (N.to_uint n)
  | NaN => js "NaN"
  end.

Fixpoint digitsValue (acc : N) (s : jsstring) : N :=
  match s with
  | c :: t => if isDigit c then digitsValue (acc * 10 + (c - 48))%N t else acc
  | [] => acc
  end.

(** [parseInt(s, 10)] on what the sources pass it, a [\d{1,2}] capture:
    leading white space is skipped, then the longest run of decimal digits
    is read; no digit gives [NaN]. *)
Definition parseInt10 (s : jsstring) : jsnum :=
  match trimStart s with
  | c :: t => if isDigit c then Num (digitsValue 0 (c :: t)) else NaN
  | [] => NaN
  end.

Definition jsstring_eqb (a b : jsstring) : bool :=
  if list_eq_dec N.eq_dec a b then true else false.

End JSString.
Export JSString.

(* ================================================================== *)
(** * Regular expressions *)
(* ================================================================== *)

(** The fragment of ECMAScript regular expressions the sources use, and a
    backtracking matcher in continuation-passing style after the
    specification's [Matcher] / [Continuation] semantics: alternatives are
    tried left to right, quantifiers are greedy, an iteration of [*] that
    consumes nothing is rejected. *)
Module RegExp.

Inductive regex : Type :=
| Empty                             (* (?:) *)
| Class (p : N -> bool)             (* a character class *)
| Bol                               (* ^ *)
| Eol                               (* $ *)
| Seq (r1 r2 : regex)
| Alt (r1 r2 : regex)               (* r1|r2 *)
| Star (r : regex)                  (* r* *)
| Group (n : nat) (r : regex).      (* the n-th capturing group *)

Definition Plus (r : regex) : regex := Seq r (Star r).     (* r+ *)
Definition Opt (r : regex) : regex := Alt r Empty.         (* r? *)
Definition Lit (c : N) : regex := Class (N.eqb c).

Fixpoint Str (s : jsstring) : regex :=
  match s with
  | [] => Empty
  | c :: t => Seq (Lit c) (Str t)
  end.

Definition captures := list (nat * jsstring).

Fixpoint capture (n : nat) (c : captures) : option jsstring :=
  match c with
  | [] => None
  | (m, v) :: t => if Nat.eqb n m then Some v else capture n t
  end.

(** A position of the matcher: the index into the input, the input from
    there on, and the groups captured so far. *)
Record mstate : Type := MState { idx : nat; rest : jsstring; caps : captures }.

Definition cont := mstate -> option mstate.

Definition orElse (a b : option mstate) : option mstate :=
  match a with Some x => Some x | None => b end.

Definition advance (st : mstate) (t : jsstring) : mstate :=
  MState (S (idx st)) t (caps st).

Definition record (n : nat) (from st : mstate) : mstate :=
  MState (idx st) (rest st)
         ((n, firstn (idx st - idx from) (rest from)) :: caps st).

Definition progress (from st : mstate) : bool :=
  length (rest st) <? length (rest from).

Fixpoint starLoop (m : mstate -> cont -> option mstate) (k : cont)
         (fuel : nat) (st : mstate) : option mstate :=
  match fuel with
  | O => k st
  | S fuel' =>
      orElse (m st (fun st' => if progress st st'
                               then starLoop m k fuel' st' else None))
             (k st)
  end.

Fixpoint matchRe (r : regex) (st : mstate) (k : cont) : option mstate :=
  match r with
  | Empty => k st
  | Class p =>
      match rest st with
      | c :: t => if p c then k (advance st t) else None
      | [] => None
      end
  | Bol => if Nat.eqb (idx st) 0 then k st else None
  | Eol => match rest st with [] => k st | _ :: _ => None end
  | Seq r1 r2 => matchRe r1 st (fun st' => matchRe r2 st' k)
  | Alt r1 r2 => orElse (matchRe r1 st k) (matchRe r2 st k)
  | Star r1 => starLoop (matchRe r1) k (length (rest st)) st
  | Group n r1 => matchRe r1 st (fun st' => k (record n st st'))
  end.

(** One attempt at position [i]. *)
Definition matchAt (r : regex) (i : nat) (s : jsstring) : option mstate :=
  matchRe r (MState i s []) Some.

(** [RegExp.prototype.exec] without flags: the first index, from the left,
    at which the pattern matches. *)
Fixpoint execFrom (r : regex) (i : nat) (s : jsstring) {struct s}
  : option mstate :=
  match matchAt r i s with
  | Some st => Some st
  | None => match s with
            | [] => None
            | _ :: t => execFrom r (S i) t
            end
  end.

Definition exec (r : regex) (s : jsstring) : option captures :=
  option_map caps (execFrom r 0 s).

(** [RegExp.prototype.test] *)
Definition test (r : regex) (s : jsstring) : bool :=
  match exec r s with Some _ => true | None => false end.

(** [String.prototype.replace(r, rep)] for a pattern with the [g] flag and
    a replacement without [$] references: matches are looked for from left
    to right, the search resumes where a match ends, one unit further after
    an empty match. *)
Fixpoint replaceFrom (fuel : nat) (r : regex) (rep : jsstring)
         (i : nat) (s : jsstring) : jsstring :=
  match fuel with
  | O => s
  | S fuel' =>
      match matchAt r i s with
      | Some st =>
          if length (rest st) <? length s
          then rep ++ replaceFrom fuel' r rep (idx st) (rest st)
          else match s with
               | [] => rep
               | c :: t => rep ++ c :: replaceFrom fuel' r rep (S i) t
               end
      | None =>
          match s with
          | [] => []
          | c :: t => c :: replaceFrom fuel' r rep (S i) t
          end
      end
  end.

Definition replaceAll (r : regex) (rep : jsstring) (s : jsstring) : jsstring :=
  replaceFrom (S (length s)) r rep 0 s.

(** ** Declarative reading: [Run r st st'] when [r] can take the matcher
    from [st] to [st']. *)
Inductive Run : regex -> mstate -> mstate -> Prop :=
| RunEmpty st : Run Empty st st
| RunClass p st c t :
    rest st = c :: t -> p c = true -> Run (Class p) st (advance st t)
| RunBol st : idx st = 0 -> Run Bol st st
| RunEol st : rest st = [] -> Run Eol st st
| RunSeq r1 r2 st st1 st2 :
    Run r1 st st1 -> Run r2 st1 st2 -> Run (Seq r1 r2) st st2
| RunAltL r1 r2 st st' : Run r1 st st' -> Run (Alt r1 r2) st st'
| RunAltR r1 r2 st st' : Run r2 st st' -> Run (Alt r1 r2) st st'
| RunStarStop r st : Run (Star r) st st
| RunStarStep r st st1 st2 :
    Run r st st1 -> progress st st1 = true -> Run (Star r) st1 st2 ->
    Run (Star r) st st2
| RunGroup n r st st' : Run r st st' -> Run (Group n r) st (record n st st').

(** [Found r s]: the pattern can be run from some index of [s]. *)
Definition Found (r : regex) (s : jsstring) : Prop :=
  exists i st', i <= length s /\ Run r (MState i (skipn i s) []) st'.

Declare Scope regex_scope.
Delimit Scope regex_scope with re.
Infix ";;" := Seq (at level 61, right associativity) : regex_scope.

End RegExp.
Export RegExp.

(* ================================================================== *)
(** * The runtime's case tables, exceptions *)
(* ================================================================== *)

Module Runtime.

(** [String.prototype.toLowerCase] follows the Unicode tables of the
    engine.  On ASCII it is fixed: [A-Z] go to [a-z], everything else stays.
    For a code unit outside ASCII the tables are those of the engine, taken
    here as a parameter: the units that replace it, given the units before
    it (nearest first) and after it. *)
Class Unicode : Type :=
  { nonAsciiLower : jsstring -> N -> jsstring -> jsstring }.

Section Lower.
Context {U : Unicode}.

Fixpoint lowerFrom (before s : jsstring) : jsstring :=
  match s with
  | [] => []
  | c :: t =>
      (if isAscii c then [asciiLower c] else nonAsciiLower before c t)
        ++ lowerFrom (c :: before) t
  end.

Definition toLowerCase (s : jsstring) : jsstring := lowerFrom [] s.

End Lower.

(** A table that leaves every unit outside ASCII alone. *)
Definition asciiTables : Unicode :=
  {| nonAsciiLower := fun _ c _ => [c] |}.

(** What a [throw] carries: an [Error] with its message, or another value. *)
Inductive exn : Type :=
| JsError (message : jsstring)
| Thrown.

(** The outcome of a call that may throw. *)
Inductive result (A : Type) : Type :=
| Ok (a : A)
| Throw (e : exn).
Arguments Ok {A} a.
Arguments Throw {A} e.

(** A captured group inside a template literal or passed as a string. *)
Definition interp (v : option jsstring) : jsstring :=
  match v with Some x => x | None => js "undefined" end.

Definition numLt (a b : jsnum) : bool :=
  match a, b with Num x, Num y => N.ltb x y | _, _ => false end.
Definition numEq (a b : jsnum) : bool :=
  match a, b with Num x, Num y => N.eqb x y | _, _ => false end.
Definition numAdd (a b : jsnum) : jsnum :=
  match a, b with Num x, Num y => Num (x + y) | _, _ => NaN end.

Definition optEqb (a : option jsstring) (b : jsstring) : bool :=
  match a with Some x => jsstring_eqb x b | None => false end.

End Runtime.
Export Runtime.

(* ================================================================== *)
(** * database/event.model.ts *)
(* ================================================================== *)

Module EventModel.

Local Open Scope regex_scope.

Definition dash : N := 45.
Definition colon : N := 58.

Definition isAlnum (c : N) : bool := (isLowerAZ c || isDigit c)%bool.  (* [a-z0-9] *)
Definition notAlnum (c : N) : bool := negb (isAlnum c).                (* [^a-z0-9] *)

(** [/[^a-z0-9]+/g] *)
Definition nonAlnumRun : regex := Plus (Class notAlnum).

(** [/^-+|-+$/g] *)
Definition edgeDashes : regex :=
  Alt (Bol ;; Plus (Lit dash)) (Plus (Lit dash) ;; Eol).

(** [/^([01]\d|2[0-3]):([0-5]\d)$/] *)
Definition twentyFourHour : regex :=
  Bol ;; Group 1 (Alt (Class (inRange 48 49) ;; Class isDigit)
                      (Lit 50 ;; Class (inRange 48 51)))
      ;; Lit colon
      ;; Group 2 (Class (inRange 48 53) ;; Class isDigit)
      ;; Eol.

(** [/^(\d{1,2})(?::([0-5]\d))?\s*(am|pm)$/] *)
Definition twelveHour : regex :=
  Bol ;; Group 1 (Class isDigit ;; Opt (Class isDigit))
      ;; Opt (Lit colon ;; Group 2 (Class (inRange 48 53) ;; Class isDigit))
      ;; Star (Class isWhite)
      ;; Group 3 (Alt (Str (js "am")) (Str (js "pm")))
      ;; Eol.

Definition invalid12 : exn := JsError (js "Invalid 12-hour time format.").

Definition invalidTime : exn :=
  JsError (js "Invalid time format. Use 24h " ++ [34%N] ++ js "HH:MM"
              ++ [34%N] ++ js " or 12h " ++ [34%N] ++ js "H:MM am/pm"
              ++ [34%N] ++ js ".").

Section Normalizers.
Context {U : Unicode}.

(** Generate a URL-friendly slug from the event title. *)
Definition generateSlug (title : jsstring) : jsstring :=
  replaceAll edgeDashes []
    (replaceAll nonAlnumRun [dash] (trim (toLowerCase title))).

(** Normalize various human time inputs to 24-hour HH:MM format. *)
Definition normalizeTime (timeStr : jsstring) : result jsstring :=
  let trimmed := toLowerCase (trim timeStr) in
  match exec twentyFourHour trimmed with
  | Some m => Ok (interp (capture 1 m) ++ [colon] ++ interp (capture 2 m))
  | None =>
      match exec twelveHour trimmed with
      | Some m =>
          let hour := parseInt10 (interp (capture 1 m)) in
          let minute :=
            match capture 2 m with Some x => x | None => js "00" end in
          let period := capture 3 m in
          if (numLt hour (Num 1) || numLt (Num 12) hour)%bool
          then Throw invalid12
          else
            let hour :=
              if (optEqb period (js "pm") && negb (numEq hour (Num 12)))%bool
              then numAdd hour (Num 12)
              else if (optEqb period (js "am") && numEq hour (Num 12))%bool
                   then Num 0
                   else hour in
            Ok (padStart 2 48 (numToString hour) ++ [colon] ++ minute)
      | None => Throw invalidTime
      end
  end.

End Normalizers.

End EventModel.
Export EventModel.

(* ================================================================== *)
(** * The document store and the process *)
(* ================================================================== *)

Module Process.

(** An [ObjectId], with the hexadecimal string [toString()] gives. *)
Record ObjectId : Type := OID { hex : jsstring }.

(** A [Date], with the string [toISOString()] gives. *)
Record Date : Type := MkDate { iso : jsstring }.

Definition oid_eqb (a b : ObjectId) : bool := jsstring_eqb (hex a) (hex b).

(** [EventDocument] as [lean()] returns it; [tags] may be missing on a
    stored document. *)
Record EventDocument : Type := MkEvent {
  _id : ObjectId;
  title : jsstring;
  slug : jsstring;
  description : jsstring;
  overview : jsstring;
  image : jsstring;
  venue : jsstring;
  location : jsstring;
  date : jsstring;
  time : jsstring;
  mode : jsstring;
  audience : jsstring;
  agenda : list jsstring;
  organizer : jsstring;
  tags : option (list jsstring);
  createdAt : Date;
  updatedAt : Date
}.

(** The connection handle [mongoose.connect] resolves to. *)
Definition Handle := nat.

(** A pending [mongoose.connect] call, named by its rank among the calls. *)
Definition Promise := nat.

(** [interface MongooseCache] *)
Record MongooseCache : Type := MkCache {
  conn : option Handle;
  promise : option Promise
}.

(** What reaches the driver or the connection manager, in order. *)
Inductive Op : Type :=
| Acquire                                        (* connectDB() *)
| Connect                                        (* mongoose.connect(uri, opts) *)
| FindOne (s : jsstring)                         (* Event.findOne({ slug }) *)
| Find (ne : ObjectId) (among : list jsstring)   (* Event.find({ _id: {$ne}, tags: {$in} }) *)
| Exists (id : ObjectId).                        (* Event.exists({ _id }) *)

(** The process: the module-level cache, the [events] collection, and
    the operations issued so far. *)
Record World : Type := MkWorld {
  cached : MongooseCache;
  connects : nat;
  events : list EventDocument;
  trace : list Op
}.

(** What the process does not decide: its environment variables, how the
    n-th [mongoose.connect] call settles, and whether the n-th operation
    on the store faults. *)
Record Env : Type := MkEnv {
  MONGODB_URI : option jsstring;
  NODE_ENV : option jsstring;
  settle : Promise -> result Handle;
  storeFault : nat -> option exn
}.

(** ** Asynchronous code: state and exceptions *)

Definition M (A : Type) : Type := Env -> World -> result A * World.

Definition ret {A} (a : A) : M A := fun _ w => (Ok a, w).
Definition throw {A} (e : exn) : M A := fun _ w => (Throw e, w).

Definition bind {A B} (m : M A) (f : A -> M B) : M B :=
  fun env w =>
    match m env w with
    | (Ok a, w') => f a env w'
    | (Throw e, w') => (Throw e, w')
    end.

(** [try { m } catch (error) { h error }] *)
Definition tryCatch {A} (m : M A) (h : exn -> M A) : M A :=
  fun env w =>
    match m env w with
    | (Ok a, w') => (Ok a, w')
    | (Throw e, w') => h e env w'
    end.

Definition ask : M Env := fun env w => (Ok env, w).
Definition get : M World := fun _ w => (Ok w, w).
Definition put (w : World) : M unit := fun _ _ => (Ok tt, w).

Declare Scope monad_scope.
Delimit Scope monad_scope with monad.
Notation "x <- c1 ;; c2" := (bind c1 (fun x => c2))
  (at level 61, c1 at next level, right associativity) : monad_scope.
Notation "c1 ;; c2" := (bind c1 (fun _ => c2))
  (at level 61, right associativity) : monad_scope.
Local Open Scope monad_scope.

Definition log (o : Op) : M unit :=
  w <- get ;;
  put (MkWorld (cached w) (connects w) (events w) (trace w ++ [o])).

Definition setCache (c : MongooseCache) : M unit :=
  w <- get ;;
  put (MkWorld c (connects w) (events w) (trace w)).

(** An operation on the store: it is logged, then faults or answers. *)
Definition storeOp {A} (o : Op) (answer : list EventDocument -> A) : M A :=
  env <- ask ;;
  w <- get ;;
  log o ;;
  match storeFault env (length (trace w)) with
  | Some e => throw e
  | None => ret (answer (events w))
  end.

(** ** The queries of the sources, read as MongoDB reads them *)

(** [{ slug }]: the first document whose slug is the given one. *)
Definition findOne (s : jsstring) : M (option EventDocument) :=
  storeOp (FindOne s) (find (fun e => jsstring_eqb (slug e) s)).

(** [$in] on an array field: some element is among the values. *)
Definition tagsIn (among : list jsstring) (e : EventDocument) : bool :=
  match tags e with
  | Some ts => existsb (fun t => existsb (jsstring_eqb t) among) ts
  | None => false
  end.

(** [{ _id: { $ne: id }, tags: { $in: among } }] *)
Definition findSimilar (id : ObjectId) (among : list jsstring)
  : M (list EventDocument) :=
  storeOp (Find id among)
          (filter (fun e => negb (oid_eqb (_id e) id) && tagsIn among e)).

(** [Event.exists({ _id })] *)
Definition existsById (id : ObjectId) : M bool :=
  storeOp (Exists id) (existsb (fun e => oid_eqb (_id e) id)).

End Process.
Export Process.

(* ================================================================== *)
(** * lib/mongodb.ts *)
(* ================================================================== *)

Module MongoDB.
Local Open Scope monad_scope.

Definition missingUri : exn :=
  JsError (js "Please define the MONGODB_URI environment variable inside .env.local").

(** [!MONGODB_URI]: undefined or the empty string. *)
Definition uriMissing (uri : option jsstring) : bool :=
  match uri with
  | None | Some [] => true
  | Some (_ :: _) => false
  end.

(** [mongoose.connect(MONGODB_URI, opts).then((mongoose) => mongoose)] *)
Definition mongooseConnect : M Promise :=
  w <- get ;;
  put (MkWorld (cached w) (S (connects w)) (events w) (trace w ++ [Connect])) ;;
  ret (connects w).

Definition setConn (h : Handle) : M unit :=
  w <- get ;; setCache (MkCache (Some h) (promise (cached w))).

Definition setPromise (p : option Promise) : M unit :=
  w <- get ;; setCache (MkCache (conn (cached w)) p).

(** [connectDB] up to its [await]: the cached handle, or the promise the
    call goes on to wait for. *)
Definition connectDB_enter : M (Handle + Promise) :=
  log Acquire ;;
  w <- get ;;
  match conn (cached w) with
  | Some h => ret (inl h)
  | None =>
      match promise (cached w) with
      | Some p => ret (inr p)
      | None =>
          env <- ask ;;
          if uriMissing (MONGODB_URI env) then throw missingUri
          else
            p <- mongooseConnect ;;
            setPromise (Some p) ;;
            ret (inr p)
      end
  end.

(** [connectDB] from its [await] on, once the promise has settled. *)
Definition connectDB_resume (outcome : result Handle) : M Handle :=
  match outcome with
  | Ok h =>
      setConn h ;;
      w <- get ;;
      match conn (cached w) with
      | Some h' => ret h'
      | None => ret h
      end
  | Throw e =>
      setPromise None ;;
      throw e
  end.

(** A call of [connectDB] that nothing interleaves with. *)
Definition connectDB : M Handle :=
  x <- connectDB_enter ;;
  match x with
  | inl h => ret h
  | inr p =>
      env <- ask ;;
      connectDB_resume (settle env p)
  end.

End MongoDB.
Export MongoDB.

(* ================================================================== *)
(** * app/api/events/[slug]/route.ts *)
(* ================================================================== *)

Module Route.
Local Open Scope monad_scope.

Inductive ErrorCode : Type :=
| MISSING_SLUG
| INVALID_SLUG_FORMAT
| EVENT_NOT_FOUND
| INTERNAL_SERVER_ERROR.

(** [ErrorResponse | SuccessResponse]; an [undefined] field is left out
    of the JSON body. *)
Inductive Body : Type :=
| ErrorResponse (message : jsstring) (error : ErrorCode)
                (details : option jsstring)
| SuccessResponse (message : jsstring) (event : EventDocument).

Record Response : Type := MkResponse { status : N; body : Body }.

Inductive SlugValidationResult : Type :=
| SlugOk (slug : jsstring)
| SlugBad (status : N) (code : ErrorCode) (message : jsstring).

(** What the handler reads of [req] and [context]. *)
Record Request : Type := MkRequest {
  paramsSlug : option jsstring;    (* context?.params?.slug *)
  querySlug : option jsstring;     (* req.nextUrl.searchParams.get('slug') *)
  pathname : jsstring              (* req.nextUrl.pathname *)
}.

Definition isSlugChar (c : N) : bool :=
  (isLowerAZ c || isDigit c || N.eqb dash c)%bool.

(** [/^[a-z0-9-]+$/] *)
Definition slugPattern : regex :=
  (Bol ;; Plus (Class isSlugChar) ;; Eol)%re.

(** [!x] for a string that may be undefined. *)
Definition falsy (x : option jsstring) : bool :=
  match x with
  | None | Some [] => true
  | Some (_ :: _) => false
  end.

(** [s.split(sep)] for a one-unit separator. *)
Fixpoint split (sep : N) (s : jsstring) : list jsstring :=
  match s with
  | [] => [[]]
  | c :: t =>
      if N.eqb c sep then [] :: split sep t
      else match split sep t with
           | seg :: segs => (c :: seg) :: segs
           | [] => [[c]]
           end
  end.

Definition slash : N := 47.

Section Handler.
Context {U : Unicode}.

(** Validates and normalizes the slug route parameter. *)
Definition validateSlug (rawSlug : option jsstring) : SlugValidationResult :=
  if falsy rawSlug
  then SlugBad 400 MISSING_SLUG (js "Slug parameter is required.")
  else
    let slug := toLowerCase (trim (interp rawSlug)) in
    if falsy (Some slug)
    then SlugBad 400 INVALID_SLUG_FORMAT (js "Slug parameter cannot be empty.")
    else if negb (test slugPattern slug)
         then SlugBad 400 INVALID_SLUG_FORMAT
                (js "Slug may only contain lowercase letters, numbers, and hyphens.")
         else SlugOk slug.

(** The raw slug: the route parameter, else the query, else the last
    segment of the path unless it is [events]. *)
Definition rawSlugOf (req : Request) : option jsstring :=
  let rawSlug :=
    match paramsSlug req with Some x => Some x | None => querySlug req end in
  if falsy rawSlug
  then
    let segments :=
      filter (fun seg => negb (falsy (Some seg))) (split slash (pathname req)) in
    match last (map Some segments) None with
    | Some lastSegment =>
        if negb (jsstring_eqb lastSegment (js "events"))
        then Some lastSegment else rawSlug
    | None => rawSlug
    end
  else rawSlug.

(** [GET /api/events/[slug]] *)
Definition GET (req : Request) : M Response :=
  match validateSlug (rawSlugOf req) with
  | SlugBad st code message =>
      ret (MkResponse st (ErrorResponse message code None))
  | SlugOk slug =>
      tryCatch
        (connectDB ;;
         event <- findOne slug ;;
         match event with
         | None =>
             ret (MkResponse 404
                    (ErrorResponse (js "Event not found.") EVENT_NOT_FOUND None))
         | Some ev =>
             ret (MkResponse 200
                    (SuccessResponse (js "Event fetched successfully.") ev))
         end)
        (fun error =>
           env <- ask ;;
           let errorMessage :=
             match error with
             | JsError m => m
             | Thrown => js "An unexpected error occurred."
             end in
           let details :=
             if optEqb (NODE_ENV env) (js "development")
             then Some errorMessage else None in
           ret (MkResponse 500
                  (ErrorResponse (js "Failed to fetch events.")
                                 INTERNAL_SERVER_ERROR details)))
  end.

End Handler.
End Route.
Export Route.

(* ================================================================== *)
(** * lib/actions/event.actions.ts *)
(* ================================================================== *)

Module EventActions.
Local Open Scope monad_scope.

(** One element of the result: the document spread, with [_id],
    [createdAt], [updatedAt] and [date] replaced.  [date] is a string and
    has no [toISOString], so [e.date?.toISOString?.()] is [undefined]. *)
Record SimilarEvent : Type := MkSimilar {
  spread : EventDocument;
  idString : option jsstring;
  createdAtString : option jsstring;
  updatedAtString : option jsstring;
  dateString : option jsstring
}.

Definition serialize (e : EventDocument) : SimilarEvent :=
  MkSimilar e (Some (hex (_id e))) (Some (iso (createdAt e)))
            (Some (iso (updatedAt e))) None.

(** Reading a property of [null]. *)
Definition nullRead : exn :=
  JsError (js "Cannot read properties of null (reading '_id')").

Definition getSimilarEventsBySlug (slug : jsstring) : M (list SimilarEvent) :=
  tryCatch
    (connectDB ;;
     event <- findOne slug ;;
     match event with
     | None => throw nullRead
     | Some ev =>
         similar <- findSimilar (_id ev)
                      (match tags ev with Some ts => ts | None => [] end) ;;
         ret (map serialize similar)
     end)
    (fun _ => ret []).

End EventActions.
Export EventActions.

(* ================================================================== *)
(** * database/booking.model.ts *)
(* ================================================================== *)

Module BookingModel.
Local Open Scope monad_scope.

(** The booking being saved: its fields ([email] is [None] when it is not
    a string) and what mongoose knows of the document. *)
Record BookingDocument : Type := MkBooking {
  eventId : option ObjectId;
  email : option jsstring;
  isNew : bool;
  eventIdModified : bool            (* doc.isModified('eventId') *)
}.

(** How the hook ends: [next()] or [next(err)]. *)
Inductive Next : Type :=
| Proceed (doc : BookingDocument)
| Reject (err : exn).

Definition at_sign : N := 64.
Definition dot : N := 46.

Definition notSpaceAt (c : N) : bool := negb (isWhite c || N.eqb at_sign c).

(** [/^[^\s@]+@[^\s@]+\.[^\s@]+$/] *)
Definition EMAIL_REGEX : regex :=
  (Bol ;; Plus (Class notSpaceAt) ;; Lit at_sign
       ;; Plus (Class notSpaceAt) ;; Lit dot
       ;; Plus (Class notSpaceAt) ;; Eol)%re.

Definition emailRequired : exn :=
  JsError (js "Email is required and must be a non-empty string.").
Definition emailInvalid : exn :=
  JsError (js "Email is not in a valid format.").
Definition eventIdRequired : exn := JsError (js "eventId is required.").
Definition eventMissing : exn :=
  JsError (js "Referenced event does not exist.").
Definition eventCheckFailed : exn :=
  JsError (js "Failed to validate referenced event.").

Section Hook.
Context {U : Unicode}.

(** [bookingSchema.pre('save', ...)] *)
Definition preSave (doc : BookingDocument) : M Next :=
  match email doc with
  | None => ret (Reject emailRequired)
  | Some raw =>
      if Nat.eqb (length (trim raw)) 0 then ret (Reject emailRequired)
      else
        let normalizedEmail := toLowerCase (trim raw) in
        if negb (test EMAIL_REGEX normalizedEmail)
        then ret (Reject emailInvalid)
        else
          let doc := MkBooking (eventId doc) (Some normalizedEmail)
                               (isNew doc) (eventIdModified doc) in
          if (isNew doc || eventIdModified doc)%bool
          then
            match eventId doc with
            | None => ret (Reject eventIdRequired)
            | Some id =>
                tryCatch
                  (existingEvent <- existsById id ;;
                   if negb existingEvent then ret (Reject eventMissing)
                   else ret (Proceed doc))
                  (fun error =>
                     match error with
                     | JsError _ => ret (Reject error)
                     | Thrown => ret (Reject eventCheckFailed)
                     end)
            end
          else ret (Proceed doc)
  end.

End Hook.
End BookingModel.
Export BookingModel.

(* ================================================================== *)
(** * database/event.model.ts: the pre-save hook *)
(* ================================================================== *)

Module EventSchema.

(** What a field of the document holds when the hook reads it: a string,
    an array (each item a string or not), or anything else ([undefined], a
    number, ...). *)
Inductive value : Type :=
| VString (s : jsstring)
| VArray (items : list (option jsstring))
| VOther.

(** The event being saved: the fields of [EventAttrs] ([slug] is a string
    or [undefined], as the schema types it) and what mongoose knows of the
    document. *)
Record EventAttrs : Type := MkAttrs {
  title : value;
  slug : option jsstring;
  description : value;
  overview : value;
  image : value;
  venue : value;
  location : value;
  date : value;
  time : value;
  mode : value;
  audience : value;
  agenda : value;
  organizer : value;
  tags : value;
  titleModified : bool              (* doc.isModified('title') *)
}.

(** [new Date(s)]: how a string is read is the engine's; [None] when the
    time value is [NaN]. *)
Class Calendar : Type := { newDate : jsstring -> option Date }.

Definition quote : N := 34.
Definition tee : N := 84.

Definition fieldRequired (field : jsstring) : exn :=
  JsError (js "Field " ++ [quote] ++ field ++ [quote]
              ++ js " is required and must be a non-empty string.").
Definition arrayRequired (field : jsstring) : exn :=
  JsError (js "Field " ++ [quote] ++ field ++ [quote]
              ++ js " must be a non-empty array of strings.").
Definition invalidDate : exn :=
  JsError (js "Invalid date format. Date must be a valid value parsable by JavaScript Date.").
Definition invalidTimeFormat : exn := JsError (js "Invalid time format.").

(** [doc[field]] for the fields of each list, in the order of the list. *)
Definition requiredStringFields : list (jsstring * (EventAttrs -> value)) :=
  [ (js "title", title); (js "description", description);
    (js "overview", overview); (js "image", image); (js "venue", venue);
    (js "location", location); (js "date", date); (js "time", time);
    (js "mode", mode); (js "audience", audience);
    (js "organizer", organizer) ].

Definition requiredArrayFields : list (jsstring * (EventAttrs -> value)) :=
  [ (js "agenda", agenda); (js "tags", tags) ].

(** [typeof value !== 'string' || value.trim().length === 0] *)
Definition blank (v : value) : bool :=
  match v with
  | VString s => Nat.eqb (length (trim s)) 0
  | _ => true
  end.

(** [typeof item !== 'string' || item.trim().length === 0] *)
Definition blankItem (item : option jsstring) : bool :=
  match item with
  | Some s => Nat.eqb (length (trim s)) 0
  | None => true
  end.

(** [!Array.isArray(value) || value.length === 0 || value.some(...)] *)
Definition badArray (v : value) : bool :=
  match v with
  | VArray items => (Nat.eqb (length items) 0 || existsb blankItem items)%bool
  | _ => true
  end.

(** A field read as a string; the hook does so only after the check of
    its type. *)
Definition str (v : value) : jsstring :=
  match v with VString s => s | _ => [] end.

Definition setSlug (doc : EventAttrs) (s : option jsstring) : EventAttrs :=
  MkAttrs (title doc) s (description doc) (overview doc) (image doc)
          (venue doc) (location doc) (date doc) (time doc) (mode doc)
          (audience doc) (agenda doc) (organizer doc) (tags doc)
          (titleModified doc).

Definition setDate (doc : EventAttrs) (d : value) : EventAttrs :=
  MkAttrs (title doc) (slug doc) (description doc) (overview doc) (image doc)
          (venue doc) (location doc) d (time doc) (mode doc)
          (audience doc) (agenda doc) (organizer doc) (tags doc)
          (titleModified doc).

Definition setTime (doc : EventAttrs) (t : value) : EventAttrs :=
  MkAttrs (title doc) (slug doc) (description doc) (overview doc) (image doc)
          (venue doc) (location doc) (date doc) t (mode doc)
          (audience doc) (agenda doc) (organizer doc) (tags doc)
          (titleModified doc).

(** [a[0]] *)
Definition first (a : list jsstring) : value :=
  match a with x :: _ => VString x | [] => VOther end.

Section Hook.
Context {U : Unicode} {C : Calendar}.

(** [if (doc.isModified('title') || !doc.slug) doc.slug = generateSlug(doc.title)] *)
Definition reslug (doc : EventAttrs) : EventAttrs :=
  if (titleModified doc || falsy (slug doc))%bool
  then setSlug doc (Some (generateSlug (str (title doc))))
  else doc.

(** [eventSchema.pre('save', ...)]: the document as the hook leaves it,
    and what [next] is called with. *)
Definition eventPreSave (doc : EventAttrs) : EventAttrs * option exn :=
  match find (fun field => blank (snd field doc)) requiredStringFields with
  | Some field => (doc, Some (fieldRequired (fst field)))
  | None =>
      match find (fun field => badArray (snd field doc)) requiredArrayFields with
      | Some field => (doc, Some (arrayRequired (fst field)))
      | None =>
          let doc := reslug doc in
          match newDate (str (date doc)) with
          | None => (doc, Some invalidDate)
          | Some parsedDate =>
              let doc := setDate doc (first (split tee (iso parsedDate))) in
              match normalizeTime (str (time doc)) with
              | Ok t => (setTime doc (VString t), None)
              | Throw (JsError m) => (doc, Some (JsError m))
              | Throw Thrown => (doc, Some invalidTimeFormat)
              end
          end
      end
  end.

End Hook.

(** A calendar that reads the date-only form [YYYY-MM-DD] with a month
    01..12 and a day 01..28, as midnight UTC, and nothing else. *)
Definition isoDay (s : jsstring) : bool :=
  match s with
  | [y1; y2; y3; y4; d1; m1; m2; d2; a; b] =>
      (forallb isDigit [y1; y2; y3; y4; m1; m2; a; b]
       && N.eqb d1 dash && N.eqb d2 dash
       && N.leb 1 (digitsValue 0 [m1; m2]) && N.leb (digitsValue 0 [m1; m2]) 12
       && N.leb 1 (digitsValue 0 [a; b]) && N.leb (digitsValue 0 [a; b]) 28)%bool
  | _ => false
  end.

Definition plainCalendar : Calendar :=
  {| newDate := fun s =>
       if isoDay s then Some (MkDate (s ++ js "T00:00:00.000Z")) else None |}.

End EventSchema.

(* ================================================================== *)
(** * Facts: strings *)
(* ================================================================== *)

Module JSStringFacts.

Lemma jsstring_eqb_eq a b : jsstring_eqb a b = true <-> a = b.
Proof.
  unfold jsstring_eqb. destruct (list_eq_dec N.eq_dec a b); split; congruence.
Qed.

Lemma dropWhile_incl p s c : In c (dropWhile p s) -> In c s.
Proof.
  induction s as [|x t IH]; simpl; auto.
  destruct (p x); simpl; auto.
Qed.

Lemma dropWhile_noop p s :
  match s with [] => True | c :: _ => p c = false end -> dropWhile p s = s.
Proof. destruct s as [|c t]; simpl; auto. intros ->. reflexivity. Qed.

Lemma dropWhile_length p s : length (dropWhile p s) <= length s.
Proof.
  induction s as [|x t IH]; simpl; auto.
  destruct (p x); simpl; lia.
Qed.

Definition isStable (c : N) : bool := (inRange 33 64 c || inRange 91 127 c)%bool.

Lemma stable_char c :
  isStable c = true ->
  isWhite c = false /\ isAscii c = true /\ asciiLower c = c.
Proof.
  unfold isStable, isWhite, isAscii, asciiLower, isUpperAZ, inRange.
  intros H. repeat split; try lia.
  destruct (N.leb 65 c && N.leb c 90)%bool eqn:E; [lia | reflexivity].
Qed.

Lemma trim_stable s : Forall (fun c => isStable c = true) s -> trim s = s.
Proof.
  intros F. unfold trim, trimStart, trimEnd.
  rewrite (dropWhile_noop isWhite s).
  - rewrite dropWhile_noop; [apply rev_involutive|].
    destruct (rev s) as [|c t] eqn:E; [exact I|].
    assert (In c s) by (apply in_rev; rewrite E; now left).
    rewrite Forall_forall in F. now apply stable_char, F.
  - destruct s as [|c t]; [exact I|]. inversion F; subst.
    now apply stable_char.
Qed.

Section Lower.
Context {U : Unicode}.

Lemma lowerFrom_stable s : Forall (fun c => isStable c = true) s ->
  forall before, lowerFrom before s = s.
Proof.
  induction 1 as [|c t Hc _ IH]; intros before; simpl; [reflexivity|].
  destruct (stable_char c Hc) as (_ & A & L). rewrite A, L, IH. reflexivity.
Qed.

Lemma normalize_stable s :
  Forall (fun c => isStable c = true) s -> toLowerCase (trim s) = s.
Proof.
  intros F. rewrite trim_stable by exact F. now apply lowerFrom_stable.
Qed.

End Lower.

End JSStringFacts.
Export JSStringFacts.

(* ================================================================== *)
(** * Facts: the matcher *)
(* ================================================================== *)

Module RegExpFacts.
Local Open Scope regex_scope.

(** ** The matcher against its declarative reading *)

Lemma matchRe_ext r : forall st k1 k2,
  (forall st', k1 st' = k2 st') -> matchRe r st k1 = matchRe r st k2.
Proof.
  induction r as [|p| | |r1 IH1 r2 IH2|r1 IH1 r2 IH2|r1 IH1|n r1 IH1];
    intros st k1 k2 H; simpl.
  - apply H.
  - destruct (rest st) as [|c t]; [reflexivity|]. destruct (p c); auto.
  - destruct (Nat.eqb (idx st) 0); auto.
  - destruct (rest st); auto.
  - apply IH1. intros st'. apply IH2, H.
  - rewrite (IH1 st k1 k2 H), (IH2 st k1 k2 H). reflexivity.
  - generalize (length (rest st)) as fuel. intros fuel. revert st.
    induction fuel as [|fuel IHf]; intros st; simpl; [apply H|].
    rewrite H. f_equal. apply IH1. intros st'.
    destruct (progress st st'); auto.
  - apply IH1. intros st'. apply H.
Qed.

Lemma starLoop_sound r k :
  (forall st k' res, matchRe r st k' = Some res ->
                     exists st', Run r st st' /\ k' st' = Some res) ->
  forall fuel st res,
    starLoop (matchRe r) k fuel st = Some res ->
    exists st', Run (Star r) st st' /\ k st' = Some res.
Proof.
  intros Hr. induction fuel as [|fuel IHf]; intros st res; simpl.
  - intros H. exists st. split; [constructor | exact H].
  - destruct (matchRe r st _) as [x|] eqn:E; simpl.
    + intros Hx. injection Hx as ->.
      apply Hr in E. destruct E as (st1 & R1 & K1).
      destruct (progress st st1) eqn:P; [|discriminate].
      apply IHf in K1. destruct K1 as (st2 & R2 & K2).
      exists st2. split; [eapply RunStarStep; eauto | exact K2].
    + intros H. exists st. split; [constructor | exact H].
Qed.

Lemma matchRe_sound r : forall st k res,
  matchRe r st k = Some res ->
  exists st', Run r st st' /\ k st' = Some res.
Proof.
  induction r as [|p| | |r1 IH1 r2 IH2|r1 IH1 r2 IH2|r1 IH1|n r1 IH1];
    intros st k res; simpl.
  - intros H. exists st. split; [constructor | exact H].
  - destruct (rest st) as [|c t] eqn:E; [discriminate|].
    destruct (p c) eqn:Pc; [|discriminate].
    intros H. exists (advance st t). split; [econstructor; eauto | exact H].
  - destruct (Nat.eqb (idx st) 0) eqn:E; [|discriminate].
    intros H. exists st. split; [constructor; now apply Nat.eqb_eq | exact H].
  - destruct (rest st) eqn:E; [|discriminate].
    intros H. exists st. split; [constructor; exact E | exact H].
  - intros H. apply IH1 in H. destruct H as (st1 & R1 & H).
    apply IH2 in H. destruct H as (st2 & R2 & H).
    exists st2. split; [econstructor; eauto | exact H].
  - destruct (matchRe r1 st k) as [x|] eqn:E; simpl; intros H.
    + injection H as ->. apply IH1 in E. destruct E as (st' & R & K).
      exists st'. split; [now apply RunAltL | exact K].
    + apply IH2 in H. destruct H as (st' & R & K).
      exists st'. split; [now apply RunAltR | exact K].
  - apply starLoop_sound. exact IH1.
  - intros H. apply IH1 in H. destruct H as (st' & R & K).
    exists (record n st st'). split; [now constructor | exact K].
Qed.

Lemma matchRe_none r st k : (forall st', k st' = None) -> matchRe r st k = None.
Proof.
  intros H. destruct (matchRe r st k) as [res|] eqn:E; [|reflexivity].
  apply matchRe_sound in E. destruct E as (st' & _ & K).
  rewrite H in K. discriminate.
Qed.

Lemma starLoop_fuel r k : forall fuel st,
  length (rest st) <= fuel ->
  starLoop (matchRe r) k fuel st
  = starLoop (matchRe r) k (length (rest st)) st.
Proof.
  induction fuel as [fuel IH] using lt_wf_ind. intros st Hle.
  destruct fuel as [|fuel].
  - replace (length (rest st)) with 0 by lia. reflexivity.
  - destruct (length (rest st)) as [|l] eqn:El; simpl.
    + rewrite matchRe_none; [reflexivity|].
      intros st'. unfold progress. rewrite El. reflexivity.
    + f_equal. apply matchRe_ext. intros st'.
      destruct (progress st st') eqn:P; [|reflexivity].
      unfold progress in P. apply Nat.ltb_lt in P.
      rewrite (IH fuel) by lia. rewrite (IH l) by lia. reflexivity.
Qed.

(** The equation of the greedy star. *)
Lemma matchRe_Star r st k :
  matchRe (Star r) st k
  = orElse (matchRe r st (fun st' => if progress st st'
                                     then matchRe (Star r) st' k else None))
           (k st).
Proof.
  simpl. destruct (length (rest st)) as [|l] eqn:El; simpl.
  - rewrite matchRe_none; [reflexivity|].
    intros st'. unfold progress. rewrite El. reflexivity.
  - f_equal. apply matchRe_ext. intros st'.
    destruct (progress st st') eqn:P; [|reflexivity].
    unfold progress in P. apply Nat.ltb_lt in P.
    apply starLoop_fuel. lia.
Qed.

Lemma matchRe_complete r st st' :
  Run r st st' ->
  forall k, k st' <> None -> matchRe r st k <> None.
Proof.
  induction 1 as [st|p st c t E Pc|st E|st E|r1 r2 st st1 st2 _ IH1 _ IH2
                  |r1 r2 st st' _ IH|r1 r2 st st' _ IH|r st
                  |r st st1 st2 _ IH1 P _ IH2|n r st st' _ IH];
    intros k K.
  - exact K.
  - simpl. rewrite E, Pc. exact K.
  - simpl. rewrite E. exact K.
  - simpl. rewrite E. exact K.
  - simpl. apply IH1. apply IH2. exact K.
  - simpl. specialize (IH k K).
    destruct (matchRe r1 st k); [discriminate | contradiction].
  - simpl. destruct (matchRe r1 st k); [discriminate|]. simpl. now apply IH.
  - rewrite matchRe_Star. destruct (matchRe r st _); [discriminate|]. exact K.
  - rewrite matchRe_Star.
    assert (H : matchRe r st (fun st' => if progress st st'
                                         then matchRe (Star r) st' k else None)
                <> None).
    { apply IH1. rewrite P. apply IH2. exact K. }
    destruct (matchRe r st _); [discriminate | contradiction].
  - simpl. apply IH. exact K.
Qed.

Lemma matchAt_Run r i s :
  matchAt r i s <> None <-> exists st', Run r (MState i s []) st'.
Proof.
  unfold matchAt. split.
  - destruct (matchRe r (MState i s []) Some) as [res|] eqn:E; [|congruence].
    intros _. apply matchRe_sound in E. destruct E as (st' & R & _). eauto.
  - intros (st' & R). eapply matchRe_complete; eauto. discriminate.
Qed.

Lemma execFrom_Run r : forall s i,
  execFrom r i s <> None
  <-> exists j st', j <= length s /\ Run r (MState (i + j) (skipn j s) []) st'.
Proof.
  induction s as [|c t IH]; intros i; simpl.
  - destruct (matchAt r i []) as [res|] eqn:E.
    + split; [intros _|discriminate].
      assert (H : matchAt r i [] <> None) by congruence.
      apply matchAt_Run in H. destruct H as (st' & R).
      exists 0, st'. rewrite Nat.add_0_r. auto.
    + split; [congruence|]. intros (j & st' & Hj & R).
      assert (j = 0) by lia. subst j. rewrite Nat.add_0_r in R. simpl in R.
      assert (H : matchAt r i [] <> None) by (apply matchAt_Run; eauto).
      congruence.
  - destruct (matchAt r i (c :: t)) as [res|] eqn:E.
    + split; [intros _|discriminate].
      assert (H : matchAt r i (c :: t) <> None) by congruence.
      apply matchAt_Run in H. destruct H as (st' & R).
      exists 0, st'. rewrite Nat.add_0_r. split; [lia | exact R].
    + rewrite IH. split.
      * intros (j & st' & Hj & R). exists (S j), st'. split; [lia|].
        simpl. replace (i + S j) with (S i + j) by lia. exact R.
      * intros (j & st' & Hj & R). destruct j as [|j].
        -- rewrite Nat.add_0_r in R. simpl in R.
           assert (H : matchAt r i (c :: t) <> None) by (apply matchAt_Run; eauto).
           congruence.
        -- exists j, st'. split; [lia|].
           simpl in R. replace (S i + j) with (i + S j) by lia. exact R.
Qed.

(** [test] decides [Found]. *)
Lemma test_Found r s : test r s = true <-> Found r s.
Proof.
  unfold test, exec, Found.
  pose proof (execFrom_Run r s 0) as H. simpl in H.
  destruct (execFrom r 0 s) as [st|]; simpl.
  - split; [intros _|reflexivity]. apply H. discriminate.
  - split; [discriminate|]. intros F. apply H in F. congruence.
Qed.

Lemma matchRe_Seq r1 r2 st k :
  matchRe (r1 ;; r2) st k = matchRe r1 st (fun st' => matchRe r2 st' k).
Proof. reflexivity. Qed.

Lemma matchRe_Alt r1 r2 st k :
  matchRe (Alt r1 r2) st k = orElse (matchRe r1 st k) (matchRe r2 st k).
Proof. reflexivity. Qed.

Lemma matchRe_Class p st k :
  matchRe (Class p) st k
  = match rest st with
    | c :: t => if p c then k (advance st t) else None
    | [] => None
    end.
Proof. reflexivity. Qed.

Lemma matchRe_Bol st k :
  matchRe Bol st k = if Nat.eqb (idx st) 0 then k st else None.
Proof. reflexivity. Qed.

Ltac step_matcher :=
  repeat (rewrite ?matchRe_Seq, ?matchRe_Alt, ?matchRe_Class, ?matchRe_Bol;
          cbn [rest idx caps advance orElse Nat.eqb]).

Lemma matchRe_StarClass p st k :
  matchRe (Star (Class p)) st k
  = match rest st with
    | c :: t => if p c
                then orElse (matchRe (Star (Class p)) (advance st t) k) (k st)
                else k st
    | [] => k st
    end.
Proof.
  rewrite matchRe_Star. cbn [matchRe]. 
  destruct (rest st) as [|c t] eqn:E; [reflexivity|].
  destruct (p c); [|reflexivity].
  unfold progress. cbn [advance rest]. rewrite E. cbn [length].
  replace (length t <? S (length t)) with true; [reflexivity|].
  symmetry. apply Nat.ltb_lt. lia.
Qed.

(** The greedy star of a class, when whatever follows accepts. *)
Lemma star_class_greedy p c : forall s i,
  exists j, i <= j /\
    matchRe (Star (Class p)) (MState i s c) Some
    = Some (MState j (dropWhile p s) c).
Proof.
  induction s as [|x t IH]; intros i; rewrite matchRe_StarClass; cbn [rest].
  - exists i. auto.
  - cbn [dropWhile]. destruct (p x).
    + destruct (IH (S i)) as (j & Hj & E). unfold advance. cbn [idx caps].
      rewrite E. exists j. split; [lia | reflexivity].
    + exists i. auto.
Qed.

(** The greedy star of a class, when the end of the input must follow. *)
Lemma star_class_eol p c : forall s i,
  matchRe (Star (Class p)) (MState i s c) (fun st => matchRe Eol st Some)
  = if forallb p s then Some (MState (i + length s) [] c) else None.
Proof.
  induction s as [|x t IH]; intros i; rewrite matchRe_StarClass; cbn [rest].
  - cbn. rewrite Nat.add_0_r. reflexivity.
  - cbn [forallb length]. destruct (p x); cbn [andb].
    + unfold advance. cbn [idx caps]. rewrite IH.
      replace (S i + length t) with (i + S (length t)) by lia.
      destruct (forallb p t); reflexivity.
    + reflexivity.
Qed.

Fixpoint groupFree (r : regex) : bool :=
  match r with
  | Seq a b | Alt a b => groupFree a && groupFree b
  | Star a => groupFree a
  | Group _ _ => false
  | _ => true
  end.

Lemma Run_groupFree r st st' :
  Run r st st' -> groupFree r = true -> caps st' = caps st.
Proof.
  induction 1; simpl; intros G; try reflexivity;
    try (apply andb_prop in G; destruct G as [G1 G2]).
  - rewrite IHRun2, IHRun1; auto.
  - auto.
  - auto.
  - rewrite IHRun2, IHRun1; auto.
  - discriminate.
Qed.

Ltac inv H := inversion H; subst; clear H.

Ltac run_inv :=
  repeat match goal with
  | H : Run (Seq _ _) _ _ |- _ => inv H
  | H : Run (Alt _ _) _ _ |- _ => inv H
  | H : Run (Group _ _) _ _ |- _ => inv H
  | H : Run (Class _) _ _ |- _ => inv H
  | H : Run Empty _ _ |- _ => inv H
  | H : Run Bol _ _ |- _ => inv H
  | H : Run Eol _ _ |- _ => inv H
  end.

Definition withCaps (st : mstate) (c : captures) : mstate :=
  MState (idx st) (rest st) c.

Lemma Run_caps r st st' :
  Run r st st' -> forall c, exists c', Run r (withCaps st c) (withCaps st' c').
Proof.
  induction 1 as [st|p st x t E Px|st E|st E|r1 r2 st st1 st2 _ IH1 _ IH2
                  |r1 r2 st st' _ IH|r1 r2 st st' _ IH|r st
                  |r st st1 st2 _ IH1 P _ IH2|n r st st' _ IH];
    intros c.
  - exists c. constructor.
  - exists c. apply (RunClass p (withCaps st c) E Px).
  - exists c. now constructor.
  - exists c. now constructor.
  - destruct (IH1 c) as (c1 & R1). destruct (IH2 c1) as (c2 & R2).
    exists c2. econstructor; eauto.
  - destruct (IH c) as (c' & R). exists c'. now apply RunAltL.
  - destruct (IH c) as (c' & R). exists c'. now apply RunAltR.
  - exists c. constructor.
  - destruct (IH1 c) as (c1 & R1). destruct (IH2 c1) as (c2 & R2).
    exists c2. eapply RunStarStep; eauto.
  - destruct (IH c) as (c' & R).
    exists ((n, firstn (idx st' - idx st) (rest st)) :: c').
    apply (RunGroup n R).
Qed.

Lemma Run_rest_le r st st' :
  Run r st st' -> length (rest st') <= length (rest st).
Proof.
  induction 1 as [|p st x t E _| | | | | | | |];
    cbn [advance record rest] in *; try lia.
  rewrite E. cbn [length]. lia.
Qed.

Lemma execFrom_Bol r s i : execFrom (Bol ;; r) (S i) s = None.
Proof. revert i. induction s as [|c t IH]; intros i; simpl; auto. Qed.

Lemma exec_anchored r s :
  exec (Bol ;; r) s = option_map caps (matchAt (Bol ;; r) 0 s).
Proof.
  unfold exec. destruct s as [|c t]; simpl execFrom;
    destruct (matchAt (Bol ;; r) 0 _); try reflexivity.
  now rewrite execFrom_Bol.
Qed.

End RegExpFacts.
Export RegExpFacts.

(* ================================================================== *)
(** * Facts: the time normalizer *)
(* ================================================================== *)

Module TimeFacts.
Local Open Scope regex_scope.

(** What [twentyFourHour] accepts, unit by unit. *)
Definition is24 (s : jsstring) : bool :=
  match s with
  | [a; b; c; d; e] =>
      (((inRange 48 49 a && isDigit b) || (N.eqb 50 a && inRange 48 51 b))
       && N.eqb colon c && inRange 48 53 d && isDigit e)%bool
  | _ => false
  end.

(** The hour part of an accepted string. *)
Definition hourOk (h : jsstring) : bool :=
  match h with
  | [a; b] => ((inRange 48 49 a && isDigit b) || (N.eqb 50 a && inRange 48 51 b))%bool
  | _ => false
  end.

(** What the groups of [twelveHour] hold after a match. *)
Definition hourDigits (h : jsstring) : Prop :=
  exists d1, isDigit d1 = true /\
    (h = [d1] \/ exists d2, isDigit d2 = true /\ h = [d1; d2]).

Definition minuteDigits (m : option jsstring) : Prop :=
  m = None \/
  exists m1 m2, m = Some [m1; m2] /\ inRange 48 53 m1 = true /\ isDigit m2 = true.

Ltac run_matcher :=
  cbn [matchRe matchAt rest idx caps advance record orElse Nat.eqb
       firstn skipn Nat.sub andb orb].

Ltac split_ifs :=
  repeat match goal with
  | |- context [if ?b then _ else _] =>
      match b with
      | context [if _ then _ else _] => fail 1
      | _ => destruct b; run_matcher; try reflexivity
      end
  end.

Lemma matchAt24 s :
  matchAt twentyFourHour 0 s
  = if is24 s
    then Some (MState 5 [] [(2, skipn 3 s); (1, firstn 2 s)])
    else None.
Proof.
  unfold twentyFourHour, Lit, is24.
  destruct s as [|a [|b [|c [|d [|e [|f t]]]]]]; run_matcher; try reflexivity;
    split_ifs.
Qed.

Lemma Str_am : Str (js "am") = (Lit 97 ;; Lit 109 ;; Empty)%re.
Proof. reflexivity. Qed.
Lemma Str_pm : Str (js "pm") = (Lit 112 ;; Lit 109 ;; Empty)%re.
Proof. reflexivity. Qed.

Lemma twelveHour_groups s st :
  matchAt twelveHour 0 s = Some st ->
  exists h p,
    capture 1 (caps st) = Some h /\ hourDigits h /\
    minuteDigits (capture 2 (caps st)) /\
    capture 3 (caps st) = Some p /\ (p = js "am" \/ p = js "pm").
Proof.
  unfold matchAt. intros H. apply matchRe_sound in H.
  destruct H as (st' & R & E). injection E as <-.
  unfold twelveHour, Opt in R. rewrite Str_am, Str_pm in R. unfold Lit in R.
  run_inv.
  all: repeat match goal with
       | H : Run (Star _) _ _ |- _ => apply Run_groupFree in H; [|reflexivity]
       end.
  all: run_inv.
  all: cbn [record advance rest idx caps] in *.
  all: repeat match goal with
       | H : N.eqb _ _ = true |- _ => apply N.eqb_eq in H
       end; subst.
  all: match goal with
       | H : caps ?x = _, H' : rest ?x = _ |- _ => rewrite H, H'
       end.
  all: match goal with
       | |- context [S (S (idx ?x)) - idx ?x] =>
           replace (S (S (idx x)) - idx x) with 2 by lia
       end.
  all: cbn [capture Nat.eqb firstn Nat.sub].
  all: do 2 eexists; split; [reflexivity|].
  all: split; [unfold hourDigits; eauto 8|].
  all: split; [unfold minuteDigits; eauto 8|].
  all: split; [reflexivity|]; auto.
Qed.

Lemma exec24 s :
  exec twentyFourHour s
  = if is24 s then Some [(2, skipn 3 s); (1, firstn 2 s)] else None.
Proof.
  unfold twentyFourHour at 1. rewrite exec_anchored.
  fold twentyFourHour. rewrite matchAt24. now destruct (is24 s).
Qed.

Lemma is24_stable s : is24 s = true -> Forall (fun c => isStable c = true) s.
Proof.
  destruct s as [|a [|b [|c [|d [|e [|f t]]]]]]; try discriminate.
  unfold is24, isStable, isDigit, inRange, colon. intros H.
  repeat constructor; lia.
Qed.

Lemma is24_parts s :
  is24 s = true -> firstn 2 s ++ [colon] ++ skipn 3 s = s.
Proof.
  destruct s as [|a [|b [|c [|d [|e [|f t]]]]]]; try discriminate.
  unfold is24. intros H. 
  assert (c = colon) by (unfold colon in *; lia). subst c. reflexivity.
Qed.

Lemma hour_padded n :
  (n <= 23)%N -> hourOk (padStart 2 48 (numToString (Num n))) = true.
Proof.
  intros H. rewrite <- (N2Nat.id n).
  assert (L : N.to_nat n < 24) by lia.
  generalize dependent (N.to_nat n). clear. intros k L.
  do 24 (destruct k as [|k]; [reflexivity|]). lia.
Qed.

Lemma parseInt_hour h :
  hourDigits h -> exists n, parseInt10 h = Num n.
Proof.
  intros (d1 & D1 & H).
  assert (W : isWhite d1 = false) by (unfold isWhite, isDigit, inRange in *; lia).
  destruct H as [-> | (d2 & D2 & ->)]; unfold parseInt10, trimStart; simpl;
    rewrite W, D1; eauto.
Qed.

Lemma is24_assemble h m :
  hourOk h = true ->
  minuteDigits (Some m) ->
  is24 (h ++ [colon] ++ m) = true.
Proof.
  intros H [M | (m1 & m2 & M & M1 & M2)]; [discriminate|].
  injection M as ->.
  destruct h as [|a [|b [|c t]]]; try discriminate.
  unfold hourOk in H. cbn [app]. unfold is24.
  rewrite H, M1, M2, N.eqb_refl. reflexivity.
Qed.

Section NormalizeTime.
Context {U : Unicode}.

Lemma normalizeTime_fixed out :
  is24 out = true ->
  normalizeTime out = Ok out /\ test twentyFourHour out = true.
Proof.
  intros H. unfold normalizeTime, test.
  rewrite (normalize_stable (is24_stable out H)).
  rewrite exec24, H. cbn [capture interp Nat.eqb]. split; [|reflexivity].
  f_equal. now apply is24_parts.
Qed.

Lemma normalizeTime_is24 s out :
  normalizeTime s = Ok out -> is24 out = true.
Proof.
  unfold normalizeTime. generalize (toLowerCase (trim s)) as trimmed.
  intros trimmed. rewrite exec24.
  destruct (is24 trimmed) eqn:E.
  - cbn [capture interp Nat.eqb]. rewrite (is24_parts _ E).
    intros H. injection H as <-. exact E.
  - unfold twelveHour at 1. rewrite exec_anchored. fold twelveHour.
    destruct (matchAt twelveHour 0 trimmed) as [st|] eqn:M; [|discriminate].
    cbn [option_map].
    destruct (twelveHour_groups _ M) as (h & p & C1 & Hh & Hm & C3 & Hp).
    rewrite C1, C3. cbn [interp].
    destruct (parseInt_hour Hh) as (n & ->).
    cbn [numLt numEq numAdd optEqb].
    destruct (N.ltb n 1 || N.ltb 12 n)%bool eqn:G; [discriminate|].
    assert (Hmin : minuteDigits
                     (Some match capture 2 (caps st) with
                           | Some x => x | None => js "00" end)).
    { destruct Hm as [-> | (m1 & m2 & -> & ? & ?)].
      - right. exists 48%N, 48%N. repeat split; reflexivity.
      - right. eauto. }
    intros H. injection H as <-.
    apply is24_assemble; [|exact Hmin].
    match goal with |- hourOk (padStart 2 48 (numToString ?x)) = true =>
      assert (Hx : exists k, x = Num k /\ (k <= 23)%N) end.
    { destruct (jsstring_eqb p (js "pm") && negb (N.eqb n 12))%bool eqn:Epm;
        [exists (n + 12)%N; split; [reflexivity | lia]|].
      destruct (jsstring_eqb p (js "am") && N.eqb n 12)%bool eqn:Eam;
        [exists 0%N; split; [reflexivity | lia]|].
      exists n. split; [reflexivity | lia]. }
    destruct Hx as (k & -> & Hk). now apply hour_padded.
Qed.

(** C10: every successful output of [normalizeTime] matches the strict
    24-hour pattern [^([01]\d|2[0-3]):([0-5]\d)$], and normalizing such an
    output again succeeds and gives the same string. *)
Theorem normalizeTime_output_canonical s out :
  normalizeTime s = Ok out ->
  test twentyFourHour out = true /\ normalizeTime out = Ok out.
Proof.
  intros H. apply normalizeTime_is24 in H.
  destruct (normalizeTime_fixed out H). auto.
Qed.

(** C1, as the code has it: the vectors of the specification, with the
    24-hour one written with two hour digits; ["9:05"] matches neither
    pattern and is refused, like ["13pm"]. *)
Theorem normalizeTime_vectors :
  normalizeTime (js "1pm") = Ok (js "13:00") /\
  normalizeTime (js "12am") = Ok (js "00:00") /\
  normalizeTime (js "12pm") = Ok (js "12:00") /\
  normalizeTime (js "09:05") = Ok (js "09:05") /\
  normalizeTime (js "9:05") = Throw invalidTime /\
  normalizeTime (js "13pm") = Throw invalid12.
Proof. repeat split; reflexivity. Qed.

End NormalizeTime.

End TimeFacts.
Export TimeFacts.

(* ================================================================== *)
(** * Facts: the slug normalizer *)
(* ================================================================== *)

Module SlugFacts.
Local Open Scope regex_scope.

Definition isDash (c : N) : bool := N.eqb dash c.

Fixpoint collapse (inRun : bool) (s : jsstring) : jsstring :=
  match s with
  | [] => []
  | x :: t =>
      if notAlnum x
      then if inRun then collapse true t else dash :: collapse true t
      else x :: collapse false t
  end.

Fixpoint dropTrailing (s : jsstring) : jsstring :=
  match s with
  | [] => []
  | x :: t => if forallb isDash s then [] else x :: dropTrailing t
  end.

(** The shape the specification gives for a slug:
    [/^[a-z0-9]+(-[a-z0-9]+)*$/] *)
Definition slugShape : regex :=
  Bol ;; Plus (Class isAlnum)
      ;; Star (Group 1 (Lit dash ;; Plus (Class isAlnum)))
      ;; Eol.

(** The same language read by a two-state automaton: the flag says that
    the previous unit was alphanumeric. *)
Fixpoint dfa (afterAlnum : bool) (s : jsstring) : bool :=
  match s with
  | [] => afterAlnum
  | x :: t =>
      if isAlnum x then dfa true t
      else if isDash x then afterAlnum && dfa false t
           else false
  end.

(** Units of [a-z0-9-] with no dash next to a dash. *)
Fixpoint sep (afterDash : bool) (s : jsstring) : bool :=
  match s with
  | [] => true
  | x :: t =>
      if isAlnum x then sep false t
      else isDash x && negb afterDash && sep true t
  end.

Definition headAlnum (s : jsstring) : Prop :=
  match s with [] => True | x :: _ => isAlnum x = true end.

Definition alnumRun : regex := Star (Class isAlnum).
Definition dashWord : regex := Group 1 (Lit dash ;; Plus (Class isAlnum)).

Lemma collapse_run s :
  collapse true s = collapse false (dropWhile notAlnum s).
Proof.
  induction s as [|x t IH]; [reflexivity|]. simpl.
  destruct (notAlnum x) eqn:E; [exact IH|]. simpl. rewrite E. reflexivity.
Qed.

Lemma matchAt_nonAlnumRun i s :
  match s with
  | x :: t =>
      if notAlnum x
      then exists j, matchAt nonAlnumRun i s
                     = Some (MState j (dropWhile notAlnum t) [])
      else matchAt nonAlnumRun i s = None
  | [] => matchAt nonAlnumRun i s = None
  end.
Proof.
  unfold nonAlnumRun, Plus, matchAt. destruct s as [|x t]; [reflexivity|].
  step_matcher. destruct (notAlnum x); [|reflexivity].
  destruct (star_class_greedy notAlnum [] t (S i)) as (j & _ & E).
  exists j. exact E.
Qed.

Lemma replace_nonAlnumRun : forall fuel i s,
  length s < fuel ->
  replaceFrom fuel nonAlnumRun [dash] i s = collapse false s.
Proof.
  induction fuel as [|fuel IH]; intros i s L; [lia|].
  cbn [replaceFrom]. pose proof (matchAt_nonAlnumRun i s) as M.
  destruct s as [|x t].
  - rewrite M. reflexivity.
  - cbn [collapse]. destruct (notAlnum x).
    + destruct M as (j & ->). cbn [rest idx].
      pose proof (dropWhile_length notAlnum t) as D. cbn [length] in *.
      replace (length (dropWhile notAlnum t) <? S (length t)) with true
        by (symmetry; apply Nat.ltb_lt; lia).
      rewrite IH by lia. rewrite collapse_run. reflexivity.
    + rewrite M. rewrite IH by (cbn [length] in L; lia). reflexivity.
Qed.

Lemma matchAt_edgeDashes_inner i s :
  matchAt edgeDashes (S i) s
  = match s with
    | x :: t => if forallb isDash s
                then Some (MState (S i + length s) [] []) else None
    | [] => None
    end.
Proof.
  unfold edgeDashes, Plus, Lit, matchAt.
  destruct s as [|x t]; step_matcher; [reflexivity|]. cbn [forallb].
  fold (isDash x). destruct (isDash x); [|reflexivity]. cbn [andb].
  unfold advance; cbn [idx caps].
  rewrite (star_class_eol (N.eqb dash) [] t (S (S i))).
  fold isDash. cbn [length].
  replace (S (S i) + length t) with (S i + S (length t)) by lia.
  reflexivity.
Qed.

Lemma replace_edge_nil fuel i : replaceFrom fuel edgeDashes [] i [] = [].
Proof.
  destruct fuel; [reflexivity|]. cbn [replaceFrom].
  unfold edgeDashes, Plus, Lit, matchAt. step_matcher.
  destruct (Nat.eqb i 0); reflexivity.
Qed.

Lemma replace_edge_inner : forall fuel i s,
  length s < fuel ->
  replaceFrom fuel edgeDashes [] (S i) s = dropTrailing s.
Proof.
  induction fuel as [|fuel IH]; intros i s L; [lia|].
  cbn [replaceFrom]. rewrite matchAt_edgeDashes_inner.
  destruct s as [|x t]; [reflexivity|].
  cbn [dropTrailing]. destruct (forallb isDash (x :: t)).
  - cbn [rest idx length Nat.ltb Nat.leb app]. apply replace_edge_nil.
  - rewrite IH by (cbn [length] in L; lia). reflexivity.
Qed.

Lemma matchAt_edgeDashes_start s :
  match s with
  | x :: t =>
      if isDash x
      then exists j, matchAt edgeDashes 0 s
                     = Some (MState (S j) (dropWhile isDash t) [])
      else matchAt edgeDashes 0 s = None
  | [] => matchAt edgeDashes 0 s = None
  end.
Proof.
  unfold edgeDashes, Plus, Lit, matchAt.
  destruct s as [|x t]; step_matcher; [reflexivity|].
  fold (isDash x). destruct (isDash x); [|reflexivity].
  unfold advance; cbn [idx caps].
  destruct (star_class_greedy (N.eqb dash) [] t 1) as (j & Hj & E).
  rewrite E. cbn [orElse]. destruct j as [|j]; [lia|]. exists j. reflexivity.
Qed.

Lemma dropTrailing_head x t :
  isDash x = false -> dropTrailing (x :: t) = x :: dropTrailing t.
Proof. intros H. cbn [dropTrailing forallb]. rewrite H. reflexivity. Qed.

Lemma replace_edgeDashes s :
  replaceAll edgeDashes [] s = dropTrailing (dropWhile isDash s).
Proof.
  unfold replaceAll. cbn [replaceFrom].
  pose proof (matchAt_edgeDashes_start s) as M.
  destruct s as [|x t]; [rewrite M; reflexivity|].
  cbn [dropWhile]. destruct (isDash x) eqn:D.
  - destruct M as (j & ->). cbn [rest idx app].
    pose proof (dropWhile_length isDash t) as L. cbn [length].
    replace (length (dropWhile isDash t) <? S (length t)) with true
      by (symmetry; apply Nat.ltb_lt; lia).
    apply replace_edge_inner. lia.
  - rewrite M. rewrite replace_edge_inner by (cbn [length]; lia).
    rewrite dropTrailing_head by exact D. reflexivity.
Qed.

Lemma isDash_eq x : isDash x = true -> x = dash.
Proof. unfold isDash. intros H. apply N.eqb_eq in H. auto. Qed.

Lemma isDash_notAlnum x : isDash x = true -> isAlnum x = false.
Proof. intros H. apply isDash_eq in H. subst. reflexivity. Qed.

Lemma isAlnum_notDash x : isAlnum x = true -> isDash x = false.
Proof.
  intros H. destruct (isDash x) eqn:D; [|reflexivity].
  apply isDash_notAlnum in D. congruence.
Qed.

Lemma sep_collapse : forall s b, sep b (collapse b s) = true.
Proof.
  induction s as [|x t IH]; intros b; [reflexivity|]. cbn [collapse].
  unfold notAlnum. destruct (isAlnum x) eqn:A; cbn [negb].
  - cbn [sep]. rewrite A. apply IH.
  - destruct b; [apply IH|]. cbn [sep].
    change (isAlnum dash) with false. change (isDash dash) with true.
    cbn [andb negb]. apply IH.
Qed.

Lemma sep_dropDashes : forall s b,
  sep b s = true ->
  sep false (dropWhile isDash s) = true /\ headAlnum (dropWhile isDash s).
Proof.
  induction s as [|x t IH]; intros b H; [split; [reflexivity | exact I]|].
  cbn [sep] in H. cbn [dropWhile]. destruct (isAlnum x) eqn:A.
  - rewrite (isAlnum_notDash _ A). cbn [sep headAlnum]. rewrite A. auto.
  - destruct (isDash x); [|discriminate].
    destruct b; [discriminate|]. cbn [andb negb] in H. eapply IH; eauto.
Qed.

Lemma sep_head_alnum x t b :
  isAlnum x = true -> sep b (x :: t) = sep false t.
Proof. intros A. cbn [sep]. rewrite A. reflexivity. Qed.

Lemma dfa_dropTrailing : forall t,
  sep false t = true -> dfa true (dropTrailing t) = true.
Proof.
  induction t as [|y t IH]; intros H; [reflexivity|].
  cbn [sep] in H. destruct (isAlnum y) eqn:A.
  - rewrite dropTrailing_head by (now apply isAlnum_notDash).
    cbn [dfa]. rewrite A. now apply IH.
  - destruct (isDash y) eqn:D; [|discriminate]. cbn [andb negb] in H.
    cbn [dropTrailing]. destruct (forallb isDash (y :: t)) eqn:F; [reflexivity|].
    cbn [dfa]. rewrite A, D. cbn [andb].
    destruct t as [|z t']; [cbn [forallb] in F; rewrite D in F; discriminate|].
    cbn [sep] in H. destruct (isAlnum z) eqn:Az.
    + assert (IHz : dfa true (dropTrailing (z :: t')) = true).
      { apply IH. cbn [sep]. rewrite Az. exact H. }
      rewrite dropTrailing_head in * by (now apply isAlnum_notDash).
      cbn [dfa] in *. rewrite Az in *. exact IHz.
    + rewrite andb_false_r in H. discriminate.
Qed.

Lemma strip_shape c0 :
  sep false c0 = true ->
  let out := dropTrailing (dropWhile isDash c0) in
  out = [] \/ dfa false out = true.
Proof.
  intros H. destruct (sep_dropDashes _ _ H) as [S1 HA].
  cbn zeta. destruct (dropWhile isDash c0) as [|x t]; [left; reflexivity|].
  right. cbn [headAlnum] in HA.
  rewrite dropTrailing_head by (now apply isAlnum_notDash).
  cbn [dfa]. rewrite HA. apply dfa_dropTrailing.
  rewrite (sep_head_alnum x t false HA) in S1. exact S1.
Qed.

Lemma dfa_Run : forall n s,
  length s <= n -> dfa true s = true ->
  forall i c, exists st1 st2,
    Run alnumRun (MState i s c) st1 /\ Run (Star dashWord) st1 st2 /\
    rest st2 = [].
Proof.
  induction n as [|n IH]; intros s L D i c.
  - destruct s; [|cbn [length] in L; lia].
    exists (MState i [] c), (MState i [] c). repeat split; constructor.
  - destruct s as [|x t].
    { exists (MState i [] c), (MState i [] c). repeat split; constructor. }
    cbn [length] in L. cbn [dfa] in D. destruct (isAlnum x) eqn:A.
    + destruct (IH t ltac:(lia) D (S i) c) as (st1 & st2 & R1 & R2 & E).
      exists st1, st2. repeat split; auto.
      eapply RunStarStep; [| |exact R1].
      * apply (RunClass isAlnum (MState i (x :: t) c) eq_refl A).
      * unfold progress. cbn [advance rest length]. apply Nat.ltb_lt. lia.
    + destruct (isDash x) eqn:Dx; [|discriminate]. cbn [andb] in D.
      destruct t as [|y t']; [discriminate|]. cbn [dfa] in D.
      destruct (isAlnum y) eqn:Ay;
        [|destruct (isDash y); discriminate].
      cbn [length] in L.
      destruct (IH t' ltac:(lia) D (S (S i)) c) as (st1 & st2 & R1 & R2 & E).
      set (st0 := MState i (x :: y :: t') c).
      assert (G : Run dashWord st0 (record 1 st0 st1)).
      { apply RunGroup. eapply RunSeq.
        - apply (RunClass (N.eqb dash) st0 eq_refl Dx).
        - eapply RunSeq.
          + apply (RunClass isAlnum (advance st0 (y :: t')) eq_refl Ay).
          + exact R1. }
      destruct (Run_caps R2 (caps (record 1 st0 st1))) as (c' & R2').
      exists st0, (withCaps st2 c'). repeat split; [constructor| |exact E].
      eapply RunStarStep; [exact G| |exact R2'].
      apply Run_rest_le in R1. unfold progress.
      cbn [record rest st0 length] in *. apply Nat.ltb_lt. lia.
Qed.

Lemma dfa_Found s : dfa false s = true -> Found slugShape s.
Proof.
  intros D. destruct s as [|x t]; [discriminate|]. cbn [dfa] in D.
  destruct (isAlnum x) eqn:A; [|destruct (isDash x); discriminate].
  destruct (@dfa_Run (length t) t (le_n _) D 1 []) as (st1 & st2 & R1 & R2 & E).
  exists 0, st2. split; [lia|]. cbn [skipn].
  unfold slugShape, Plus. eapply RunSeq; [now constructor|].
  eapply RunSeq.
  - eapply RunSeq; [|exact R1].
    apply (RunClass isAlnum (MState 0 (x :: t) []) eq_refl A).
  - eapply RunSeq; [exact R2 | now constructor].
Qed.

Lemma alnum_stable x : isAlnum x = true -> isStable x = true.
Proof. unfold isAlnum, isStable, isLowerAZ, isDigit, inRange. lia. Qed.

Lemma dash_stable x : isDash x = true -> isStable x = true.
Proof. intros H. apply isDash_eq in H. subst. reflexivity. Qed.

Lemma dfa_stable : forall s b,
  dfa b s = true -> Forall (fun c => isStable c = true) s.
Proof.
  induction s as [|x t IH]; intros b D; [constructor|]. cbn [dfa] in D.
  destruct (isAlnum x) eqn:A.
  - constructor; [now apply alnum_stable | eauto].
  - destruct (isDash x) eqn:Dx; [|discriminate].
    apply andb_prop in D. destruct D as [_ D].
    constructor; [now apply dash_stable | eauto].
Qed.

Lemma collapse_head_alnum x t b :
  isAlnum x = true -> collapse b (x :: t) = x :: collapse false t.
Proof. intros A. cbn [collapse]. unfold notAlnum. rewrite A. reflexivity. Qed.

Lemma dfa_collapse : forall s b, dfa b s = true -> collapse false s = s.
Proof.
  induction s as [|x t IH]; intros b D; [reflexivity|]. cbn [dfa] in D.
  destruct (isAlnum x) eqn:A.
  - rewrite collapse_head_alnum by exact A. f_equal. eauto.
  - destruct (isDash x) eqn:Dx; [|discriminate].
    apply andb_prop in D. destruct D as [_ D].
    cbn [collapse]. unfold notAlnum. rewrite A. cbn [negb].
    rewrite <- (isDash_eq _ Dx). f_equal.
    destruct t as [|y t']; [reflexivity|]. cbn [dfa] in D.
    destruct (isAlnum y) eqn:Ay; [|destruct (isDash y); discriminate].
    rewrite collapse_head_alnum by exact Ay.
    rewrite <- (collapse_head_alnum y t' false Ay). apply (IH false).
    cbn [dfa]. rewrite Ay. exact D.
Qed.

Lemma dfa_dropTrailing_id : forall s b, dfa b s = true -> dropTrailing s = s.
Proof.
  induction s as [|x t IH]; intros b D; [reflexivity|]. cbn [dfa] in D.
  destruct (isAlnum x) eqn:A.
  - rewrite dropTrailing_head by (now apply isAlnum_notDash). f_equal. eauto.
  - destruct (isDash x) eqn:Dx; [|discriminate].
    apply andb_prop in D. destruct D as [_ D].
    destruct t as [|y t']; [discriminate|].
    cbn [dropTrailing forallb]. rewrite Dx. cbn [dfa] in D.
    destruct (isAlnum y) eqn:Ay; [|destruct (isDash y); discriminate].
    rewrite (isAlnum_notDash _ Ay). cbn [andb]. f_equal.
    rewrite <- (dropTrailing_head y t' (isAlnum_notDash _ Ay)).
    apply (IH false). cbn [dfa]. rewrite Ay. exact D.
Qed.

Lemma dfa_dropDashes s : dfa false s = true -> dropWhile isDash s = s.
Proof.
  destruct s as [|x t]; [reflexivity|]. cbn [dfa dropWhile].
  destruct (isAlnum x) eqn:A.
  - rewrite (isAlnum_notDash _ A). reflexivity.
  - destruct (isDash x); discriminate.
Qed.

Section Slug.
Context {U : Unicode}.

Lemma generateSlug_closed title :
  generateSlug title
  = dropTrailing (dropWhile isDash (collapse false (trim (toLowerCase title)))).
Proof.
  unfold generateSlug. rewrite replace_edgeDashes.
  unfold replaceAll. rewrite replace_nonAlnumRun by lia. reflexivity.
Qed.

Lemma generateSlug_shape title :
  generateSlug title = [] \/ dfa false (generateSlug title) = true.
Proof.
  rewrite generateSlug_closed. apply strip_shape. apply sep_collapse.
Qed.

Lemma generateSlug_fixed s :
  s = [] \/ dfa false s = true -> generateSlug s = s.
Proof.
  intros [-> | D]; [reflexivity|]. rewrite generateSlug_closed.
  assert (F := dfa_stable _ _ D).
  unfold toLowerCase. rewrite (lowerFrom_stable F), (trim_stable F).
  rewrite (dfa_collapse _ _ D), (dfa_dropDashes _ D).
  apply (dfa_dropTrailing_id _ _ D).
Qed.

(** C3: for every title the output of [generateSlug] is empty or matches
    [^[a-z0-9]+(-[a-z0-9]+)*$], and [generateSlug] applied to its own
    output returns that output. *)
Theorem generateSlug_pattern_idempotent title :
  (generateSlug title = [] \/ test slugShape (generateSlug title) = true)
  /\ generateSlug (generateSlug title) = generateSlug title.
Proof.
  split.
  - destruct (generateSlug_shape title) as [E | D]; [now left|].
    right. apply test_Found. now apply dfa_Found.
  - apply generateSlug_fixed. apply generateSlug_shape.
Qed.

End Slug.

End SlugFacts.
Export SlugFacts.

(* ================================================================== *)
(** * Facts: the connection manager and the handlers *)
(* ================================================================== *)

Module HandlerFacts.
Local Open Scope monad_scope.

(** The world once an operation has been logged. *)
Definition logged (w : World) (o : Op) : World :=
  MkWorld (cached w) (connects w) (events w) (trace w ++ [o]).

Lemma storeOp_run A (o : Op) (answer : list EventDocument -> A) env w :
  storeOp o answer env w
  = (match storeFault env (length (trace w)) with
     | Some e => Throw e
     | None => Ok (answer (events w))
     end, logged w o).
Proof.
  unfold storeOp, bind, ask, get, log, put, ret, throw, logged. cbn.
  destruct (storeFault env (length (trace w))); reflexivity.
Qed.

(** ** The connection manager *)

Lemma connectDB_cached env w h :
  conn (cached w) = Some h ->
  connectDB env w = (Ok h, logged w Acquire).
Proof.
  intros H. unfold connectDB, connectDB_enter, bind, log, get, put, ret.
  cbn. rewrite H. reflexivity.
Qed.

(** The world after a call that had to open a connection. *)
Definition attempted (w : World) (c : MongooseCache) : World :=
  MkWorld c (S (connects w)) (events w) (trace w ++ [Acquire; Connect]).

Lemma connectDB_fresh env w :
  conn (cached w) = None -> promise (cached w) = None ->
  uriMissing (MONGODB_URI env) = false ->
  connectDB env w
  = match settle env (connects w) with
    | Ok h => (Ok h, attempted w (MkCache (Some h) (Some (connects w))))
    | Throw e => (Throw e, attempted w (MkCache None None))
    end.
Proof.
  intros C P Uri.
  unfold connectDB, connectDB_enter, connectDB_resume, mongooseConnect,
    setPromise, setConn, setCache, bind, log, get, put, ret, ask, throw,
    attempted.
  cbn. rewrite C, P, Uri. cbn. rewrite <- app_assoc. cbn.
  destruct (settle env (connects w)); cbn; rewrite ?C; reflexivity.
Qed.

Lemma connectDB_pending env w p :
  conn (cached w) = None -> promise (cached w) = Some p ->
  connectDB env w
  = match settle env p with
    | Ok h => (Ok h, MkWorld (MkCache (Some h) (Some p)) (connects w)
                             (events w) (trace w ++ [Acquire]))
    | Throw e => (Throw e, MkWorld (MkCache None None) (connects w)
                                   (events w) (trace w ++ [Acquire]))
    end.
Proof.
  intros C P.
  unfold connectDB, connectDB_enter, connectDB_resume,
    setPromise, setConn, setCache, bind, log, get, put, ret, ask, throw.
  cbn. rewrite C, P. cbn.
  destruct (settle env p); cbn; rewrite ?C, ?P; reflexivity.
Qed.

Lemma connectDB_noUri env w :
  conn (cached w) = None -> promise (cached w) = None ->
  uriMissing (MONGODB_URI env) = true ->
  connectDB env w = (Throw missingUri, logged w Acquire).
Proof.
  intros C P Uri.
  unfold connectDB, connectDB_enter, bind, log, get, put, ret, ask, throw.
  cbn. rewrite C, P, Uri. reflexivity.
Qed.

(** Every way a call can go. *)
Lemma connectDB_cases env w :
  (exists h, conn (cached w) = Some h /\
             connectDB env w = (Ok h, logged w Acquire)) \/
  (conn (cached w) = None /\ promise (cached w) = None /\
   uriMissing (MONGODB_URI env) = true /\
   connectDB env w = (Throw missingUri, logged w Acquire)) \/
  (conn (cached w) = None /\ promise (cached w) = None /\
   uriMissing (MONGODB_URI env) = false /\
   connectDB env w
   = match settle env (connects w) with
     | Ok h => (Ok h, attempted w (MkCache (Some h) (Some (connects w))))
     | Throw e => (Throw e, attempted w (MkCache None None))
     end) \/
  (exists p, conn (cached w) = None /\ promise (cached w) = Some p /\
     connectDB env w
     = match settle env p with
       | Ok h => (Ok h, MkWorld (MkCache (Some h) (Some p)) (connects w)
                                (events w) (trace w ++ [Acquire]))
       | Throw e => (Throw e, MkWorld (MkCache None None) (connects w)
                                      (events w) (trace w ++ [Acquire]))
       end).
Proof.
  destruct (conn (cached w)) as [h|] eqn:C.
  - left. exists h. split; [reflexivity|]. now apply connectDB_cached.
  - destruct (promise (cached w)) as [p|] eqn:P.
    + right. right. right. exists p. repeat split; auto.
      now apply connectDB_pending.
    + destruct (uriMissing (MONGODB_URI env)) eqn:Uri.
      * right. left. repeat split; auto. now apply connectDB_noUri.
      * right. right. left. repeat split; auto. now apply connectDB_fresh.
Qed.


Lemma connectDB_events env w : events (snd (connectDB env w)) = events w.
Proof.
  destruct (connectDB_cases env w)
    as [(h & _ & ->) | [(_ & _ & _ & ->) | [(_ & _ & _ & ->) | (p & _ & _ & ->)]]];
    try reflexivity.
  - destruct (settle env (connects w)); reflexivity.
  - destruct (settle env p); reflexivity.
Qed.

Lemma connectDB_trace_grows env w :
  length (trace w) < length (trace (snd (connectDB env w))).
Proof.
  destruct (connectDB_cases env w)
    as [(h & _ & ->) | [(_ & _ & _ & ->) | [(_ & _ & _ & ->) | (p & _ & _ & ->)]]];
    try (cbn; rewrite length_app; cbn; lia).
  - destruct (settle env (connects w)); cbn; rewrite length_app; cbn; lia.
  - destruct (settle env p); cbn; rewrite length_app; cbn; lia.
Qed.

(** [n] calls in a row. *)
Fixpoint acquireTimes (n : nat) (env : Env) (w : World)
  : list (result Handle) * World :=
  match n with
  | O => ([], w)
  | S n' =>
      let (r, w1) := connectDB env w in
      let (rs, w2) := acquireTimes n' env w1 in
      (r :: rs, w2)
  end.

Lemma acquireTimes_cached env h : forall n w,
  conn (cached w) = Some h ->
  acquireTimes n env w
  = (repeat (Ok h) n,
     MkWorld (cached w) (connects w) (events w) (trace w ++ repeat Acquire n)).
Proof.
  induction n as [|n IH]; intros w C; cbn [acquireTimes repeat].
  - rewrite app_nil_r. now destruct w.
  - rewrite (connectDB_cached env w C). rewrite IH by exact C.
    cbn. rewrite <- app_assoc. reflexivity.
Qed.

(** C6: the cache of the connection manager.  A handle that a call
    established is cached, and every later call returns it at once, with no
    further [mongoose.connect]; when establishing fails the caller gets the
    failure, the cached promise is cleared, and the next call makes a new
    attempt whose outcome it returns. *)
Theorem connectDB_cache_machine env w :
  (forall h w1,
      connectDB env w = (Ok h, w1) ->
      conn (cached w1) = Some h /\
      forall n,
        acquireTimes n env w1
        = (repeat (Ok h) n,
           MkWorld (cached w1) (connects w1) (events w1)
                   (trace w1 ++ repeat Acquire n))) /\
  (forall e w1,
      connectDB env w = (Throw e, w1) ->
      conn (cached w1) = None /\ promise (cached w1) = None) /\
  (forall e,
      conn (cached w) = None -> promise (cached w) = None ->
      uriMissing (MONGODB_URI env) = false ->
      settle env (connects w) = Throw e ->
      let w1 := attempted w (MkCache None None) in
      connectDB env w = (Throw e, w1) /\
      connectDB env w1
      = match settle env (S (connects w)) with
        | Ok h =>
            (Ok h, attempted w1 (MkCache (Some h) (Some (S (connects w)))))
        | Throw e' => (Throw e', attempted w1 (MkCache None None))
        end).
Proof.
  split; [|split].
  - intros h w1 H.
    assert (C : conn (cached w1) = Some h).
    { destruct (connectDB_cases env w)
        as [(h' & C & E) | [(_ & _ & _ & E) | [(_ & _ & _ & E) | (p & _ & _ & E)]]];
        rewrite E in H.
      - injection H as <- <-. exact C.
      - discriminate.
      - destruct (settle env (connects w)); [|discriminate].
        injection H as <- <-. reflexivity.
      - destruct (settle env p); [|discriminate].
        injection H as <- <-. reflexivity. }
    split; [exact C|]. intros n. now apply acquireTimes_cached.
  - intros e w1 H.
    destruct (connectDB_cases env w)
      as [(h' & C & E) | [(C & P & _ & E) | [(_ & _ & _ & E) | (p & _ & _ & E)]]];
      rewrite E in H.
    + discriminate.
    + injection H as <- <-. auto.
    + destruct (settle env (connects w)); [discriminate|].
      injection H as <- <-. auto.
    + destruct (settle env p); [discriminate|].
      injection H as <- <-. auto.
  - intros e C P Uri S1 w1. split.
    + rewrite (connectDB_fresh env w C P Uri), S1. reflexivity.
    + apply (connectDB_fresh env w1); auto.
Qed.


(** Two calls that overlap on a cold cache: both enter before the
    connection is there, one [mongoose.connect] is issued, and both resume
    with the handle it resolved to. *)
Lemma connectDB_overlapping env w h :
  conn (cached w) = None -> promise (cached w) = None ->
  uriMissing (MONGODB_URI env) = false ->
  settle env (connects w) = Ok h ->
  (a <- connectDB_enter ;;
   b <- connectDB_enter ;;
   ha <- connectDB_resume (settle env (connects w)) ;;
   hb <- connectDB_resume (settle env (connects w)) ;;
   ret (a, b, ha, hb)) env w
  = (Ok (inr (connects w), inr (connects w), h, h),
     MkWorld (MkCache (Some h) (Some (connects w))) (S (connects w))
             (events w) (trace w ++ [Acquire; Connect; Acquire])).
Proof.
  intros C P Uri S1.
  unfold connectDB_enter, connectDB_resume, mongooseConnect,
    setPromise, setConn, setCache, bind, log, get, put, ret, ask, throw.
  cbn. rewrite C, P, Uri. cbn. rewrite C. cbn. rewrite S1. cbn.
  repeat rewrite <- app_assoc. reflexivity.
Qed.

(** ** The retrieval handler *)

Section Retrieval.
Context {U : Unicode}.

Definition bySlug (s : jsstring) (e : EventDocument) : bool :=
  jsstring_eqb (slug e) s.

(** The body of a 500 answer. *)
Definition messageOf (e : exn) : jsstring :=
  match e with
  | JsError m => m
  | Thrown => js "An unexpected error occurred."
  end.

Definition detailsOf (env : Env) (e : exn) : option jsstring :=
  if optEqb (NODE_ENV env) (js "development") then Some (messageOf e) else None.

Definition serverError (env : Env) (e : exn) : Response :=
  MkResponse 500 (ErrorResponse (js "Failed to fetch events.")
                                INTERNAL_SERVER_ERROR (detailsOf env e)).

Definition notFound : Response :=
  MkResponse 404 (ErrorResponse (js "Event not found.") EVENT_NOT_FOUND None).

Definition fetched (ev : EventDocument) : Response :=
  MkResponse 200 (SuccessResponse (js "Event fetched successfully.") ev).

Definition badRequest (code : ErrorCode) (message : jsstring) : Response :=
  MkResponse 400 (ErrorResponse message code None).

Lemma GET_invalid req env w raw st code message :
  rawSlugOf req = raw ->
  validateSlug raw = SlugBad st code message ->
  GET req env w = (Ok (MkResponse st (ErrorResponse message code None)), w).
Proof. intros <- H. unfold GET. rewrite H. reflexivity. Qed.

Lemma GET_valid req env w raw s :
  rawSlugOf req = raw ->
  validateSlug raw = SlugOk s ->
  GET req env w
  = match connectDB env w with
    | (Throw e, w1) => (Ok (serverError env e), w1)
    | (Ok _, w1) =>
        (Ok match storeFault env (length (trace w1)) with
            | Some e => serverError env e
            | None => match find (bySlug s) (events w1) with
                      | Some ev => fetched ev
                      | None => notFound
                      end
            end,
         logged w1 (FindOne s))
    end.
Proof.
  intros <- H. unfold GET. rewrite H. unfold tryCatch, bind at 1.
  destruct (connectDB env w) as [[h|e] w1]; [|reflexivity].
  unfold bind, findOne. rewrite storeOp_run.
  destruct (storeFault env (length (trace w1))); [reflexivity|].
  fold (bySlug s). destruct (find (bySlug s) (events w1)); reflexivity.
Qed.

Lemma validateSlug_cases raw :
  validateSlug raw
  = if falsy raw
    then SlugBad 400 MISSING_SLUG (js "Slug parameter is required.")
    else if falsy (Some (toLowerCase (trim (interp raw))))
         then SlugBad 400 INVALID_SLUG_FORMAT (js "Slug parameter cannot be empty.")
         else if test slugPattern (toLowerCase (trim (interp raw)))
              then SlugOk (toLowerCase (trim (interp raw)))
              else SlugBad 400 INVALID_SLUG_FORMAT
                     (js "Slug may only contain lowercase letters, numbers, and hyphens.").
Proof.
  unfold validateSlug. destruct (falsy raw); [reflexivity|].
  destruct (falsy (Some _)); [reflexivity|].
  destruct (test slugPattern _); reflexivity.
Qed.

Lemma falsy_Some s : falsy (Some s) = true <-> s = [].
Proof. destruct s; cbn; split; congruence. Qed.


Lemma test_plus_class_anchored p s :
  test (Bol ;; Plus (Class p) ;; Eol)%re s
  = match s with [] => false | _ :: _ => forallb p s end.
Proof.
  unfold test. rewrite exec_anchored. unfold matchAt, Plus.
  destruct s as [|x t]; step_matcher; [reflexivity|].
  cbn [forallb]. destruct (p x); [|reflexivity]. cbn [andb].
  unfold advance; cbn [idx caps].
  rewrite (star_class_eol p [] t 1). destruct (forallb p t); reflexivity.
Qed.

(** [slugPattern] accepts the non-empty strings over [a-z0-9-]. *)
Lemma test_slugPattern s :
  test slugPattern s = match s with [] => false | _ :: _ => forallb isSlugChar s end.
Proof. apply test_plus_class_anchored. Qed.

(** C2, as the code has it: a missing or empty raw slug is answered 400
    MISSING_SLUG; a non-empty raw slug that is empty once trimmed and
    lowercased, or has a unit outside [a-z0-9-] (as ["My Event!"] has), is
    answered 400 INVALID_SLUG_FORMAT; a valid slug, when the connection and
    the query succeed, is answered 404 EVENT_NOT_FOUND if no stored event
    has it and 200 with a message and the event that has it otherwise. *)
Theorem GET_slug_outcomes req env w :
  (falsy (rawSlugOf req) = true ->
   fst (GET req env w)
   = Ok (badRequest MISSING_SLUG (js "Slug parameter is required."))) /\
  (forall raw,
      rawSlugOf req = Some raw -> raw <> [] ->
      toLowerCase (trim raw) = [] \/
      test slugPattern (toLowerCase (trim raw)) = false ->
      exists message,
        fst (GET req env w) = Ok (badRequest INVALID_SLUG_FORMAT message)) /\
  (rawSlugOf req = Some (js "My Event!") ->
   exists message,
     fst (GET req env w) = Ok (badRequest INVALID_SLUG_FORMAT message)) /\
  (forall raw h w1,
      rawSlugOf req = Some raw -> raw <> [] ->
      test slugPattern (toLowerCase (trim raw)) = true ->
      connectDB env w = (Ok h, w1) ->
      storeFault env (length (trace w1)) = None ->
      (find (bySlug (toLowerCase (trim raw))) (events w) = None ->
       fst (GET req env w) = Ok notFound) /\
      (forall ev,
          find (bySlug (toLowerCase (trim raw))) (events w) = Some ev ->
          fst (GET req env w) = Ok (fetched ev))).
Proof.
  assert (Bad : forall raw,
             rawSlugOf req = Some raw -> raw <> [] ->
             toLowerCase (trim raw) = [] \/
             test slugPattern (toLowerCase (trim raw)) = false ->
             exists message,
               fst (GET req env w) = Ok (badRequest INVALID_SLUG_FORMAT message)).
  { intros raw R N H.
    pose proof (validateSlug_cases (Some raw)) as V.
    cbn [interp] in V.
    assert (F : falsy (Some raw) = false) by (destruct raw; [congruence|reflexivity]).
    rewrite F in V.
    destruct (falsy (Some (toLowerCase (trim raw)))) eqn:E.
    - eexists. rewrite (GET_invalid req env w R V). reflexivity.
    - destruct H as [H | H]; [apply falsy_Some in H; congruence|].
      rewrite H in V. eexists. rewrite (GET_invalid req env w R V). reflexivity. }
  split; [|split; [exact Bad|split]].
  - intros F. pose proof (validateSlug_cases (rawSlugOf req)) as V.
    rewrite F in V. rewrite (GET_invalid req env w eq_refl V). reflexivity.
  - intros R. apply (Bad (js "My Event!") R); [discriminate|].
    right. reflexivity.
  - intros raw h w1 R N T C SF.
    pose proof (validateSlug_cases (Some raw)) as V.
    cbn [interp] in V.
    assert (F : falsy (Some raw) = false) by (destruct raw; [congruence|reflexivity]).
    rewrite F, T in V.
    assert (F2 : falsy (Some (toLowerCase (trim raw))) = false).
    { rewrite test_slugPattern in T.
      destruct (toLowerCase (trim raw)); [discriminate|reflexivity]. }
    rewrite F2 in V. rewrite (GET_valid req env w R V), C, SF.
    pose proof (connectDB_events env w) as Ev. rewrite C in Ev. cbn [snd] in Ev.
    rewrite Ev. split.
    + intros ->. reflexivity.
    + intros ev ->. reflexivity.
Qed.

(** C9: when the slug fails validation (missing, empty once normalized, or
    malformed) the handler answers 400 and the process is left as it was:
    no call of the connection manager and no query is issued. *)
Theorem GET_invalid_slug_no_store_access req env w :
  falsy (rawSlugOf req) = true \/
  (exists raw,
      rawSlugOf req = Some raw /\
      (toLowerCase (trim raw) = [] \/
       test slugPattern (toLowerCase (trim raw)) = false)) ->
  exists code message,
    GET req env w = (Ok (badRequest code message), w) /\
    (code = MISSING_SLUG \/ code = INVALID_SLUG_FORMAT).
Proof.
  intros H. pose proof (validateSlug_cases (rawSlugOf req)) as V.
  destruct (falsy (rawSlugOf req)) eqn:F.
  { do 2 eexists. rewrite (GET_invalid req env w eq_refl V).
    split; [reflexivity | auto]. }
  destruct H as [H | (raw & R & H)]; [discriminate|].
  rewrite R in V. cbn [interp] in V.
  destruct (falsy (Some (toLowerCase (trim raw)))) eqn:E.
  { do 2 eexists. rewrite (GET_invalid req env w R V).
    split; [reflexivity | auto]. }
  destruct H as [H | H].
  - apply falsy_Some in H. congruence.
  - rewrite H in V. do 2 eexists. rewrite (GET_invalid req env w R V).
    split; [reflexivity | auto].
Qed.

(** A slug that passes validation does reach the connection manager. *)
Lemma GET_valid_slug_acquires req env w s :
  validateSlug (rawSlugOf req) = SlugOk s ->
  length (trace w) < length (trace (snd (GET req env w))).
Proof.
  intros V. rewrite (GET_valid req env w eq_refl V).
  pose proof (connectDB_trace_grows env w) as G.
  destruct (connectDB env w) as [[h|e] w1]; cbn [snd] in *; [|exact G].
  unfold logged. cbn [trace]. rewrite length_app. lia.
Qed.

(** C7, as the code has it: a fault of the connection or of the query is
    answered 500 INTERNAL_SERVER_ERROR, and [details] carries the message
    of the error when NODE_ENV is ["development"] and is left out
    otherwise, so also in production. *)
Theorem GET_fault_response req env w s :
  validateSlug (rawSlugOf req) = SlugOk s ->
  (forall e w1,
      connectDB env w = (Throw e, w1) ->
      fst (GET req env w) = Ok (serverError env e)) /\
  (forall h w1 e,
      connectDB env w = (Ok h, w1) ->
      storeFault env (length (trace w1)) = Some e ->
      fst (GET req env w) = Ok (serverError env e)) /\
  (forall e,
      detailsOf env e
      = if optEqb (NODE_ENV env) (js "development")
        then Some (messageOf e) else None) /\
  (forall e, NODE_ENV env = Some (js "production") -> detailsOf env e = None).
Proof.
  intros V. repeat split.
  - intros e w1 C. rewrite (GET_valid req env w eq_refl V), C. reflexivity.
  - intros h w1 e C SF. rewrite (GET_valid req env w eq_refl V), C, SF. reflexivity.
  - intros e P. unfold detailsOf. rewrite P. reflexivity.
Qed.

End Retrieval.


(** ** The similarity query *)

(** [event.tags ?? []] *)
Definition sourceTags (src : EventDocument) : list jsstring :=
  match tags src with Some ts => ts | None => [] end.

(** The filter of the query, for the source [src]. *)
Definition similarTo (src e : EventDocument) : bool :=
  (negb (oid_eqb (_id e) (_id src)) && tagsIn (sourceTags src) e)%bool.

Lemma getSimilar_run s env w :
  getSimilarEventsBySlug s env w
  = match connectDB env w with
    | (Throw _, w1) => (Ok [], w1)
    | (Ok _, w1) =>
        let w2 := logged w1 (FindOne s) in
        match storeFault env (length (trace w1)) with
        | Some _ => (Ok [], w2)
        | None =>
            match find (bySlug s) (events w1) with
            | None => (Ok [], w2)
            | Some src =>
                (Ok match storeFault env (length (trace w2)) with
                    | Some _ => []
                    | None => map serialize (filter (similarTo src) (events w2))
                    end,
                 logged w2 (Find (_id src) (sourceTags src)))
            end
        end
    end.
Proof.
  unfold getSimilarEventsBySlug, tryCatch, bind at 1.
  destruct (connectDB env w) as [[h|e] w1]; [|reflexivity].
  unfold bind at 1, findOne. rewrite storeOp_run.
  destruct (storeFault env (length (trace w1))); [reflexivity|].
  fold (bySlug s). destruct (find (bySlug s) (events w1)) as [src|];
    [|reflexivity].
  unfold bind, findSimilar. rewrite storeOp_run.
  fold (sourceTags src).
  destruct (storeFault env (length (trace (logged w1 (FindOne s)))));
    reflexivity.
Qed.

Lemma logged_trace_length w o : length (trace (logged w o)) = S (length (trace w)).
Proof. unfold logged. cbn [trace]. rewrite length_app. cbn. lia. Qed.

Lemma oid_eqb_eq a b : oid_eqb a b = true <-> a = b.
Proof.
  unfold oid_eqb. rewrite jsstring_eqb_eq. destruct a, b; cbn.
  split; congruence.
Qed.

Lemma similarTo_spec src e :
  similarTo src e = true <->
  _id e <> _id src /\
  exists ts t, tags e = Some ts /\ In t ts /\ In t (sourceTags src).
Proof.
  unfold similarTo, tagsIn. rewrite andb_true_iff, negb_true_iff. split.
  - intros [Hid Ht]. split.
    + intros E. apply oid_eqb_eq in E. congruence.
    + destruct (tags e) as [ts|]; [|discriminate].
      apply existsb_exists in Ht. destruct Ht as (t & In1 & Hx).
      apply existsb_exists in Hx. destruct Hx as (t' & In2 & E).
      apply jsstring_eqb_eq in E. subst t'. eauto.
  - intros [Hid (ts & t & Et & In1 & In2)]. split.
    + destruct (oid_eqb (_id e) (_id src)) eqn:E; [|reflexivity].
      apply oid_eqb_eq in E. contradiction.
    + rewrite Et. apply existsb_exists. exists t. split; [exact In1|].
      apply existsb_exists. exists t. split; [exact In2|].
      now apply jsstring_eqb_eq.
Qed.

Lemma filter_none A (p : A -> bool) l :
  (forall x, p x = false) -> filter p l = [].
Proof.
  intros H. induction l as [|x t IH]; [reflexivity|]. cbn. now rewrite H.
Qed.

(** C4: the similarity query never throws.  Whatever the process and its
    environment, the call returns a list; the list is empty when the
    connection fails, when the lookup of the source faults or finds
    nothing, and when the query for the similar events faults. *)
Theorem getSimilar_never_raises s env w :
  (exists l, fst (getSimilarEventsBySlug s env w) = Ok l) /\
  (forall e w1,
      connectDB env w = (Throw e, w1) ->
      fst (getSimilarEventsBySlug s env w) = Ok []) /\
  (forall h w1 e,
      connectDB env w = (Ok h, w1) ->
      storeFault env (length (trace w1)) = Some e ->
      fst (getSimilarEventsBySlug s env w) = Ok []) /\
  (forall h w1,
      connectDB env w = (Ok h, w1) ->
      storeFault env (length (trace w1)) = None ->
      find (bySlug s) (events w) = None ->
      fst (getSimilarEventsBySlug s env w) = Ok []) /\
  (forall h w1 src e,
      connectDB env w = (Ok h, w1) ->
      storeFault env (length (trace w1)) = None ->
      find (bySlug s) (events w) = Some src ->
      storeFault env (S (length (trace w1))) = Some e ->
      fst (getSimilarEventsBySlug s env w) = Ok []).
Proof.
  pose proof (connectDB_events env w) as Ev.
  rewrite getSimilar_run.
  destruct (connectDB env w) as [[h|e] w1]; cbn [snd] in Ev; cbn zeta.
  2:{ split; [eexists; reflexivity|]. repeat split; intros; reflexivity. }
  change (events (logged w1 (FindOne s))) with (events w1).
  rewrite logged_trace_length, Ev.
  split.
  - destruct (storeFault env (length (trace w1))); [eexists; reflexivity|].
    destruct (find (bySlug s) (events w)); eexists; reflexivity.
  - repeat split.
    + intros; discriminate.
    + intros h' w' e [= <- <-] ->. reflexivity.
    + intros h' w' [= <- <-] -> ->. reflexivity.
    + intros h' w' src e [= <- <-] -> -> ->. reflexivity.
Qed.

(** C5: when the source event is found, the result is, in serialized
    form, exactly the stored events other than the source that have a tag
    among the source's tags; with no tag on the source it is empty. *)
Theorem getSimilar_result s env w h w1 src :
  connectDB env w = (Ok h, w1) ->
  storeFault env (length (trace w1)) = None ->
  storeFault env (S (length (trace w1))) = None ->
  find (bySlug s) (events w) = Some src ->
  fst (getSimilarEventsBySlug s env w)
  = Ok (map serialize (filter (similarTo src) (events w))) /\
  (forall e,
      similarTo src e = true <->
      _id e <> _id src /\
      exists ts t, tags e = Some ts /\ In t ts /\ In t (sourceTags src)) /\
  (tags src = None \/ tags src = Some [] ->
   fst (getSimilarEventsBySlug s env w) = Ok []).
Proof.
  intros C F1 F2 Fd.
  pose proof (connectDB_events env w) as Ev. rewrite C in Ev. cbn [snd] in Ev.
  assert (R : fst (getSimilarEventsBySlug s env w)
              = Ok (map serialize (filter (similarTo src) (events w)))).
  { rewrite getSimilar_run, C. cbn zeta.
    change (events (logged w1 (FindOne s))) with (events w1).
    rewrite logged_trace_length, F1, Ev, Fd, F2. reflexivity. }
  split; [exact R|]. split; [intros e; apply similarTo_spec|].
  intros T. rewrite R. rewrite filter_none; [reflexivity|].
  intros e. destruct (similarTo src e) eqn:E; [|reflexivity].
  apply similarTo_spec in E. destruct E as (_ & ts & t & _ & _ & I).
  unfold sourceTags in I. destruct T as [T | T]; rewrite T in I; destruct I.
Qed.


(** ** The booking validator *)

Section Booking.
Context {U : Unicode}.

(** The document with its email replaced by the normalized one. *)
Definition normalized (doc : BookingDocument) (raw : jsstring)
  : BookingDocument :=
  MkBooking (eventId doc) (Some (toLowerCase (trim raw)))
            (isNew doc) (eventIdModified doc).

Lemma preSave_run doc env w :
  preSave doc env w
  = match email doc with
    | None => (Ok (Reject emailRequired), w)
    | Some raw =>
        if Nat.eqb (length (trim raw)) 0 then (Ok (Reject emailRequired), w)
        else if negb (test EMAIL_REGEX (toLowerCase (trim raw)))
             then (Ok (Reject emailInvalid), w)
             else if (isNew doc || eventIdModified doc)%bool
                  then match eventId doc with
                       | None => (Ok (Reject eventIdRequired), w)
                       | Some id =>
                           (Ok match storeFault env (length (trace w)) with
                               | Some (JsError m) => Reject (JsError m)
                               | Some Thrown => Reject eventCheckFailed
                               | None =>
                                   if existsb (fun e => oid_eqb (_id e) id)
                                              (events w)
                                   then Proceed (normalized doc raw)
                                   else Reject eventMissing
                               end,
                            logged w (Exists id))
                       end
                  else (Ok (Proceed (normalized doc raw)), w)
    end.
Proof.
  unfold preSave. destruct (email doc) as [raw|]; [|reflexivity].
  destruct (Nat.eqb (length (trim raw)) 0); [reflexivity|].
  destruct (negb (test EMAIL_REGEX (toLowerCase (trim raw)))); [reflexivity|].
  cbn [isNew eventIdModified eventId].
  destruct (isNew doc || eventIdModified doc)%bool; [|reflexivity].
  unfold normalized.
  destruct (eventId doc) as [id|]; [|reflexivity].
  unfold tryCatch, bind, existsById. rewrite storeOp_run.
  destruct (storeFault env (length (trace w))) as [[m|]|]; try reflexivity.
  destruct (existsb _ (events w)); reflexivity.
Qed.

(** C8: the hook trims and lowercases the email of the record being
    saved (["  USER@Example.com "] becomes ["user@example.com"]) and lets the
    write proceed only with that email; it rejects the write when the
    normalized email is empty or does not match the local@domain pattern;
    and for a new booking, or one whose event reference changed, it rejects
    the write with the referential error when no stored event has the
    referenced id. *)
Theorem preSave_contract doc env w :
  (forall raw doc',
      email doc = Some raw ->
      fst (preSave doc env w) = Ok (Proceed doc') ->
      doc' = normalized doc raw /\
      test EMAIL_REGEX (toLowerCase (trim raw)) = true) /\
  (toLowerCase (trim (js "  USER@Example.com ")) = js "user@example.com") /\
  (forall raw,
      email doc = Some raw ->
      toLowerCase (trim raw) = [] \/
      test EMAIL_REGEX (toLowerCase (trim raw)) = false ->
      exists err, preSave doc env w = (Ok (Reject err), w)) /\
  (forall raw id,
      email doc = Some raw ->
      test EMAIL_REGEX (toLowerCase (trim raw)) = true ->
      (isNew doc || eventIdModified doc)%bool = true ->
      eventId doc = Some id ->
      storeFault env (length (trace w)) = None ->
      (existsb (fun e => oid_eqb (_id e) id) (events w) = false ->
       fst (preSave doc env w) = Ok (Reject eventMissing)) /\
      (existsb (fun e => oid_eqb (_id e) id) (events w) = true ->
       fst (preSave doc env w) = Ok (Proceed (normalized doc raw)))).
Proof.
  rewrite preSave_run. split; [|split; [reflexivity|split]].
  - intros raw doc' -> H.
    destruct (Nat.eqb (length (trim raw)) 0); [discriminate|].
    destruct (test EMAIL_REGEX (toLowerCase (trim raw))); [|discriminate].
    split; [|reflexivity]. cbn [negb] in H.
    destruct (isNew doc || eventIdModified doc)%bool.
    + destruct (eventId doc) as [id|]; [|discriminate]. cbn [fst] in H.
      destruct (storeFault env (length (trace w))) as [[m|]|];
        try discriminate.
      destruct (existsb _ (events w)); [|discriminate].
      now injection H as <-.
    + now injection H as <-.
  - intros raw -> H.
    destruct (Nat.eqb (length (trim raw)) 0) eqn:L; [eauto|].
    assert (T : test EMAIL_REGEX (toLowerCase (trim raw)) = false).
    { destruct H as [-> | H]; [reflexivity | exact H]. }
    rewrite T. cbn [negb]. eauto.
  - intros raw id -> T N -> SF.
    assert (L : Nat.eqb (length (trim raw)) 0 = false).
    { destruct (trim raw) eqn:E; [|reflexivity].
      unfold toLowerCase in T. cbn in T. discriminate. }
    rewrite L, T, N, SF. cbn [negb fst]. split; intros ->; reflexivity.
Qed.

End Booking.

End HandlerFacts.
Export HandlerFacts.

(* ================================================================== *)
(** * Facts: callers that overlap on the connection manager *)
(* ================================================================== *)

Module ConnectionFacts.
Local Open Scope monad_scope.

(** [n] callers that reach the [await] of [connectDB] one after the other,
    before the connection settles. *)
Fixpoint enterTimes (n : nat) (env : Env) (w : World)
  : list (result (Handle + Promise)) * World :=
  match n with
  | O => ([], w)
  | S n' =>
      let (r, w1) := connectDB_enter env w in
      let (rs, w2) := enterTimes n' env w1 in
      (r :: rs, w2)
  end.

(** The same callers resuming, each with the outcome of the promise. *)
Fixpoint resumeTimes (n : nat) (outcome : result Handle) (env : Env) (w : World)
  : list (result Handle) * World :=
  match n with
  | O => ([], w)
  | S n' =>
      let (r, w1) := connectDB_resume outcome env w in
      let (rs, w2) := resumeTimes n' outcome env w1 in
      (r :: rs, w2)
  end.

Lemma enter_pending env w p :
  conn (cached w) = None -> promise (cached w) = Some p ->
  connectDB_enter env w = (Ok (inr p), logged w Acquire).
Proof.
  intros C P. unfold connectDB_enter, bind, log, get, put, ret.
  cbn. rewrite C, P. reflexivity.
Qed.

Lemma enterTimes_pending env p : forall n w,
  conn (cached w) = None -> promise (cached w) = Some p ->
  enterTimes n env w
  = (repeat (Ok (inr p)) n,
     MkWorld (cached w) (connects w) (events w) (trace w ++ repeat Acquire n)).
Proof.
  induction n as [|n IH]; intros w C P; cbn [enterTimes repeat].
  - rewrite app_nil_r. now destruct w.
  - rewrite (enter_pending env w C P). rewrite IH by assumption.
    cbn. rewrite <- app_assoc. reflexivity.
Qed.

Lemma enter_cold env w :
  conn (cached w) = None -> promise (cached w) = None ->
  uriMissing (MONGODB_URI env) = false ->
  connectDB_enter env w
  = (Ok (inr (connects w)),
     attempted w (MkCache None (Some (connects w)))).
Proof.
  intros C P Uri.
  unfold connectDB_enter, mongooseConnect, setPromise, setCache, bind, log,
    get, put, ret, ask, attempted.
  cbn. rewrite C, P, Uri. cbn. rewrite C, <- app_assoc. reflexivity.
Qed.

Lemma resumeTimes_ok env h : forall n w,
  resumeTimes n (Ok h) env w
  = (repeat (Ok h) n,
     match n with
     | O => w
     | S _ => MkWorld (MkCache (Some h) (promise (cached w))) (connects w)
                      (events w) (trace w)
     end).
Proof.
  induction n as [|n IH]; intros w; cbn [resumeTimes repeat]; [reflexivity|].
  unfold connectDB_resume, setConn, setCache, bind, get, put, ret. cbn.
  rewrite IH. destruct n; reflexivity.
Qed.

Lemma resumeTimes_throw env e : forall n w,
  resumeTimes n (Throw e) env w
  = (repeat (Throw e) n,
     match n with
     | O => w
     | S _ => MkWorld (MkCache (conn (cached w)) None) (connects w)
                      (events w) (trace w)
     end).
Proof.
  induction n as [|n IH]; intros w; cbn [resumeTimes repeat]; [reflexivity|].
  unfold connectDB_resume, setPromise, setCache, bind, get, put, throw. cbn.
  rewrite IH. destruct n; reflexivity.
Qed.

(** X1: single flight.  However many callers find the cache cold before
    the connection settles, one [mongoose.connect] is issued and all of them
    wait for its promise; when it resolves they all get its handle and the
    handle is cached, when it rejects they all get its error and the cached
    promise is cleared, the connection staying unset. *)
Theorem connectDB_single_flight env w n :
  conn (cached w) = None -> promise (cached w) = None ->
  uriMissing (MONGODB_URI env) = false ->
  let p := connects w in
  let w1 := MkWorld (MkCache None (Some p)) (S p) (events w)
                    (trace w ++ [Acquire; Connect] ++ repeat Acquire n) in
  enterTimes (S n) env w = (repeat (Ok (inr p)) (S n), w1) /\
  (forall h,
      resumeTimes (S n) (Ok h) env w1
      = (repeat (Ok h) (S n),
         MkWorld (MkCache (Some h) (Some p)) (S p) (events w) (trace w1))) /\
  (forall e,
      resumeTimes (S n) (Throw e) env w1
      = (repeat (Throw e) (S n),
         MkWorld (MkCache None None) (S p) (events w) (trace w1))).
Proof.
  intros C P Uri p w1. split; [|split].
  - cbn [enterTimes]. rewrite (enter_cold env w C P Uri).
    rewrite (@enterTimes_pending env (connects w)) by reflexivity.
    unfold w1, p, attempted. cbn. rewrite <- app_assoc. reflexivity.
  - intros h. rewrite resumeTimes_ok. reflexivity.
  - intros e. rewrite resumeTimes_throw. reflexivity.
Qed.

(** X2: without a connection string nothing is attempted.  With
    MONGODB_URI undefined or empty and a cold cache, every call throws the
    configuration error, no [mongoose.connect] is issued and the cache stays
    as it was, call after call. *)
Theorem connectDB_without_uri env w n :
  uriMissing (MONGODB_URI env) = true ->
  conn (cached w) = None -> promise (cached w) = None ->
  acquireTimes n env w
  = (repeat (Throw missingUri) n,
     MkWorld (cached w) (connects w) (events w) (trace w ++ repeat Acquire n)).
Proof.
  intros Uri. revert w. induction n as [|n IH]; intros w C P;
    cbn [acquireTimes repeat].
  - rewrite app_nil_r. now destruct w.
  - rewrite (connectDB_noUri env w C P Uri). rewrite IH by assumption.
    cbn. rewrite <- app_assoc. reflexivity.
Qed.

End ConnectionFacts.
Export ConnectionFacts.

(* ================================================================== *)
(** * Facts: what the handlers answer and ask of the store *)
(* ================================================================== *)

Module RetrievalFacts.
Local Open Scope monad_scope.

Section Retrieval.
Context {U : Unicode}.

Lemma validateSlug_bad raw st code message :
  validateSlug raw = SlugBad st code message ->
  st = 400%N /\ (code = MISSING_SLUG \/ code = INVALID_SLUG_FORMAT).
Proof.
  rewrite validateSlug_cases.
  destruct (falsy raw); [intros [= <- <- _]; auto|].
  destruct (falsy (Some _)); [intros [= <- <- _]; auto|].
  destruct (test slugPattern _); [discriminate|]. intros [= <- <- _]; auto.
Qed.

(** X3: the handler always answers.  Whatever the request, the process
    and its environment, [GET] returns a response and never throws, and the
    status goes with the body: 200 with a success body, 400 with
    MISSING_SLUG or INVALID_SLUG_FORMAT, 404 with EVENT_NOT_FOUND, 500 with
    INTERNAL_SERVER_ERROR; only a 500 body can carry [details]. *)
Theorem GET_always_answers req env w :
  exists r w',
    GET req env w = (Ok r, w') /\
    ((status r = 200%N /\ exists m ev, body r = SuccessResponse m ev) \/
     (status r = 400%N /\
      exists m code, body r = ErrorResponse m code None /\
                     (code = MISSING_SLUG \/ code = INVALID_SLUG_FORMAT)) \/
     (status r = 404%N /\
      exists m, body r = ErrorResponse m EVENT_NOT_FOUND None) \/
     (status r = 500%N /\
      exists m d, body r = ErrorResponse m INTERNAL_SERVER_ERROR d)).
Proof.
  destruct (validateSlug (rawSlugOf req)) as [s | st code m] eqn:V.
  - rewrite (GET_valid req env w eq_refl V).
    destruct (connectDB env w) as [[h|e] w1].
    + do 2 eexists. split; [reflexivity|].
      destruct (storeFault env (length (trace w1))).
      * right. right. right. cbn. eauto.
      * destruct (find (bySlug s) (events w1)).
        -- left. cbn. eauto.
        -- right. right. left. cbn. eauto.
    + do 2 eexists. split; [reflexivity|]. right. right. right. cbn. eauto.
  - rewrite (GET_invalid req env w eq_refl V).
    destruct (validateSlug_bad _ V) as [-> C].
    do 2 eexists. split; [reflexivity|]. right. left. cbn. eauto.
Qed.

(** X4: what a 200 answer carries.  The event in a success body is a
    stored event, the first one in the collection whose slug is the raw
    slug trimmed and lowercased, and that slug is a non-empty string over
    [a-z0-9-]. *)
Theorem GET_success_event req env w st m ev :
  fst (GET req env w) = Ok (MkResponse st (SuccessResponse m ev)) ->
  exists raw,
    rawSlugOf req = Some raw /\
    find (bySlug (toLowerCase (trim raw))) (events w) = Some ev /\
    In ev (events w) /\
    slug ev = toLowerCase (trim raw) /\
    slug ev <> [] /\ forallb isSlugChar (slug ev) = true.
Proof.
  intros H.
  destruct (validateSlug (rawSlugOf req)) as [s | st' code m'] eqn:V.
  2:{ rewrite (GET_invalid req env w eq_refl V) in H. discriminate. }
  rewrite (GET_valid req env w eq_refl V) in H.
  pose proof (connectDB_events env w) as Ev.
  destruct (connectDB env w) as [[h|e] w1]; cbn [fst snd] in *;
    [|discriminate].
  destruct (storeFault env (length (trace w1))); [discriminate|].
  rewrite Ev in H.
  destruct (find (bySlug s) (events w)) as [ev'|] eqn:F; [|discriminate].
  injection H as _ _ <-.
  rewrite validateSlug_cases in V.
  destruct (rawSlugOf req) as [raw|] eqn:R; [|discriminate].
  cbn [interp] in V.
  destruct (falsy (Some raw)); [discriminate|].
  destruct (falsy (Some (toLowerCase (trim raw)))); [discriminate|].
  destruct (test slugPattern (toLowerCase (trim raw))) eqn:T; [|discriminate].
  injection V as <-.
  exists raw. split; [reflexivity|]. split; [exact F|].
  destruct (find_some _ _ F) as [I B]. split; [exact I|].
  unfold bySlug in B. apply jsstring_eqb_eq in B. split; [exact B|].
  rewrite B. rewrite test_slugPattern in T.
  destruct (toLowerCase (trim raw)); [discriminate|]. split; [discriminate|exact T].
Qed.

(** X5: what the handler asks of the store.  For a slug that passes
    validation the handler calls the connection manager once and then issues
    exactly one query, [findOne] on the normalized slug; when the connection
    fails it issues no query. *)
Theorem GET_operations req env w s :
  validateSlug (rawSlugOf req) = SlugOk s ->
  trace (snd (GET req env w))
  = trace (snd (connectDB env w))
    ++ match fst (connectDB env w) with
       | Ok _ => [FindOne s]
       | Throw _ => []
       end.
Proof.
  intros V. rewrite (GET_valid req env w eq_refl V).
  destruct (connectDB env w) as [[h|e] w1]; cbn [fst snd].
  - reflexivity.
  - now rewrite app_nil_r.
Qed.

End Retrieval.

(** ** The similarity query *)

Lemma similarTo_sym a b : similarTo a b = similarTo b a.
Proof.
  apply eq_true_iff_eq. rewrite !similarTo_spec. split.
  - intros [N (ts & t & Tb & I1 & I2)]. split; [congruence|].
    unfold sourceTags in *. destruct (tags a) as [ta|]; [|destruct I2].
    exists ta, t. rewrite Tb. auto.
  - intros [N (ts & t & Tb & I1 & I2)]. split; [congruence|].
    unfold sourceTags in *. destruct (tags b) as [tb|]; [|destruct I2].
    exists tb, t. rewrite Tb. auto.
Qed.

Lemma serialize_inj a b : serialize a = serialize b -> a = b.
Proof. intros H. now injection H. Qed.

Lemma in_serialized e l : In (serialize e) (map serialize l) <-> In e l.
Proof.
  rewrite in_map_iff. split.
  - intros (x & E & I). apply serialize_inj in E. now subst.
  - intros I. eauto.
Qed.

(** The result of a call, an empty list standing for no result. *)
Definition similarOf (s : jsstring) (env : Env) (w : World) : list SimilarEvent :=
  match fst (getSimilarEventsBySlug s env w) with
  | Ok l => l
  | Throw _ => []
  end.

Lemma getSimilar_found s env w h w1 src :
  connectDB env w = (Ok h, w1) ->
  storeFault env (length (trace w1)) = None ->
  storeFault env (S (length (trace w1))) = None ->
  find (bySlug s) (events w) = Some src ->
  fst (getSimilarEventsBySlug s env w)
  = Ok (map serialize (filter (similarTo src) (events w))).
Proof.
  intros C F1 F2 Fd.
  pose proof (connectDB_events env w) as Ev. rewrite C in Ev. cbn [snd] in Ev.
  rewrite getSimilar_run, C. cbn zeta.
  change (events (logged w1 (FindOne s))) with (events w1).
  rewrite logged_trace_length, F1, Ev, Fd, F2. reflexivity.
Qed.

(** No operation on the store faults. *)
Definition faultless (env : Env) : Prop := forall n, storeFault env n = None.

(** X6: similarity is mutual.  When the connection holds and no query
    faults, an event [b] is among the events similar to [a] exactly when [a]
    is among the events similar to [b]. *)
Theorem getSimilar_mutual env w h w1 sa sb a b :
  connectDB env w = (Ok h, w1) ->
  faultless env ->
  find (bySlug sa) (events w) = Some a ->
  find (bySlug sb) (events w) = Some b ->
  (In (serialize b) (similarOf sa env w)
   <-> In (serialize a) (similarOf sb env w)).
Proof.
  intros C F Fa Fb.
  pose proof (getSimilar_found sa env w C (F _) (F _) Fa) as Ra.
  pose proof (getSimilar_found sb env w C (F _) (F _) Fb) as Rb.
  unfold similarOf. rewrite Ra, Rb, !in_serialized, !filter_In.
  rewrite (similarTo_sym a b).
  destruct (find_some _ _ Fa) as [Ia _]. destruct (find_some _ _ Fb) as [Ib _].
  tauto.
Qed.


(** X8: what the query asks of the store.  After the call of the
    connection manager come one [findOne] on the slug as given and, only
    when it found the source without a fault, one [find] with the source's
    id and tags; a failed connection is followed by no query. *)
Theorem getSimilar_operations s env w :
  trace (snd (getSimilarEventsBySlug s env w))
  = trace (snd (connectDB env w))
    ++ match fst (connectDB env w) with
       | Throw _ => []
       | Ok _ =>
           FindOne s ::
           match storeFault env (length (trace (snd (connectDB env w)))),
                 find (bySlug s) (events w) with
           | None, Some src => [Find (_id src) (sourceTags src)]
           | _, _ => []
           end
       end.
Proof.
  rewrite getSimilar_run.
  pose proof (connectDB_events env w) as Ev.
  destruct (connectDB env w) as [[h|e] w1]; cbn [fst snd] in *.
  2:{ now rewrite app_nil_r. }
  cbn zeta. rewrite Ev.
  destruct (storeFault env (length (trace w1))); [reflexivity|].
  destruct (find (bySlug s) (events w)); [|reflexivity].
  cbn [snd logged trace]. rewrite <- app_assoc. reflexivity.
Qed.

End RetrievalFacts.
Export RetrievalFacts.

(* ================================================================== *)
(** * Facts: the language of the email pattern *)
(* ================================================================== *)

Module PatternFacts.
Local Open Scope regex_scope.

Lemma Run_StarClass_inv p st st' :
  Run (Star (Class p)) st st' ->
  exists w,
    Forall (fun c => p c = true) w /\ rest st = w ++ rest st' /\
    idx st' = idx st + length w /\ caps st' = caps st.
Proof.
  remember (Star (Class p)) as r eqn:E. intros R. revert E.
  induction R as [| | | | | | |r st|r st st1 st2 R1 _ P R2 IH|]; intros E;
    try discriminate.
  - exists []. cbn. rewrite Nat.add_0_r. auto.
  - injection E as ->. inversion R1; subst.
    destruct (IH eq_refl) as (w & F & Er & Ei & Ec).
    exists (c :: w). cbn [advance rest idx caps length app] in *.
    repeat split; auto.
    + rewrite <- Er. assumption.
    + lia.
Qed.

Lemma Run_StarClass_intro p w :
  Forall (fun c => p c = true) w ->
  forall i r c,
    Run (Star (Class p)) (MState i (w ++ r) c) (MState (i + length w) r c).
Proof.
  induction 1 as [|x w Px _ IH]; intros i r c; cbn [app length].
  - rewrite Nat.add_0_r. constructor.
  - eapply RunStarStep.
    + apply (RunClass p (MState i (x :: w ++ r) c) eq_refl Px).
    + unfold progress. cbn [advance rest length]. apply Nat.ltb_lt. lia.
    + replace (i + S (length w)) with (S i + length w) by lia. apply IH.
Qed.

(** A non-empty run of units of a class. *)
Definition wordOf (p : N -> bool) (w : jsstring) : Prop :=
  w <> [] /\ Forall (fun c => p c = true) w.

Lemma Run_PlusClass_inv p st st' :
  Run (Plus (Class p)) st st' ->
  exists w, wordOf p w /\ rest st = w ++ rest st' /\
            idx st' = idx st + length w /\ caps st' = caps st.
Proof.
  unfold Plus. intros R. inversion R as [| | | |? ? ? st1 ? R1 R2| | | | |]; subst.
  inversion R1; subst. apply Run_StarClass_inv in R2.
  destruct R2 as (w & F & Er & Ei & Ec).
  exists (c :: w). cbn [advance rest idx caps length app] in *.
  repeat split; auto; try discriminate.
  - rewrite <- Er. assumption.
  - lia.
Qed.

Lemma Run_PlusClass_intro p w :
  wordOf p w ->
  forall i r c,
    Run (Plus (Class p)) (MState i (w ++ r) c) (MState (i + length w) r c).
Proof.
  intros [N F] i r c. destruct w as [|x w]; [congruence|].
  inversion F as [|? ? Px Fw]; subst. unfold Plus. eapply RunSeq.
  - apply (RunClass p (MState i ((x :: w) ++ r) c) eq_refl Px).
  - cbn [advance idx caps length]. 
    replace (i + S (length w)) with (S i + length w) by lia.
    now apply Run_StarClass_intro.
Qed.

Lemma Run_PlusClass_end p w i c :
  wordOf p w ->
  Run (Plus (Class p)) (MState i w c) (MState (i + length w) [] c).
Proof.
  intros W. pose proof (Run_PlusClass_intro W i [] c) as R.
  now rewrite app_nil_r in R.
Qed.

Lemma Run_Lit_inv c st st' :
  Run (Lit c) st st' ->
  exists t, rest st = c :: t /\ st' = advance st t.
Proof.
  unfold Lit. intros R. inversion R; subst.
  match goal with H : N.eqb _ _ = true |- _ => apply N.eqb_eq in H; subst end.
  eauto.
Qed.

(** The strings [local@domain.tld], the three parts non-empty and free of
    white space and of [@]. *)
Definition emailShape (s : jsstring) : Prop :=
  exists loc dom tld,
    s = loc ++ [at_sign] ++ dom ++ [dot] ++ tld /\
    wordOf notSpaceAt loc /\ wordOf notSpaceAt dom /\ wordOf notSpaceAt tld.

Lemma EMAIL_REGEX_parts s : test EMAIL_REGEX s = true -> emailShape s.
Proof.
  rewrite test_Found. unfold Found, EMAIL_REGEX.
  intros (i & st' & _ & R).
  inversion R as [| | | |? ? ? st0 ? R0 R1| | | | |]; subst.
  inversion R0 as [| |? I0| | | | | | |]; subst. cbn [idx] in I0. subst i.
  cbn [skipn] in R1.
  inversion R1 as [| | | |? ? ? st1 ? Ra R2| | | | |]; subst.
  apply Run_PlusClass_inv in Ra. destruct Ra as (loc & Wl & El & _ & _).
  inversion R2 as [| | | |? ? ? st2 ? Rb R3| | | | |]; subst.
  apply Run_Lit_inv in Rb. destruct Rb as (t2 & E2 & ->).
  inversion R3 as [| | | |? ? ? st3 ? Rc R4| | | | |]; subst.
  apply Run_PlusClass_inv in Rc. destruct Rc as (dom & Wd & Ed & _ & _).
  inversion R4 as [| | | |? ? ? st4 ? Rd R5| | | | |]; subst.
  apply Run_Lit_inv in Rd. destruct Rd as (t4 & E4 & ->).
  inversion R5 as [| | | |? ? ? st5 ? Re R6| | | | |]; subst.
  apply Run_PlusClass_inv in Re. destruct Re as (tld & Wt & Et & _ & _).
  inversion R6 as [| | |? E6| | | | | |]; subst.
  exists loc, dom, tld. repeat split; try apply Wl; try apply Wd; try apply Wt.
  cbn [rest advance] in *. rewrite El, E2, Ed, E4, Et, E6, app_nil_r.
  reflexivity.
Qed.

Lemma EMAIL_REGEX_accepts s : emailShape s -> test EMAIL_REGEX s = true.
Proof.
  rewrite test_Found. unfold Found, EMAIL_REGEX.
  intros (loc & dom & tld & -> & Wl & Wd & Wt).
  exists 0. eexists. split; [lia|]. cbn [skipn].
  eapply RunSeq; [now constructor|].
  eapply RunSeq; [apply (Run_PlusClass_intro Wl)|].
  eapply RunSeq.
  { apply (RunClass (N.eqb at_sign) (MState _ (_ :: _) _) eq_refl).
    apply N.eqb_refl. }
  eapply RunSeq; [apply (Run_PlusClass_intro Wd)|].
  eapply RunSeq.
  { apply (RunClass (N.eqb dot) (MState _ (_ :: _) _) eq_refl).
    apply N.eqb_refl. }
  eapply RunSeq; [apply (Run_PlusClass_end _ _ Wt)|].
  now constructor.
Qed.

(** X9: what [EMAIL_REGEX] accepts.  A string passes the test exactly
    when it is [local@domain.tld] with the three parts non-empty and free of
    white space and of [@]; the domain part may itself contain dots. *)
Theorem EMAIL_REGEX_shape s :
  test EMAIL_REGEX s = true <->
  exists loc dom tld,
    s = loc ++ [at_sign] ++ dom ++ [dot] ++ tld /\
    wordOf notSpaceAt loc /\ wordOf notSpaceAt dom /\ wordOf notSpaceAt tld.
Proof. split; [apply EMAIL_REGEX_parts | apply EMAIL_REGEX_accepts]. Qed.

End PatternFacts.
Export PatternFacts.

(* ================================================================== *)
(** * Facts: the booking pre-save hook *)
(* ================================================================== *)

Module BookingFacts.
Local Open Scope monad_scope.

Lemma trim_nowhite s : Forall (fun c => isWhite c = false) s -> trim s = s.
Proof.
  intros F. unfold trim, trimStart, trimEnd.
  rewrite (dropWhile_noop isWhite s).
  - rewrite dropWhile_noop; [apply rev_involutive|].
    destruct (rev s) as [|c t] eqn:E; [exact I|].
    assert (In c s) by (apply in_rev; rewrite E; now left).
    rewrite Forall_forall in F. now apply F.
  - destruct s as [|c t]; [exact I|]. now inversion F.
Qed.

Lemma trim_Forall (P : N -> Prop) s : Forall P s -> Forall P (trim s).
Proof.
  rewrite !Forall_forall. intros F c I. apply F.
  unfold trim, trimEnd, trimStart in I. apply in_rev in I.
  apply dropWhile_incl in I. apply in_rev in I.
  now apply dropWhile_incl in I.
Qed.

Lemma asciiLower_idem c : asciiLower (asciiLower c) = asciiLower c.
Proof.
  unfold asciiLower, isUpperAZ, inRange.
  destruct (N.leb 65 c && N.leb c 90)%bool eqn:E.
  - destruct (N.leb 65 (c + 32) && N.leb (c + 32) 90)%bool eqn:E'; [lia|reflexivity].
  - rewrite E. reflexivity.
Qed.

Lemma asciiLower_ascii c : isAscii c = true -> isAscii (asciiLower c) = true.
Proof.
  unfold asciiLower, isUpperAZ, isAscii, inRange.
  destruct (N.leb 65 c && N.leb c 90)%bool eqn:E; lia.
Qed.

Lemma email_nowhite s :
  test EMAIL_REGEX s = true -> Forall (fun c => isWhite c = false) s.
Proof.
  intros T. apply EMAIL_REGEX_parts in T.
  destruct T as (loc & dom & tld & -> & [_ Fl] & [_ Fd] & [_ Ft]).
  assert (W : forall w, Forall (fun c => notSpaceAt c = true) w ->
                        Forall (fun c => isWhite c = false) w).
  { intros w F. eapply Forall_impl; [|exact F]. cbv beta. intros c H.
    unfold notSpaceAt in H. apply negb_true_iff, orb_false_iff in H. tauto. }
  repeat (apply Forall_app; split); auto; repeat constructor.
Qed.

Section Booking.
Context {U : Unicode}.

Lemma lowerFrom_ascii s :
  Forall (fun c => isAscii c = true) s ->
  forall before, lowerFrom before s = map asciiLower s.
Proof.
  induction 1 as [|c t Hc _ IH]; intros before; cbn [lowerFrom map];
    [reflexivity|].
  rewrite Hc, IH. reflexivity.
Qed.

Lemma toLowerCase_ascii_idem s :
  Forall (fun c => isAscii c = true) s ->
  toLowerCase (toLowerCase s) = toLowerCase s.
Proof.
  intros F. unfold toLowerCase. rewrite (lowerFrom_ascii F).
  rewrite lowerFrom_ascii.
  - rewrite map_map. apply map_ext. intros c. apply asciiLower_idem.
  - apply Forall_map. eapply Forall_impl; [|exact F].
    intros c. apply asciiLower_ascii.
Qed.

Lemma preSave_proceeds doc env w raw doc' :
  email doc = Some raw ->
  fst (preSave doc env w) = Ok (Proceed doc') ->
  doc' = normalized doc raw /\
  test EMAIL_REGEX (toLowerCase (trim raw)) = true.
Proof.
  intros E H. rewrite preSave_run, E in H.
  destruct (Nat.eqb (length (trim raw)) 0); [discriminate|].
  destruct (test EMAIL_REGEX (toLowerCase (trim raw))); [|discriminate].
  split; [|reflexivity]. cbn [negb] in H.
  destruct (isNew doc || eventIdModified doc)%bool.
  - destruct (eventId doc) as [id|]; [|discriminate]. cbn [fst] in H.
    destruct (storeFault env (length (trace w))) as [[m|]|]; try discriminate.
    destruct (existsb _ (events w)); [|discriminate].
    now injection H as <-.
  - now injection H as <-.
Qed.

(** X10: the hook always ends in [next].  It never throws: an exception
    of the existence check is caught and passed to [next].  It issues at most
    one query, [Event.exists] on the booking's own [eventId], and only for a
    new booking or a changed reference. *)
Theorem preSave_always_calls_next doc env w :
  exists n w',
    preSave doc env w = (Ok n, w') /\
    (w' = w \/
     exists id, eventId doc = Some id /\
                (isNew doc || eventIdModified doc)%bool = true /\
                w' = logged w (Exists id)).
Proof.
  rewrite preSave_run.
  destruct (email doc) as [raw|]; [|eauto].
  destruct (Nat.eqb _ 0); [eauto|]. destruct (negb _); [eauto|].
  destruct (isNew doc || eventIdModified doc)%bool; [|eauto].
  destruct (eventId doc) as [id|]; [|eauto].
  do 2 eexists. split; [reflexivity|]. right. eauto.
Qed.

(** X11: a fault of the existence check rejects the write.  For a valid
    email on a new booking or a changed reference, when [Event.exists]
    throws, the write is rejected with the thrown [Error], or with
    'Failed to validate referenced event.' when what was thrown is not an
    [Error]. *)
Theorem preSave_store_fault doc env w raw id e :
  email doc = Some raw ->
  test EMAIL_REGEX (toLowerCase (trim raw)) = true ->
  (isNew doc || eventIdModified doc)%bool = true ->
  eventId doc = Some id ->
  storeFault env (length (trace w)) = Some e ->
  preSave doc env w
  = (Ok (Reject match e with
                | JsError m => JsError m
                | Thrown => eventCheckFailed
                end),
     logged w (Exists id)).
Proof.
  intros E T N I F. rewrite preSave_run, E, T, N, I, F.
  assert (L : Nat.eqb (length (trim raw)) 0 = false).
  { destruct (trim raw); [|reflexivity]. discriminate. }
  rewrite L. destruct e; reflexivity.
Qed.

(** X12: a reference that did not change is not checked again.  For a
    booking that is not new and whose [eventId] was not modified, a valid
    email is enough: the write proceeds with the normalized email and the
    store is not consulted, whether or not the referenced event still
    exists. *)
Theorem preSave_unchanged_reference doc env w raw :
  email doc = Some raw ->
  test EMAIL_REGEX (toLowerCase (trim raw)) = true ->
  isNew doc = false -> eventIdModified doc = false ->
  preSave doc env w = (Ok (Proceed (normalized doc raw)), w).
Proof.
  intros E T N M. rewrite preSave_run, E, T, N, M.
  assert (L : Nat.eqb (length (trim raw)) 0 = false).
  { destruct (trim raw); [|reflexivity]. discriminate. }
  rewrite L. reflexivity.
Qed.

(** X13: the rejections that come before the store, in the order of the
    checks.  An email that is not a string, or is blank, is refused as
    required; then an email that fails the pattern is refused as invalid;
    only then, for a new booking or a changed reference, a missing [eventId]
    is refused.  None of them touches the store. *)
Theorem preSave_early_rejections doc env w :
  (email doc = None ->
   preSave doc env w = (Ok (Reject emailRequired), w)) /\
  (forall raw,
      email doc = Some raw -> trim raw = [] ->
      preSave doc env w = (Ok (Reject emailRequired), w)) /\
  (forall raw,
      email doc = Some raw -> trim raw <> [] ->
      test EMAIL_REGEX (toLowerCase (trim raw)) = false ->
      preSave doc env w = (Ok (Reject emailInvalid), w)) /\
  (forall raw,
      email doc = Some raw ->
      test EMAIL_REGEX (toLowerCase (trim raw)) = true ->
      (isNew doc || eventIdModified doc)%bool = true ->
      eventId doc = None ->
      preSave doc env w = (Ok (Reject eventIdRequired), w)).
Proof.
  rewrite preSave_run. repeat split.
  - intros ->. reflexivity.
  - intros raw -> ->. reflexivity.
  - intros raw -> N ->. destruct (trim raw); [congruence|reflexivity].
  - intros raw -> T -> ->. rewrite T.
    destruct (trim raw); [discriminate|reflexivity].
Qed.

(** X14: saving again keeps the email.  When the hook let a booking with
    an ASCII email through, running it on the saved booking (no longer new,
    reference unchanged) lets it through unchanged: the normalized email is
    a fixed point of the normalization and still passes the pattern. *)
Theorem preSave_again doc env w raw doc' :
  email doc = Some raw ->
  Forall (fun c => isAscii c = true) raw ->
  fst (preSave doc env w) = Ok (Proceed doc') ->
  forall env' w',
    preSave (MkBooking (eventId doc') (email doc') false false) env' w'
    = (Ok (Proceed (MkBooking (eventId doc') (email doc') false false)), w').
Proof.
  intros E A H env' w'.
  destruct (preSave_proceeds doc env w E H) as [-> T].
  assert (Tr : trim (toLowerCase (trim raw)) = toLowerCase (trim raw))
    by apply (trim_nowhite (email_nowhite _ T)).
  assert (Lw : toLowerCase (toLowerCase (trim raw)) = toLowerCase (trim raw))
    by (apply toLowerCase_ascii_idem; now apply trim_Forall).
  assert (L : Nat.eqb (length (toLowerCase (trim raw))) 0 = false).
  { destruct (toLowerCase (trim raw)); [discriminate|reflexivity]. }
  rewrite preSave_run. unfold normalized.
  cbn [email isNew eventIdModified eventId orb].
  rewrite Tr, Lw, T, L. reflexivity.
Qed.

End Booking.
End BookingFacts.
Export BookingFacts.

(* ================================================================== *)
(** * Facts: the 12-hour rule of [normalizeTime] *)
(* ================================================================== *)

Module TimeRules.
Local Open Scope regex_scope.

(** The text of the optional minutes: [":MM"] or nothing. *)
Definition minuteText (mm : option jsstring) : jsstring :=
  match mm with Some m => colon :: m | None => [] end.

(** The minutes of the result: those given, or ["00"]. *)
Definition minuteOr00 (mm : option jsstring) : jsstring :=
  match mm with Some m => m | None => js "00" end.

(** [t] is in 12-hour form: one or two hour digits, optional minutes,
    white space, then [am] or [pm]. *)
Definition twelveHourForm (t h : jsstring) (mm : option jsstring)
           (w p : jsstring) : Prop :=
  t = h ++ minuteText mm ++ w ++ p /\
  hourDigits h /\ minuteDigits mm /\
  Forall (fun c => isWhite c = true) w /\
  (p = js "am" \/ p = js "pm").

(** The hour of the day for the hour [n] of the period [p]. *)
Definition to24 (n : N) (p : jsstring) : N :=
  if jsstring_eqb p (js "pm")
  then if N.eqb n 12 then 12 else n + 12
  else if N.eqb n 12 then 0 else n.

Lemma star_class_skip p w :
  Forall (fun c => p c = true) w ->
  forall i r c k res,
    match r with x :: _ => p x = false | [] => True end ->
    k (MState (i + length w) r c) = Some res ->
    matchRe (Star (Class p)) (MState i (w ++ r) c) k = Some res.
Proof.
  induction 1 as [|x w Px _ IH]; intros i r c k res Hr K;
    rewrite matchRe_StarClass; cbn [rest app length] in *.
  - rewrite Nat.add_0_r in K. destruct r as [|y r]; [exact K|].
    rewrite Hr. exact K.
  - rewrite Px. unfold advance. cbn [idx caps].
    rewrite (IH (S i) r c k res Hr); [reflexivity|].
    replace (S i + length w) with (i + S (length w)) by lia. exact K.
Qed.

Lemma period_tail w p i c :
  Forall (fun x => isWhite x = true) w ->
  p = js "am" \/ p = js "pm" ->
  matchRe (Star (Class isWhite) ;; Group 3 (Alt (Str (js "am")) (Str (js "pm")))
           ;; Eol) (MState i (w ++ p) c) Some
  = Some (MState (i + length w + 2) [] ((3, p) :: c)).
Proof.
  intros W P. rewrite matchRe_Seq.
  apply star_class_skip; [exact W| |].
  - destruct P as [-> | ->]; reflexivity.
  - destruct P as [-> | ->]; cbn; unfold record, advance; cbn [idx rest caps];
      replace (S (S (i + length w)) - (i + length w)) with 2 by lia;
      replace (i + length w + 2) with (S (S (i + length w))) by lia;
      reflexivity.
Qed.

Lemma after_space_head w p :
  Forall (fun x => isWhite x = true) w ->
  p = js "am" \/ p = js "pm" ->
  exists x t, w ++ p = x :: t /\ isDigit x = false /\ N.eqb colon x = false.
Proof.
  intros W P. destruct W as [|x w Wx _].
  - destruct P as [-> | ->]; cbn; do 2 eexists; repeat split.
  - exists x, (w ++ p). split; [reflexivity|].
    unfold isWhite, isDigit, inRange, colon in *. lia.
Qed.

Definition groups12 (h : jsstring) (mm : option jsstring) (p : jsstring)
  : captures :=
  (3, p) :: match mm with Some m => [(2, m)] | None => [] end ++ [(1, h)].

Lemma matchAt12 t h mm w p :
  twelveHourForm t h mm w p ->
  exists i, matchAt twelveHour 0 t = Some (MState i [] (groups12 h mm p)).
Proof.
  intros (-> & (d1 & D1 & Hh) & Hm & W & P).
  destruct (after_space_head W P) as (x & tl & Ex & Xd & Xc).
  unfold matchAt, twelveHour, Opt, Lit, groups12.
  remember (Star (Class isWhite)
            ;; Group 3 (Alt (Str (js "am")) (Str (js "pm"))) ;; Eol)
    as tailRe eqn:Et.
  assert (Tail : forall i c,
             matchRe tailRe (MState i (w ++ p) c) Some
             = Some (MState (i + length w + 2) [] ((3, p) :: c)))
    by (intros; subst tailRe; now apply period_tail).
  clear Et.
  destruct Hh as [-> | (d2 & D2 & ->)];
    destruct Hm as [-> | (m1 & m2 & -> & M1 & M2)];
    cbn [minuteText app]; eexists;
    cbn [matchRe rest idx caps advance record orElse Nat.eqb firstn Nat.sub];
    rewrite ?D1, ?D2;
    cbn [matchRe rest idx caps advance record orElse Nat.eqb firstn Nat.sub].
  - rewrite Ex, Xd. cbn [orElse]. rewrite Xc. cbn [orElse]. rewrite <- Ex.
    apply Tail.
  - replace (isDigit colon) with false by reflexivity. cbn [orElse].
    rewrite N.eqb_refl, M1, M2.
    unfold record, advance. cbn [rest idx caps firstn Nat.sub].
    rewrite Tail. reflexivity.
  - rewrite Ex, Xc. cbn [orElse]. rewrite <- Ex.
    unfold record, advance. cbn [rest idx caps firstn Nat.sub].
    rewrite Tail. reflexivity.
  - rewrite N.eqb_refl, M1, M2.
    unfold record, advance. cbn [rest idx caps firstn Nat.sub].
    rewrite Tail. reflexivity.
Qed.


Lemma form_of_match t st :
  matchAt twelveHour 0 t = Some st ->
  exists h mm w p, twelveHourForm t h mm w p.
Proof.
  unfold matchAt. intros H. apply matchRe_sound in H.
  destruct H as (st' & R & _).
  unfold twelveHour, Opt in R. rewrite Str_am, Str_pm in R. unfold Lit in R.
  run_inv.
  all: repeat match goal with
       | H : Run (Star _) _ _ |- _ => apply Run_StarClass_inv in H;
                                      destruct H as (w & Ww & Wr & _ & _)
       end.
  all: run_inv.
  all: cbn [record advance rest idx caps] in *.
  all: repeat match goal with
       | H : N.eqb _ _ = true |- _ => apply N.eqb_eq in H
       end; subst.
  all: match goal with H : rest _ = _ |- _ => rewrite H end.
  all: match goal with
       | |- exists h mm w0 p,
             twelveHourForm (?a :: ?b :: colon :: ?m1 :: ?m2 :: ?ws ++ ?pd) _ _ _ _ =>
           exists [a; b], (Some [m1; m2]), ws, pd
       | |- exists h mm w0 p,
             twelveHourForm (?a :: colon :: ?m1 :: ?m2 :: ?ws ++ ?pd) _ _ _ _ =>
           exists [a], (Some [m1; m2]), ws, pd
       | |- exists h mm w0 p, twelveHourForm (?a :: ?b :: ?ws ++ ?pd) _ _ _ _ =>
           exists [a; b], None, ws, pd
       | |- exists h mm w0 p, twelveHourForm (?a :: ?ws ++ ?pd) _ _ _ _ =>
           exists [a], None, ws, pd
       end.
  all: unfold twelveHourForm, hourDigits, minuteDigits;
    repeat split; eauto 8.
Qed.


Lemma last_app_nonempty (a b : jsstring) d : b <> [] -> last (a ++ b) d = last b d.
Proof.
  intros N. induction a as [|x a IH]; [reflexivity|].
  cbn [app]. destruct (a ++ b) eqn:E; [|exact IH].
  apply app_eq_nil in E. tauto.
Qed.

Lemma form_not24 t h mm w p : twelveHourForm t h mm w p -> is24 t = false.
Proof.
  intros (-> & _ & _ & _ & P).
  destruct (is24 _) eqn:E; [|reflexivity].
  assert (L : isDigit (last (h ++ minuteText mm ++ w ++ p) 0%N) = true).
  { revert E. generalize (h ++ minuteText mm ++ w ++ p). intros s.
    destruct s as [|a [|b [|c [|d [|e [|f t]]]]]]; try discriminate.
    unfold is24. cbn [last]. intros E. apply andb_prop in E. tauto. }
  rewrite !app_assoc in L. rewrite last_app_nonempty in L.
  - destruct P as [-> | ->]; discriminate.
  - destruct P as [-> | ->]; discriminate.
Qed.

Lemma parseInt_digits h : hourDigits h -> parseInt10 h = Num (digitsValue 0 h).
Proof.
  intros (d1 & D1 & H).
  assert (W : isWhite d1 = false) by (unfold isWhite, isDigit, inRange in *; lia).
  destruct H as [-> | (d2 & D2 & ->)]; unfold parseInt10, trimStart;
    cbn [dropWhile]; rewrite W, D1; reflexivity.
Qed.

Lemma groups12_capture h mm p :
  capture 1 (groups12 h mm p) = Some h /\
  capture 2 (groups12 h mm p) = mm /\
  capture 3 (groups12 h mm p) = Some p.
Proof. unfold groups12. destruct mm; repeat split. Qed.

Section Rules.
Context {U : Unicode}.

(** X25: the 24-hour rule.  When the input, trimmed and lowercased,
    passes the strict 24-hour pattern, the call returns exactly that
    string: the two captured groups put back around the colon are the
    whole match. *)
Theorem normalizeTime_24h_rule s :
  test twentyFourHour (toLowerCase (trim s)) = true ->
  normalizeTime s = Ok (toLowerCase (trim s)).
Proof.
  unfold normalizeTime, test. rewrite exec24.
  destruct (is24 (toLowerCase (trim s))) eqn:E; [|discriminate].
  intros _. cbn [capture interp Nat.eqb]. f_equal. now apply is24_parts.
Qed.

(** X15: the 12-hour conversion rule.  When the input, trimmed and
    lowercased, is one or two hour digits, optional [:MM] minutes, optional
    white space and [am] or [pm], the call throws 'Invalid 12-hour time
    format.' for an hour outside 1..12 and otherwise returns the two-digit
    hour of the day (12am is 00, 12pm is 12, other pm hours add 12), a colon
    and the minutes, ["00"] when none were given. *)
Theorem normalizeTime_12h_rule s h mm w p :
  twelveHourForm (toLowerCase (trim s)) h mm w p ->
  normalizeTime s
  = let n := digitsValue 0 h in
    if (N.ltb n 1 || N.ltb 12 n)%bool then Throw invalid12
    else Ok (padStart 2 48 (numToString (Num (to24 n p)))
               ++ [colon] ++ minuteOr00 mm).
Proof.
  intros F. unfold normalizeTime.
  rewrite exec24, (form_not24 F).
  unfold twelveHour at 1. rewrite exec_anchored. fold twelveHour.
  destruct (matchAt12 F) as (i & ->). cbn [option_map caps].
  destruct (groups12_capture h mm p) as (-> & -> & ->). cbn [interp].
  destruct F as (_ & Hh & _ & _ & P).
  rewrite (parseInt_digits Hh). cbn zeta. cbn [numLt numEq numAdd optEqb].
  destruct (N.ltb _ 1 || N.ltb 12 _)%bool; [reflexivity|].
  unfold to24, minuteOr00.
  destruct P as [-> | ->]; unfold optEqb;
    change (jsstring_eqb (js "am") (js "pm")) with false;
    change (jsstring_eqb (js "pm") (js "am")) with false;
    change (jsstring_eqb (js "am") (js "am")) with true;
    change (jsstring_eqb (js "pm") (js "pm")) with true;
    (destruct (N.eqb_spec (digitsValue 0 h) 12) as [E|E];
     [rewrite E|]; reflexivity).
Qed.

(** X16: what is refused as a format.  The call throws 'Invalid time
    format...' exactly when the input, trimmed and lowercased, neither
    passes the strict 24-hour pattern nor is in 12-hour form. *)
Theorem normalizeTime_invalid_format_iff s :
  normalizeTime s = Throw invalidTime <->
  test twentyFourHour (toLowerCase (trim s)) = false /\
  ~ exists h mm w p, twelveHourForm (toLowerCase (trim s)) h mm w p.
Proof.
  split.
  - intros H. split.
    + unfold normalizeTime, test in *. rewrite exec24 in *.
      destruct (is24 _); [discriminate|reflexivity].
    + intros (h & mm & w & p & F). unfold normalizeTime in H.
      rewrite exec24, (form_not24 F) in H.
      unfold twelveHour at 1 in H. rewrite exec_anchored in H.
      fold twelveHour in H. destruct (matchAt12 F) as (i & M).
      rewrite M in H. cbn [option_map] in H. cbn zeta in H.
      destruct (_ || _)%bool; discriminate.
  - intros [T N]. unfold normalizeTime, test in *.
    destruct (exec twentyFourHour _); [discriminate|].
    unfold twelveHour at 1. rewrite exec_anchored. fold twelveHour.
    destruct (matchAt twelveHour 0 _) as [st|] eqn:M; [|reflexivity].
    exfalso. apply N. eapply form_of_match. exact M.
Qed.

End Rules.

End TimeRules.
Export TimeRules.

(* ================================================================== *)
(** * Facts: slugs between the model and the route *)
(* ================================================================== *)

Module SlugRules.

Lemma white_notAlnum c : isWhite c = true -> isAlnum c = false.
Proof. unfold isWhite, isAlnum, isLowerAZ, isDigit, inRange. lia. Qed.

Lemma existsb_dropWhile (p q : N -> bool) s :
  (forall c, p c = true -> q c = false) ->
  existsb q (dropWhile p s) = existsb q s.
Proof.
  intros D. induction s as [|c t IH]; [reflexivity|]. cbn [dropWhile].
  destruct (p c) eqn:E; [|reflexivity].
  cbn [existsb]. rewrite (D c E). exact IH.
Qed.

Lemma existsb_rev_eq (q : N -> bool) s : existsb q (rev s) = existsb q s.
Proof.
  induction s as [|c t IH]; [reflexivity|]. cbn [rev existsb].
  rewrite existsb_app, IH. cbn [existsb]. rewrite orb_false_r. apply orb_comm.
Qed.

Lemma existsb_trim s : existsb isAlnum (trim s) = existsb isAlnum s.
Proof.
  unfold trim, trimEnd, trimStart.
  rewrite existsb_rev_eq, (existsb_dropWhile isWhite isAlnum _ white_notAlnum).
  rewrite existsb_rev_eq.
  apply (existsb_dropWhile isWhite isAlnum _ white_notAlnum).
Qed.

Lemma existsb_collapse : forall s b,
  existsb isAlnum (collapse b s) = existsb isAlnum s.
Proof.
  induction s as [|x t IH]; intros b; [reflexivity|]. cbn [collapse].
  unfold notAlnum. destruct (isAlnum x) eqn:A; cbn [negb].
  - cbn [existsb]. rewrite A. reflexivity.
  - cbn [existsb]. rewrite A. destruct b; [apply IH|].
    cbn [existsb]. rewrite IH. reflexivity.
Qed.

Lemma sep_no_alnum : forall s b,
  sep b s = true -> existsb isAlnum s = false -> forallb isDash s = true.
Proof.
  induction s as [|x t IH]; intros b S E; [reflexivity|].
  cbn [sep existsb forallb] in *. apply orb_false_elim in E as [A E].
  rewrite A in S. apply andb_prop in S as [S1 S2].
  apply andb_prop in S1 as [S1 _]. rewrite S1. exact (IH true S2 E).
Qed.

Lemma dropTrailing_nil s : dropTrailing s = [] <-> forallb isDash s = true.
Proof.
  destruct s as [|x t]; [now split|]. cbn [dropTrailing].
  destruct (forallb isDash (x :: t)); split; congruence.
Qed.

Lemma forallb_dash_no_alnum s :
  forallb isDash s = true -> existsb isAlnum s = false.
Proof.
  induction s as [|x t IH]; [reflexivity|]. cbn [forallb existsb].
  intros H. apply andb_prop in H as [D H].
  rewrite (isDash_notAlnum _ D). exact (IH H).
Qed.

Lemma existsb_false_Forall (q : N -> bool) s :
  existsb q s = false <-> Forall (fun c => q c = false) s.
Proof.
  induction s as [|x t IH]; cbn [existsb].
  - split; auto.
  - rewrite orb_false_iff, IH. split.
    + intros [A B]. now constructor.
    + intros H. inversion H; subst. now split.
Qed.

Lemma forallb_slugChar_stable s :
  forallb isSlugChar s = true -> Forall (fun c => isStable c = true) s.
Proof.
  rewrite forallb_forall, Forall_forall. intros H c I. specialize (H c I).
  unfold isSlugChar, isStable, isLowerAZ, isDigit, dash, inRange in *. lia.
Qed.

Lemma dfa_slugChars : forall s b, dfa b s = true -> forallb isSlugChar s = true.
Proof.
  induction s as [|x t IH]; intros b D; [reflexivity|].
  cbn [dfa forallb] in *. unfold isSlugChar.
  destruct (isAlnum x) eqn:A.
  - unfold isAlnum in A. rewrite A. cbn [orb andb]. exact (IH _ D).
  - destruct (isDash x) eqn:Dx; [|discriminate].
    apply andb_prop in D as [_ D]. unfold isDash in Dx. rewrite Dx.
    rewrite orb_true_r. exact (IH _ D).
Qed.

(** The last non-empty segment of a path that ends in [/seg] and slashes. *)
Lemma split_cons sp c t :
  split sp (c :: t)
  = if N.eqb c sp then [] :: split sp t
    else match split sp t with
         | seg :: segs => (c :: seg) :: segs
         | [] => [[c]]
         end.
Proof. reflexivity. Qed.

Lemma split_nonempty sp s : split sp s <> [].
Proof.
  induction s as [|c t IH]; [discriminate|]. rewrite split_cons.
  destruct (N.eqb c sp); [discriminate|].
  destruct (split sp t); discriminate.
Qed.

Lemma split_word sp seg :
  Forall (fun c => N.eqb c sp = false) seg -> split sp seg = [seg].
Proof.
  induction 1 as [|c t Hc _ IH]; [reflexivity|].
  rewrite split_cons, Hc, IH. reflexivity.
Qed.

Lemma split_app sp a b :
  split sp (a ++ sp :: b) = split sp a ++ split sp b.
Proof.
  induction a as [|c t IH]; cbn [app].
  - rewrite split_cons, N.eqb_refl. reflexivity.
  - rewrite !split_cons. destruct (N.eqb c sp); [now rewrite IH|].
    rewrite IH. destruct (split sp t) as [|seg segs] eqn:E.
    + now apply split_nonempty in E.
    + reflexivity.
Qed.

Lemma split_slashes sp n : split sp (repeat sp n) = repeat [] (S n).
Proof.
  induction n as [|n IH]; [reflexivity|].
  cbn [repeat]. rewrite split_cons, N.eqb_refl, IH. reflexivity.
Qed.

Definition nonEmpty (seg : jsstring) : bool := negb (falsy (Some seg)).

Lemma filter_repeat_nil n : filter nonEmpty (repeat [] n) = [].
Proof. induction n; [reflexivity|exact IHn]. Qed.

Lemma last_map_app A B (f : A -> B) l x d :
  last (map f (l ++ [x])) d = f x.
Proof.
  induction l as [|y l IH]; [reflexivity|].
  cbn [app map]. cbn [last]. destruct (map f (l ++ [x])) eqn:E; [|exact IH].
  destruct l; discriminate.
Qed.

Lemma last_segment pre seg n :
  seg <> [] -> Forall (fun c => N.eqb c slash = false) seg ->
  last (map Some (filter nonEmpty
                    (split slash (pre ++ slash :: seg ++ repeat slash n))))
       None
  = Some seg.
Proof.
  intros NE F.
  assert (S : split slash (seg ++ repeat slash n) = seg :: repeat [] n).
  { destruct n as [|n].
    - cbn [repeat]. rewrite app_nil_r. now apply split_word.
    - cbn [repeat]. rewrite split_app, split_word, split_slashes by exact F.
      reflexivity. }
  rewrite split_app, S, filter_app. cbn [filter].
  replace (nonEmpty seg) with true
    by (destruct seg; [congruence|reflexivity]).
  rewrite filter_repeat_nil. apply last_map_app.
Qed.

Section Slug.
Context {U : Unicode}.

Lemma slug_nil_iff_dashes title :
  generateSlug title = [] <->
  forallb isDash (dropWhile isDash (collapse false (trim (toLowerCase title))))
  = true.
Proof. rewrite generateSlug_closed. apply dropTrailing_nil. Qed.

Lemma existsb_alnum_slug title :
  existsb isAlnum (dropWhile isDash (collapse false (trim (toLowerCase title))))
  = existsb isAlnum (toLowerCase title).
Proof.
  rewrite (existsb_dropWhile isDash isAlnum _ isDash_notAlnum).
  rewrite existsb_collapse. apply existsb_trim.
Qed.

Lemma no_alnum_slug_nil title :
  Forall (fun c => isAlnum c = false) (toLowerCase title) ->
  generateSlug title = [].
Proof.
  intros F. apply slug_nil_iff_dashes.
  apply existsb_false_Forall in F. rewrite <- existsb_alnum_slug in F.
  destruct (sep_dropDashes (collapse false (trim (toLowerCase title))) false
              (sep_collapse _ _)) as [S _].
  exact (sep_no_alnum _ _ S F).
Qed.

Lemma slug_nil_no_alnum title :
  generateSlug title = [] ->
  Forall (fun c => isAlnum c = false) (toLowerCase title).
Proof.
  intros E. apply slug_nil_iff_dashes in E.
  apply existsb_false_Forall. rewrite <- existsb_alnum_slug.
  now apply forallb_dash_no_alnum.
Qed.

(** X17: when a slug comes out empty.  [generateSlug] returns the empty
    string exactly when the lowercased title has no unit in [a-z0-9];
    a title of punctuation only is one. *)
Theorem generateSlug_empty_iff title :
  generateSlug title = [] <->
  Forall (fun c => isAlnum c = false) (toLowerCase title).
Proof. split; [apply slug_nil_no_alnum | apply no_alnum_slug_nil]. Qed.

(** X18: accepted slugs are in normal form.  A slug that [validateSlug]
    returns is accepted again and returned unchanged. *)
Theorem validateSlug_normal_form raw s :
  validateSlug raw = SlugOk s -> validateSlug (Some s) = SlugOk s.
Proof.
  rewrite !validateSlug_cases.
  destruct (falsy raw); [discriminate|].
  destruct (falsy (Some (toLowerCase (trim (interp raw))))) eqn:E;
    [discriminate|].
  destruct (test slugPattern _) eqn:T; [|discriminate].
  intros [= <-]. set (s := toLowerCase (trim (interp raw))) in *.
  assert (F : Forall (fun c => isStable c = true) s).
  { rewrite test_slugPattern in T. destruct s; [discriminate|].
    now apply forallb_slugChar_stable. }
  cbn [interp]. rewrite (normalize_stable F), E, T. reflexivity.
Qed.

(** X19: the route accepts what the model generates.  Every non-empty
    slug that [generateSlug] makes from a title passes [validateSlug]
    unchanged. *)
Theorem validateSlug_accepts_generated title :
  generateSlug title <> [] ->
  validateSlug (Some (generateSlug title)) = SlugOk (generateSlug title).
Proof.
  intros NE. destruct (generateSlug_shape title) as [E|D]; [contradiction|].
  rewrite validateSlug_cases. cbn [interp].
  rewrite (normalize_stable (dfa_stable _ _ D)).
  destruct (generateSlug title) as [|c t] eqn:G; [contradiction|].
  cbn [falsy]. rewrite test_slugPattern, (dfa_slugChars _ _ D). reflexivity.
Qed.

(** X20: the slug read off the path.  With no route parameter and no
    query (or empty ones), a path that ends in a slash, a non-empty
    segment without a slash and any number of slashes, gives that segment
    as the raw slug, unless the segment is ["events"], which leaves the raw
    slug as it was and the request answered 400 MISSING_SLUG. *)
Theorem rawSlugOf_path req pre seg n :
  falsy (match paramsSlug req with
         | Some x => Some x | None => querySlug req end) = true ->
  pathname req = pre ++ slash :: seg ++ repeat slash n ->
  seg <> [] -> Forall (fun c => N.eqb c slash = false) seg ->
  (seg <> js "events" -> rawSlugOf req = Some seg) /\
  (seg = js "events" ->
   validateSlug (rawSlugOf req)
   = SlugBad 400 MISSING_SLUG (js "Slug parameter is required.")).
Proof.
  intros Fy P NE F. unfold rawSlugOf. rewrite Fy, P.
  fold nonEmpty. rewrite (last_segment pre n NE F).
  split.
  - intros D. destruct (jsstring_eqb seg (js "events")) eqn:E; [|reflexivity].
    apply jsstring_eqb_eq in E. contradiction.
  - intros ->. cbn [negb].
    change (jsstring_eqb (js "events") (js "events")) with true. cbn [negb].
    unfold validateSlug. rewrite Fy. reflexivity.
Qed.

End Slug.

End SlugRules.
Export SlugRules.

(* ================================================================== *)
(** * The event pre-save hook: what a save keeps, changes and refuses *)
(* ================================================================== *)

Module EventSchemaFacts.
Import EventSchema.

Lemma find_first A (p : A -> bool) l x :
  find p l = Some x ->
  exists pre post, l = pre ++ x :: post /\
                   Forall (fun y => p y = false) pre /\ p x = true.
Proof.
  induction l as [|y l IH]; [discriminate|]. cbn [find].
  destruct (p y) eqn:E.
  - intros [= ->]. exists [], l. auto.
  - intros H. destruct (IH H) as (pre & post & -> & F & P).
    exists (y :: pre), post. auto.
Qed.

Lemma find_all_false A (p : A -> bool) l :
  find p l = None <-> Forall (fun y => p y = false) l.
Proof.
  induction l as [|y l IH]; cbn [find]; [split; auto|].
  destruct (p y) eqn:E; split.
  - discriminate.
  - intros H. inversion H; congruence.
  - intros H. constructor; [exact E | now apply IH].
  - intros H. inversion H; subst. now apply IH.
Qed.

(** The part of an ISO string before its first [T]. *)
Definition datePart (isoText d : jsstring) : Prop :=
  Forall (fun c => N.eqb c tee = false) d /\
  (isoText = d \/ exists rest, isoText = d ++ tee :: rest).

Lemma first_split s : exists d, first (split tee s) = VString d /\ datePart s d.
Proof.
  induction s as [|c t (d & E & F & H)].
  - exists []. repeat split; auto.
  - rewrite split_cons. destruct (N.eqb c tee) eqn:Q.
    + exists []. apply N.eqb_eq in Q. subst c. repeat split; eauto.
      right. now exists t.
    + destruct (split tee t) as [|seg segs]; [discriminate|].
      cbn [first] in *. injection E as ->. exists (c :: d).
      split; [reflexivity|]. split; [now constructor|].
      destruct H as [-> | (rest & ->)]; [now left|]. right. now exists rest.
Qed.

Lemma blank_is24 t : is24 t = true -> blank (VString t) = false.
Proof.
  intros H. cbn [blank].
  rewrite (trim_stable (is24_stable _ H)).
  destruct t; [discriminate|reflexivity].
Qed.

(** Every field but [slug], [date] and [time] *)
Definition sameElsewhere (a b : EventAttrs) : Prop :=
  title a = title b /\ description a = description b /\
  overview a = overview b /\ image a = image b /\ venue a = venue b /\
  location a = location b /\ mode a = mode b /\ audience a = audience b /\
  agenda a = agenda b /\ organizer a = organizer b /\ tags a = tags b /\
  titleModified a = titleModified b.

Lemma sameElsewhere_refl a : sameElsewhere a a.
Proof. repeat split. Qed.

Ltac each_field :=
  unfold requiredStringFields, requiredArrayFields in *;
  repeat match goal with
         | H : Forall _ (_ :: _) |- _ =>
             apply Forall_cons_iff in H; destruct H as [? H]
         end;
  cbn [snd] in *.

Section Hook.
Context {U : Unicode} {C : Calendar}.

Lemma normalizeTime_throws s e :
  normalizeTime s = Throw e -> e = invalid12 \/ e = invalidTime.
Proof.
  unfold normalizeTime.
  destruct (exec twentyFourHour _); [discriminate|].
  destruct (exec twelveHour _); [|intros [= <-]; auto].
  cbn zeta. destruct (_ || _)%bool; [intros [= <-]; auto | discriminate].
Qed.

Lemma reslug_fields doc :
  sameElsewhere doc (reslug doc) /\
  date (reslug doc) = date doc /\ time (reslug doc) = time doc /\
  slug (reslug doc)
  = if (titleModified doc || falsy (slug doc))%bool
    then Some (generateSlug (str (title doc))) else slug doc.
Proof.
  unfold reslug. destruct (titleModified doc || falsy (slug doc))%bool;
    repeat split.
Qed.

(** The hook, once both loops have passed. *)
Lemma eventPreSave_checked doc :
  Forall (fun f => blank (snd f doc) = false) requiredStringFields ->
  Forall (fun f => badArray (snd f doc) = false) requiredArrayFields ->
  eventPreSave doc
  = match newDate (str (date doc)) with
    | None => (reslug doc, Some invalidDate)
    | Some p =>
        match normalizeTime (str (time doc)) with
        | Ok t => (setTime (setDate (reslug doc) (first (split tee (iso p))))
                           (VString t), None)
        | Throw e => (setDate (reslug doc) (first (split tee (iso p))), Some e)
        end
    end.
Proof.
  intros F1 F2. unfold eventPreSave.
  apply find_all_false in F1. apply find_all_false in F2. rewrite F1, F2.
  cbn zeta. destruct (reslug_fields doc) as (_ & -> & T & _).
  destruct (newDate (str (date doc))) as [p|]; [|reflexivity].
  replace (time (setDate (reslug doc) (first (split tee (iso p)))))
    with (time doc) by (symmetry; exact T).
  destruct (normalizeTime (str (time doc))) as [t|e] eqn:N; [reflexivity|].
  destruct (normalizeTime_throws _ N) as [-> | ->]; reflexivity.
Qed.

Lemma eventPreSave_done doc doc' :
  eventPreSave doc = (doc', None) ->
  Forall (fun f => blank (snd f doc) = false) requiredStringFields /\
  Forall (fun f => badArray (snd f doc) = false) requiredArrayFields /\
  exists p t,
    newDate (str (date doc)) = Some p /\
    normalizeTime (str (time doc)) = Ok t /\
    doc' = setTime (setDate (reslug doc) (first (split tee (iso p))))
                   (VString t).
Proof.
  intros H.
  assert (F1 : Forall (fun f => blank (snd f doc) = false) requiredStringFields).
  { apply find_all_false. unfold eventPreSave in H.
    destruct (find _ requiredStringFields); [discriminate|reflexivity]. }
  assert (F2 : Forall (fun f => badArray (snd f doc) = false) requiredArrayFields).
  { apply find_all_false. unfold eventPreSave in H.
    apply find_all_false in F1. rewrite F1 in H.
    destruct (find _ requiredArrayFields); [discriminate|reflexivity]. }
  rewrite (eventPreSave_checked doc F1 F2) in H.
  destruct (newDate (str (date doc))) as [p|]; [|discriminate].
  destruct (normalizeTime (str (time doc))) as [t|e] eqn:N; [|discriminate].
  injection H as <-. split; [exact F1|]. split; [exact F2|].
  exists p, t. auto.
Qed.

(** X21: what a save that goes through has established.  When the hook
    calls [next()], the eleven string fields were non-blank strings and
    both array fields non-empty arrays of non-blank strings; [time] is now
    the canonical form of the old one and passes the strict 24-hour
    pattern; [date] is now a string, the part of the parsed date's ISO
    text before its first [T]; [slug] is the one generated from the title
    when the title was modified or the slug was missing or empty, and the
    old one otherwise; no other field has changed. *)
Theorem eventPreSave_saved doc doc' :
  eventPreSave doc = (doc', None) ->
  Forall (fun f => blank (snd f doc) = false) requiredStringFields /\
  Forall (fun f => badArray (snd f doc) = false) requiredArrayFields /\
  (exists t, time doc' = VString t /\ normalizeTime (str (time doc)) = Ok t /\
             test twentyFourHour t = true) /\
  (exists p d, newDate (str (date doc)) = Some p /\ date doc' = VString d /\
               datePart (iso p) d) /\
  slug doc' = (if (titleModified doc || falsy (slug doc))%bool
               then Some (generateSlug (str (title doc))) else slug doc) /\
  sameElsewhere doc doc'.
Proof.
  intros H.
  destruct (eventPreSave_done doc H) as (F1 & F2 & p & t & Pp & N & ->).
  destruct (reslug_fields doc) as (S & _ & _ & Sl).
  destruct (first_split (iso p)) as (d & Fd & Dp).
  split; [exact F1|]. split; [exact F2|]. split; [|split; [|split]].
  - exists t. split; [reflexivity|]. split; [exact N|].
    apply (normalizeTime_fixed _ (normalizeTime_is24 _ N)).
  - exists p, d. cbn [date setTime setDate]. auto.
  - exact Sl.
  - exact S.
Qed.

(** X22: what a refused save reports and leaves behind.  When the hook
    calls [next(err)], one of four things happened, tried in this order:
    a string field is blank, the error names the first such field of the
    list and the document is untouched; an array field is bad, likewise;
    the date cannot be parsed, and the slug has already been rewritten; or
    the time is refused by [normalizeTime] with one of its two messages,
    and slug and date have already been rewritten.  The fallback message
    'Invalid time format.' is never reported. *)
Theorem eventPreSave_refused doc doc' e :
  eventPreSave doc = (doc', Some e) ->
  (exists pre field post,
     requiredStringFields = pre ++ field :: post /\
     Forall (fun f => blank (snd f doc) = false) pre /\
     blank (snd field doc) = true /\
     e = fieldRequired (fst field) /\ doc' = doc) \/
  (Forall (fun f => blank (snd f doc) = false) requiredStringFields /\
   exists pre field post,
     requiredArrayFields = pre ++ field :: post /\
     Forall (fun f => badArray (snd f doc) = false) pre /\
     badArray (snd field doc) = true /\
     e = arrayRequired (fst field) /\ doc' = doc) \/
  (Forall (fun f => blank (snd f doc) = false) requiredStringFields /\
   Forall (fun f => badArray (snd f doc) = false) requiredArrayFields /\
   newDate (str (date doc)) = None /\
   e = invalidDate /\ doc' = reslug doc) \/
  (Forall (fun f => blank (snd f doc) = false) requiredStringFields /\
   Forall (fun f => badArray (snd f doc) = false) requiredArrayFields /\
   exists p, newDate (str (date doc)) = Some p /\
             normalizeTime (str (time doc)) = Throw e /\
             (e = invalid12 \/ e = invalidTime) /\
             doc' = setDate (reslug doc) (first (split tee (iso p)))).
Proof.
  intros H.
  destruct (find (fun f => blank (snd f doc)) requiredStringFields)
    as [field|] eqn:E1.
  { left. unfold eventPreSave in H. rewrite E1 in H. injection H as <- <-.
    destruct (find_first _ _ E1) as (pre & post & L & F & B).
    exists pre, field, post. auto. }
  right. assert (F1 := proj1 (find_all_false _ _) E1).
  destruct (find (fun f => badArray (snd f doc)) requiredArrayFields)
    as [field|] eqn:E2.
  { left. split; [exact F1|].
    unfold eventPreSave in H. rewrite E1, E2 in H. injection H as <- <-.
    destruct (find_first _ _ E2) as (pre & post & L & F & B).
    exists pre, field, post. auto. }
  right. assert (F2 := proj1 (find_all_false _ _) E2).
  rewrite (eventPreSave_checked doc F1 F2) in H.
  destruct (newDate (str (date doc))) as [p|].
  - right. destruct (normalizeTime (str (time doc))) as [t|e0] eqn:N;
      [discriminate|].
    injection H as <- <-. split; [exact F1|]. split; [exact F2|].
    exists p. split; [reflexivity|]. split; [reflexivity|].
    split; [exact (normalizeTime_throws _ N) | reflexivity].
  - left. injection H as <- <-. auto.
Qed.

(** A saved document, once mongoose has cleared what was modified. *)
Definition persisted (doc : EventAttrs) : EventAttrs :=
  MkAttrs (title doc) (slug doc) (description doc) (overview doc) (image doc)
          (venue doc) (location doc) (date doc) (time doc) (mode doc)
          (audience doc) (agenda doc) (organizer doc) (tags doc) false.

(** A date string that the calendar reads back as itself. *)
Definition readsBack (d : jsstring) : Prop :=
  blank (VString d) = false /\
  exists p, newDate d = Some p /\ first (split tee (iso p)) = VString d.

(** X23: saving again changes nothing.  A document that went through the
    hook, saved again with no modified title, goes through again and comes
    out the same, provided the date it now holds is read back by the
    calendar as itself. *)
Theorem eventPreSave_again doc doc' :
  eventPreSave doc = (doc', None) ->
  readsBack (str (date doc')) ->
  eventPreSave (persisted doc') = (persisted doc', None).
Proof.
  intros H (Bd & p' & Pd & Fd).
  destruct (eventPreSave_done doc H) as (F1 & F2 & p & t & Pp & N & ->).
  destruct (first_split (iso p)) as (d & Ed & _).
  rewrite Ed in *. cbn [date setTime setDate persisted str] in Bd, Pd, Fd.
  assert (T24 := normalizeTime_is24 _ N).
  assert (Bt := blank_is24 _ T24).
  destruct (normalizeTime_fixed _ T24) as [Nt _].
  assert (G1 : Forall (fun f => blank (snd f
                 (persisted (setTime (setDate (reslug doc) (VString d))
                                     (VString t)))) = false)
                 requiredStringFields).
  { unfold reslug. destruct (titleModified doc || falsy (slug doc))%bool;
      each_field; repeat constructor; assumption. }
  assert (G2 : Forall (fun f => badArray (snd f
                 (persisted (setTime (setDate (reslug doc) (VString d))
                                     (VString t)))) = false)
                 requiredArrayFields).
  { unfold reslug. destruct (titleModified doc || falsy (slug doc))%bool;
      each_field; repeat constructor; assumption. }
  rewrite (eventPreSave_checked _ G1 G2).
  cbn [date time persisted setTime setDate str]. rewrite Pd, Nt, Fd.
  unfold reslug at 1. cbn [titleModified slug persisted setTime setDate orb].
  destruct (reslug_fields doc) as (_ & _ & _ & Sl).
  destruct (falsy (slug (reslug doc))) eqn:Fy; [|reflexivity].
  cbn [title persisted setTime setDate setSlug].
  assert (Tt : title (reslug doc) = title doc)
    by (symmetry; apply (reslug_fields doc)).
  rewrite Tt. unfold persisted, setTime, setDate, setSlug.
  cbn [title slug description overview image venue location date time mode
       audience agenda organizer tags titleModified].
  f_equal.
  destruct (titleModified doc || falsy (slug doc))%bool eqn:Cnd.
  - f_equal; try (rewrite Sl; reflexivity).
  - apply orb_false_elim in Cnd as [_ Cnd]. rewrite Sl in Fy. congruence.
Qed.

(** X24: a saved event the route cannot serve.  When the slug is
    regenerated from a title whose lowercase form has no unit in [a-z0-9]
    (the title is not blank, or the hook would have refused it), the event
    is saved with the empty slug, which [validateSlug] answers with 400
    MISSING_SLUG. *)
Theorem eventPreSave_empty_slug doc doc' :
  eventPreSave doc = (doc', None) ->
  (titleModified doc || falsy (slug doc))%bool = true ->
  Forall (fun c => isAlnum c = false) (toLowerCase (str (title doc))) ->
  blank (title doc) = false /\
  slug doc' = Some [] /\
  validateSlug (slug doc')
  = SlugBad 400 MISSING_SLUG (js "Slug parameter is required.").
Proof.
  intros H Cnd F.
  destruct (eventPreSave_done doc H) as (F1 & _ & p & t & _ & _ & ->).
  destruct (reslug_fields doc) as (_ & _ & _ & Sl). rewrite Cnd in Sl.
  rewrite (no_alnum_slug_nil _ F) in Sl.
  cbn [slug setTime setDate]. rewrite Sl.
  split; [|split; reflexivity].
  each_field. assumption.
Qed.

End Hook.

End EventSchemaFacts.

(* ================================================================== *)
(** * The theorems at concrete requests, stores and environments *)
(* ================================================================== *)

Module Examples.
Local Open Scope string_scope.

Definition sampleEvent (id sl : string) (tg : option (list string))
  : EventDocument :=
  MkEvent (OID (js id)) (js "Dev Summit") (js sl) (js "A day of talks")
          (js "Overview") (js "/images/summit.png") (js "Hall A")
          (js "Berlin") (js "2025-11-07") (js "09:30") (js "offline")
          (js "Developers") [js "Keynote"; js "Panel"] (js "DevEvent")
          (option_map (map js) tg)
          (MkDate (js "2025-01-01T00:00:00.000Z"))
          (MkDate (js "2025-01-02T00:00:00.000Z")).

Definition myEvent : EventDocument :=
  sampleEvent "65a000000000000000000001" "my-event" (Some ["ai"; "cloud"]).
Definition cloudDay : EventDocument :=
  sampleEvent "65a000000000000000000002" "cloud-day" (Some ["cloud"; "ops"]).
Definition webConf : EventDocument :=
  sampleEvent "65a000000000000000000003" "web-conf" (Some ["web"]).
Definition untagged : EventDocument :=
  sampleEvent "65a000000000000000000004" "untagged" None.

Definition store : list EventDocument := [myEvent; cloudDay; webConf; untagged].

(** A process that has not connected yet. *)
Definition cold : World := MkWorld (MkCache None None) 0 store [].

(** The process once the first [mongoose.connect] resolved to [7]. *)
Definition warm : World :=
  MkWorld (MkCache (Some 7) (Some 0)) 1 store [Acquire; Connect].

Definition down : exn := JsError (js "connect ECONNREFUSED").

(** Every connection and every query succeeds. *)
Definition healthy : Env :=
  MkEnv (Some (js "mongodb://localhost/dev")) (Some (js "development"))
        (fun p => Ok (7 + p)) (fun _ => None).

(** The first connection attempt is refused, the later ones succeed. *)
Definition flaky : Env :=
  MkEnv (Some (js "mongodb://localhost/dev")) (Some (js "development"))
        (fun p => match p with O => Throw down | S _ => Ok 42 end)
        (fun _ => None).

(** The database is down; NODE_ENV is ["test"]. *)
Definition underTest : Env :=
  MkEnv (Some (js "mongodb://localhost/dev")) (Some (js "test"))
        (fun _ => Throw down) (fun _ => None).

(** The query that follows the lookup of the source faults. *)
Definition faultySecondQuery : Env :=
  MkEnv (Some (js "mongodb://localhost/dev")) (Some (js "production"))
        (fun p => Ok (7 + p))
        (fun n => match n with 3 => Some down | _ => None end).

Definition byParam (s : string) : Request :=
  MkRequest (Some (js s)) None (js "/api/events/x").

(** [/api/events?slug=]: the query carries an empty slug. *)
Definition emptyQuery : Request :=
  MkRequest None (Some []) (js "/api/events").

(** ** The normalizers and the patterns on a few inputs *)

Example normalizeTime_more :
  @normalizeTime asciiTables (js " 1:30 PM ") = Ok (js "13:30") /\
  @normalizeTime asciiTables (js "12:59am") = Ok (js "00:59") /\
  @normalizeTime asciiTables (js "23:59") = Ok (js "23:59") /\
  @normalizeTime asciiTables (js "25:00") = Throw invalidTime /\
  @normalizeTime asciiTables (js "0am") = Throw invalid12 /\
  @normalizeTime asciiTables (js "noon") = Throw invalidTime.
Proof. repeat split; reflexivity. Qed.

Example generateSlug_more :
  @generateSlug asciiTables (js "  Hello,  World!! 2024 ") = js "hello-world-2024" /\
  @generateSlug asciiTables (js "--React & Node.js--") = js "react-node-js" /\
  @generateSlug asciiTables (js "!!!") = [].
Proof. repeat split; reflexivity. Qed.

Example EMAIL_REGEX_more :
  test EMAIL_REGEX (js "user@example.com") = true /\
  test EMAIL_REGEX (js "a.b@c.d.e") = true /\
  test EMAIL_REGEX (js "user@example") = false /\
  test EMAIL_REGEX (js "us er@example.com") = false /\
  test EMAIL_REGEX (js "a@b@c.d") = false /\
  test EMAIL_REGEX (js "@example.com") = false /\
  test EMAIL_REGEX [] = false.
Proof. repeat split; reflexivity. Qed.

(** ** The claims at concrete inputs *)

(** C1 as stated fails on ["9:05"]: the call throws instead of returning
    ["09:05"]. *)
Lemma normalizeTime_9_05_throws :
  @normalizeTime asciiTables (js "9:05") = Throw invalidTime.
Proof. reflexivity. Qed.

(** C10 at ["1pm"]: the output ["13:00"] matches the pattern and is
    normalized to itself. *)
Lemma normalizeTime_output_canonical_witness :
  @normalizeTime asciiTables (js "1pm") = Ok (js "13:00") /\
  test twentyFourHour (js "13:00") = true /\
  @normalizeTime asciiTables (js "13:00") = Ok (js "13:00").
Proof.
  split; [reflexivity|].
  apply (@normalizeTime_output_canonical asciiTables (js "1pm")).
  reflexivity.
Defined.

(** C2 as stated fails on the empty string: it is a slug that is empty
    once trimmed and lowercased, and the answer is MISSING_SLUG. *)
Lemma GET_empty_slug_is_missing :
  @rawSlugOf emptyQuery = Some [] /\
  @toLowerCase asciiTables (trim []) = [] /\
  fst (@GET asciiTables emptyQuery healthy cold)
  = Ok (badRequest MISSING_SLUG (js "Slug parameter is required.")).
Proof. repeat split; reflexivity. Qed.

(** C2 (amended) at five requests against [store]. *)
Lemma GET_slug_outcomes_witness :
  fst (@GET asciiTables (byParam "my-event") healthy cold) = Ok (fetched myEvent) /\
  fst (@GET asciiTables (byParam "no-such-event") healthy cold) = Ok notFound /\
  (exists message,
      fst (@GET asciiTables (byParam "My Event!") healthy cold)
      = Ok (badRequest INVALID_SLUG_FORMAT message)) /\
  (exists message,
      fst (@GET asciiTables (byParam "   ") healthy cold)
      = Ok (badRequest INVALID_SLUG_FORMAT message)) /\
  fst (@GET asciiTables emptyQuery healthy cold)
  = Ok (badRequest MISSING_SLUG (js "Slug parameter is required.")).
Proof.
  split; [|split; [|split; [|split]]].
  - destruct (@GET_slug_outcomes asciiTables (byParam "my-event") healthy cold)
      as (_ & _ & _ & H).
    destruct (H (js "my-event") 7 warm eq_refl ltac:(discriminate)
                eq_refl eq_refl eq_refl) as [_ F].
    exact (F myEvent eq_refl).
  - destruct (@GET_slug_outcomes asciiTables (byParam "no-such-event") healthy cold)
      as (_ & _ & _ & H).
    destruct (H (js "no-such-event") 7 warm eq_refl ltac:(discriminate)
                eq_refl eq_refl eq_refl) as [F _].
    exact (F eq_refl).
  - destruct (@GET_slug_outcomes asciiTables (byParam "My Event!") healthy cold)
      as (_ & _ & H & _).
    exact (H eq_refl).
  - destruct (@GET_slug_outcomes asciiTables (byParam "   ") healthy cold)
      as (_ & H & _ & _).
    exact (H (js "   ") eq_refl ltac:(discriminate) (or_introl eq_refl)).
  - destruct (@GET_slug_outcomes asciiTables emptyQuery healthy cold)
      as (H & _ & _ & _).
    exact (H eq_refl).
Defined.

(** C4 with the database down, with an unknown slug, and with a fault of
    the second query. *)
Lemma getSimilar_never_raises_witness :
  fst (getSimilarEventsBySlug (js "my-event") underTest cold) = Ok [] /\
  fst (getSimilarEventsBySlug (js "no-such-event") healthy cold) = Ok [] /\
  fst (getSimilarEventsBySlug (js "my-event") faultySecondQuery cold) = Ok [].
Proof.
  split; [|split].
  - destruct (getSimilar_never_raises (js "my-event") underTest cold)
      as (_ & H & _).
    exact (H down (attempted cold (MkCache None None)) eq_refl).
  - destruct (getSimilar_never_raises (js "no-such-event") healthy cold)
      as (_ & _ & _ & H & _).
    exact (H 7 warm eq_refl eq_refl eq_refl).
  - destruct (getSimilar_never_raises (js "my-event") faultySecondQuery cold)
      as (_ & _ & _ & _ & H).
    exact (H 7 warm myEvent down eq_refl eq_refl eq_refl eq_refl).
Defined.

(** C5 at the event tagged [ai], [cloud] (only [cloudDay] shares a tag)
    and at the event stored without tags. *)
Lemma getSimilar_result_witness :
  fst (getSimilarEventsBySlug (js "my-event") healthy cold)
  = Ok [serialize cloudDay] /\
  fst (getSimilarEventsBySlug (js "untagged") healthy cold) = Ok [].
Proof.
  split.
  - exact (proj1 (@getSimilar_result (js "my-event") healthy cold 7 warm myEvent
                    eq_refl eq_refl eq_refl eq_refl)).
  - destruct (@getSimilar_result (js "untagged") healthy cold 7 warm untagged
                eq_refl eq_refl eq_refl eq_refl) as (_ & _ & H).
    exact (H (or_introl eq_refl)).
Defined.

(** C6: a refused first attempt, the retry that succeeds, and two calls
    served from the cache. *)
Lemma connectDB_cache_machine_witness :
  connectDB flaky cold = (Throw down, attempted cold (MkCache None None)) /\
  connectDB flaky (attempted cold (MkCache None None))
  = (Ok 42, attempted (attempted cold (MkCache None None))
                      (MkCache (Some 42) (Some 1))) /\
  acquireTimes 2 healthy warm
  = ([Ok 7; Ok 7],
     MkWorld (cached warm) 1 store (trace warm ++ [Acquire; Acquire])).
Proof.
  destruct (connectDB_cache_machine flaky cold) as (_ & _ & H).
  destruct (H down eq_refl eq_refl eq_refl eq_refl) as [F R].
  split; [exact F|]. split; [exact R|].
  destruct (connectDB_cache_machine healthy cold) as (H1 & _ & _).
  destruct (H1 7 warm eq_refl) as [_ A]. exact (A 2).
Defined.

(** C7 as stated fails when NODE_ENV is ["test"]: the context is not
    production and the answer carries no details. *)
Lemma GET_fault_no_details_under_test :
  NODE_ENV underTest = Some (js "test") /\
  fst (@GET asciiTables (byParam "my-event") underTest cold)
  = Ok (MkResponse 500
          (ErrorResponse (js "Failed to fetch events.")
                         INTERNAL_SERVER_ERROR None)).
Proof. split; reflexivity. Qed.

(** C7 (amended) in development: the message of the error is in
    [details]. *)
Lemma GET_fault_response_witness :
  fst (@GET asciiTables (byParam "my-event") flaky cold)
  = Ok (MkResponse 500
          (ErrorResponse (js "Failed to fetch events.")
                         INTERNAL_SERVER_ERROR
                         (Some (js "connect ECONNREFUSED")))).
Proof.
  destruct (@GET_fault_response asciiTables (byParam "my-event") flaky cold
              (js "my-event") eq_refl) as (H & _).
  exact (H down (attempted cold (MkCache None None)) eq_refl).
Defined.

Definition newBooking (id : string) : BookingDocument :=
  MkBooking (Some (OID (js id))) (Some (js "  USER@Example.com ")) true false.

(** C8 at a new booking for a stored event, for an unknown event, and
    with an email that has no [@]. *)
Lemma preSave_contract_witness :
  fst (@preSave asciiTables (newBooking "65a000000000000000000001") healthy warm)
  = Ok (Proceed (MkBooking (Some (OID (js "65a000000000000000000001")))
                           (Some (js "user@example.com")) true false)) /\
  fst (@preSave asciiTables (newBooking "65a0000000000000000000ff") healthy warm)
  = Ok (Reject eventMissing) /\
  (exists err,
      @preSave asciiTables
        (MkBooking (Some (OID (js "65a000000000000000000001")))
                   (Some (js "user.example.com")) true false) healthy warm
      = (Ok (Reject err), warm)).
Proof.
  split; [|split].
  - destruct (@preSave_contract asciiTables
                (newBooking "65a000000000000000000001") healthy warm)
      as (_ & _ & _ & H).
    destruct (H (js "  USER@Example.com ") (OID (js "65a000000000000000000001"))
                eq_refl eq_refl eq_refl eq_refl eq_refl) as [_ F].
    exact (F eq_refl).
  - destruct (@preSave_contract asciiTables
                (newBooking "65a0000000000000000000ff") healthy warm)
      as (_ & _ & _ & H).
    destruct (H (js "  USER@Example.com ") (OID (js "65a0000000000000000000ff"))
                eq_refl eq_refl eq_refl eq_refl eq_refl) as [F _].
    exact (F eq_refl).
  - destruct (@preSave_contract asciiTables
                (MkBooking (Some (OID (js "65a000000000000000000001")))
                           (Some (js "user.example.com")) true false)
                healthy warm)
      as (_ & _ & H & _).
    exact (H (js "user.example.com") eq_refl (or_intror eq_refl)).
Defined.

(** C9 at ["My Event!"]: the world after the call is [cold] itself. *)
Lemma GET_invalid_slug_no_store_access_witness :
  exists code message,
    @GET asciiTables (byParam "My Event!") healthy cold
    = (Ok (badRequest code message), cold) /\
    (code = MISSING_SLUG \/ code = INVALID_SLUG_FORMAT).
Proof.
  apply (@GET_invalid_slug_no_store_access asciiTables (byParam "My Event!")
           healthy cold).
  right. exists (js "My Event!"). split; [reflexivity|]. right. reflexivity.
Defined.

End Examples.

(* ================================================================== *)
(** * More concrete runs: the connection, the handlers, the hooks *)
(* ================================================================== *)

Module Scenarios.
Import Examples.
Local Open Scope string_scope.

(** No connection string is configured. *)
Definition unconfigured : Env :=
  MkEnv None (Some (js "production")) (fun p => Ok (7 + p)) (fun _ => None).

(** Every operation on the store throws an [Error]. *)
Definition brokenStore : Env :=
  MkEnv (Some (js "mongodb://localhost/dev")) (Some (js "production"))
        (fun p => Ok (7 + p)) (fun _ => Some down).

(** Every operation on the store throws something that is no [Error]. *)
Definition oddStore : Env :=
  MkEnv (Some (js "mongodb://localhost/dev")) (Some (js "production"))
        (fun p => Ok (7 + p)) (fun _ => Some Thrown).

(** The process while the first [mongoose.connect] is pending and two
    more callers have arrived. *)
Definition waiting : World :=
  MkWorld (MkCache None (Some 0)) 1 store [Acquire; Connect; Acquire; Acquire].

(** ** lib/mongodb.ts *)

(** X1 with three callers on a cold cache. *)
Lemma connectDB_single_flight_witness :
  enterTimes 3 healthy cold
  = ([Ok (inr 0); Ok (inr 0); Ok (inr 0)], waiting) /\
  resumeTimes 3 (Ok 7) healthy waiting
  = ([Ok 7; Ok 7; Ok 7],
     MkWorld (MkCache (Some 7) (Some 0)) 1 store (trace waiting)) /\
  resumeTimes 3 (Throw down) healthy waiting
  = ([Throw down; Throw down; Throw down],
     MkWorld (MkCache None None) 1 store (trace waiting)).
Proof.
  destruct (connectDB_single_flight healthy cold 2 eq_refl eq_refl eq_refl)
    as (A & B & C).
  split; [exact A|]. split; [exact (B 7) | exact (C down)].
Defined.

(** X2 with two calls. *)
Lemma connectDB_without_uri_witness :
  acquireTimes 2 unconfigured cold
  = ([Throw missingUri; Throw missingUri],
     MkWorld (MkCache None None) 0 store [Acquire; Acquire]).
Proof.
  exact (connectDB_without_uri unconfigured cold 2 eq_refl eq_refl eq_refl).
Defined.

(** ** app/api/events/[slug]/route.ts *)

(** X4 at the request for [my-event]. *)
Lemma GET_success_event_witness :
  exists raw,
    rawSlugOf (byParam "my-event") = Some raw /\
    find (bySlug (@toLowerCase asciiTables (trim raw))) (events cold)
    = Some myEvent /\
    In myEvent (events cold) /\
    slug myEvent = @toLowerCase asciiTables (trim raw) /\
    slug myEvent <> [] /\ forallb isSlugChar (slug myEvent) = true.
Proof.
  exact (@GET_success_event asciiTables (byParam "my-event") healthy cold
           200%N (js "Event fetched successfully.") myEvent eq_refl).
Defined.

(** X5 with the database up and with the database down. *)
Lemma GET_operations_witness :
  trace (snd (@GET asciiTables (byParam "my-event") healthy cold))
  = [Acquire; Connect; FindOne (js "my-event")] /\
  trace (snd (@GET asciiTables (byParam "my-event") underTest cold))
  = [Acquire; Connect].
Proof.
  split.
  - exact (@GET_operations asciiTables (byParam "my-event") healthy cold
             (js "my-event") eq_refl).
  - exact (@GET_operations asciiTables (byParam "my-event") underTest cold
             (js "my-event") eq_refl).
Defined.

(** X18 at [" My-Event "]. *)
Lemma validateSlug_normal_form_witness :
  @validateSlug asciiTables (Some (js " My-Event ")) = SlugOk (js "my-event") /\
  @validateSlug asciiTables (Some (js "my-event")) = SlugOk (js "my-event").
Proof.
  split; [reflexivity|].
  exact (@validateSlug_normal_form asciiTables (Some (js " My-Event "))
           (js "my-event") eq_refl).
Defined.

(** X19 at a title with punctuation and spaces. *)
Lemma validateSlug_accepts_generated_witness :
  @generateSlug asciiTables (js "  Hello,  World!! 2024 ") = js "hello-world-2024" /\
  @validateSlug asciiTables (Some (js "hello-world-2024"))
  = SlugOk (js "hello-world-2024").
Proof.
  split; [reflexivity|].
  apply (@validateSlug_accepts_generated asciiTables
           (js "  Hello,  World!! 2024 ")).
  vm_compute. discriminate.
Defined.

(** X20 at [/api/events/my-event//] and at [/api/events/]. *)
Lemma rawSlugOf_path_witness :
  rawSlugOf (MkRequest None None (js "/api/events/my-event//"))
  = Some (js "my-event") /\
  @validateSlug asciiTables
    (rawSlugOf (MkRequest None (Some []) (js "/api/events/")))
  = SlugBad 400 MISSING_SLUG (js "Slug parameter is required.").
Proof.
  split.
  - apply (@rawSlugOf_path asciiTables
             (MkRequest None None (js "/api/events/my-event//"))
             (js "/api/events") (js "my-event") 2).
    + reflexivity.
    + reflexivity.
    + vm_compute. discriminate.
    + vm_compute. repeat constructor.
    + vm_compute. discriminate.
  - apply (@rawSlugOf_path asciiTables
             (MkRequest None (Some []) (js "/api/events/"))
             (js "/api") (js "events") 1).
    + reflexivity.
    + reflexivity.
    + vm_compute. discriminate.
    + vm_compute. repeat constructor.
    + reflexivity.
Defined.

(** ** lib/actions/event.actions.ts *)

(** X6 at the two events that share the tag [cloud]. *)
Lemma getSimilar_mutual_witness :
  In (serialize cloudDay) (similarOf (js "my-event") healthy cold) /\
  In (serialize myEvent) (similarOf (js "cloud-day") healthy cold).
Proof.
  assert (L : In (serialize cloudDay) (similarOf (js "my-event") healthy cold))
    by (left; reflexivity).
  split; [exact L|].
  exact (proj1 (@getSimilar_mutual healthy cold 7 warm (js "my-event")
                  (js "cloud-day") myEvent cloudDay eq_refl
                  (fun _ => eq_refl) eq_refl eq_refl) L).
Defined.


(** ** database/booking.model.ts *)

(** X11 when [Event.exists] throws an [Error], and when it throws
    something else. *)
Lemma preSave_store_fault_witness :
  @preSave asciiTables (newBooking "65a000000000000000000001") brokenStore warm
  = (Ok (Reject down),
     logged warm (Exists (OID (js "65a000000000000000000001")))) /\
  @preSave asciiTables (newBooking "65a000000000000000000001") oddStore warm
  = (Ok (Reject eventCheckFailed),
     logged warm (Exists (OID (js "65a000000000000000000001")))).
Proof.
  split.
  - exact (@preSave_store_fault asciiTables
             (newBooking "65a000000000000000000001") brokenStore warm
             (js "  USER@Example.com ") (OID (js "65a000000000000000000001"))
             down eq_refl eq_refl eq_refl eq_refl eq_refl).
  - exact (@preSave_store_fault asciiTables
             (newBooking "65a000000000000000000001") oddStore warm
             (js "  USER@Example.com ") (OID (js "65a000000000000000000001"))
             Thrown eq_refl eq_refl eq_refl eq_refl eq_refl).
Defined.

(** A stored booking whose event no longer exists. *)
Definition orphan : BookingDocument :=
  MkBooking (Some (OID (js "65a0000000000000000000ff")))
            (Some (js " USER@Example.com")) false false.

(** X12 at [orphan]: the write proceeds, the store is not asked. *)
Lemma preSave_unchanged_reference_witness :
  @preSave asciiTables orphan healthy warm
  = (Ok (Proceed (MkBooking (Some (OID (js "65a0000000000000000000ff")))
                            (Some (js "user@example.com")) false false)),
     warm).
Proof.
  exact (@preSave_unchanged_reference asciiTables orphan healthy warm
           (js " USER@Example.com") eq_refl eq_refl eq_refl eq_refl).
Defined.

(** X13 at four bookings, one for each early rejection. *)
Lemma preSave_early_rejections_witness :
  @preSave asciiTables (MkBooking None None true false) healthy warm
  = (Ok (Reject emailRequired), warm) /\
  @preSave asciiTables (MkBooking None (Some (js "   ")) true false) healthy warm
  = (Ok (Reject emailRequired), warm) /\
  @preSave asciiTables (MkBooking None (Some (js "a@b")) true false) healthy warm
  = (Ok (Reject emailInvalid), warm) /\
  @preSave asciiTables (MkBooking None (Some (js "a@b.c")) true false) healthy warm
  = (Ok (Reject eventIdRequired), warm).
Proof.
  split; [|split; [|split]].
  - destruct (@preSave_early_rejections asciiTables
                (MkBooking None None true false) healthy warm) as (H & _).
    exact (H eq_refl).
  - destruct (@preSave_early_rejections asciiTables
                (MkBooking None (Some (js "   ")) true false) healthy warm)
      as (_ & H & _).
    exact (H (js "   ") eq_refl eq_refl).
  - destruct (@preSave_early_rejections asciiTables
                (MkBooking None (Some (js "a@b")) true false) healthy warm)
      as (_ & _ & H & _).
    apply (H (js "a@b") eq_refl); [vm_compute; discriminate | reflexivity].
  - destruct (@preSave_early_rejections asciiTables
                (MkBooking None (Some (js "a@b.c")) true false) healthy warm)
      as (_ & _ & _ & H).
    exact (H (js "a@b.c") eq_refl eq_refl eq_refl eq_refl).
Defined.

(** X14 at the booking of the witness of C8, saved and saved again. *)
Lemma preSave_again_witness :
  @preSave asciiTables
    (MkBooking (Some (OID (js "65a000000000000000000001")))
               (Some (js "user@example.com")) false false) underTest cold
  = (Ok (Proceed (MkBooking (Some (OID (js "65a000000000000000000001")))
                            (Some (js "user@example.com")) false false)),
     cold).
Proof.
  apply (@preSave_again asciiTables (newBooking "65a000000000000000000001")
           healthy warm (js "  USER@Example.com ")
           (MkBooking (Some (OID (js "65a000000000000000000001")))
                      (Some (js "user@example.com")) true false)).
  - reflexivity.
  - vm_compute. repeat constructor.
  - reflexivity.
Defined.

(** ** database/event.model.ts: [normalizeTime] *)

(** X15 at [" 1:30 PM "] and at ["13pm"]. *)
Lemma normalizeTime_12h_rule_witness :
  @normalizeTime asciiTables (js " 1:30 PM ") = Ok (js "13:30") /\
  @normalizeTime asciiTables (js "13pm") = Throw invalid12.
Proof.
  split.
  - apply (@normalizeTime_12h_rule asciiTables (js " 1:30 PM ")
             (js "1") (Some (js "30")) (js " ") (js "pm")).
    split; [reflexivity|]. split; [|split; [|split]].
    + exists 49%N. split; [reflexivity | left; reflexivity].
    + right. exists 51%N, 48%N. split; [reflexivity|]. split; reflexivity.
    + vm_compute. repeat constructor.
    + right. reflexivity.
  - apply (@normalizeTime_12h_rule asciiTables (js "13pm")
             (js "13") None [] (js "pm")).
    split; [reflexivity|]. split; [|split; [|split]].
    + exists 49%N. split; [reflexivity|]. right.
      exists 51%N. split; reflexivity.
    + left. reflexivity.
    + constructor.
    + right. reflexivity.
Defined.

(** X25 at a 24-hour time in white space. *)
Lemma normalizeTime_24h_rule_witness :
  @normalizeTime asciiTables (js "  09:30 ") = Ok (js "09:30").
Proof.
  exact (@normalizeTime_24h_rule asciiTables (js "  09:30 ") eq_refl).
Defined.

(** ** database/event.model.ts: the pre-save hook *)

Definition draft (t : string) (tm : string) : EventSchema.EventAttrs :=
  EventSchema.MkAttrs
    (EventSchema.VString (js t)) None
    (EventSchema.VString (js "A day of talks"))
    (EventSchema.VString (js "Overview"))
    (EventSchema.VString (js "/images/summit.png"))
    (EventSchema.VString (js "Hall A"))
    (EventSchema.VString (js "Berlin"))
    (EventSchema.VString (js "2025-11-07"))
    (EventSchema.VString (js tm))
    (EventSchema.VString (js "offline"))
    (EventSchema.VString (js "Developers"))
    (EventSchema.VArray [Some (js "Keynote"); Some (js "Panel")])
    (EventSchema.VString (js "DevEvent"))
    (EventSchema.VArray [Some (js "ai"); Some (js "cloud")])
    true.

(** The draft as the hook leaves it. *)
Definition hooked (t : string) (sl : jsstring) : EventSchema.EventAttrs :=
  EventSchema.setTime
    (EventSchema.setSlug (draft t "13:30") (Some sl))
    (EventSchema.VString (js "13:30")).

Definition hookOf : EventSchema.EventAttrs -> EventSchema.EventAttrs * option exn :=
  @EventSchema.eventPreSave asciiTables EventSchema.plainCalendar.

(** X21 at a draft with a title in mixed case and a 12-hour time. *)
Lemma eventPreSave_saved_witness :
  hookOf (draft "Dev Summit 2025!" " 1:30 PM ")
  = (hooked "Dev Summit 2025!" (js "dev-summit-2025"), None) /\
  (exists t,
      EventSchema.time (hooked "Dev Summit 2025!" (js "dev-summit-2025"))
      = EventSchema.VString t /\
      @normalizeTime asciiTables (js " 1:30 PM ") = Ok t /\
      test twentyFourHour t = true) /\
  EventSchema.slug (hooked "Dev Summit 2025!" (js "dev-summit-2025"))
  = Some (js "dev-summit-2025").
Proof.
  split; [reflexivity|].
  destruct (@EventSchemaFacts.eventPreSave_saved asciiTables
              EventSchema.plainCalendar
              (draft "Dev Summit 2025!" " 1:30 PM ")
              (hooked "Dev Summit 2025!" (js "dev-summit-2025")) eq_refl)
    as (_ & _ & T & _ & S & _).
  split; [exact T | exact S].
Defined.

(** X22 at a draft without a description and at one with a time that is
    no time. *)
Lemma eventPreSave_refused_witness :
  hookOf (EventSchema.MkAttrs
            (EventSchema.VString (js "Dev Summit")) None EventSchema.VOther
            EventSchema.VOther EventSchema.VOther EventSchema.VOther
            EventSchema.VOther EventSchema.VOther EventSchema.VOther
            EventSchema.VOther EventSchema.VOther EventSchema.VOther
            EventSchema.VOther EventSchema.VOther true)
  = (EventSchema.MkAttrs
            (EventSchema.VString (js "Dev Summit")) None EventSchema.VOther
            EventSchema.VOther EventSchema.VOther EventSchema.VOther
            EventSchema.VOther EventSchema.VOther EventSchema.VOther
            EventSchema.VOther EventSchema.VOther EventSchema.VOther
            EventSchema.VOther EventSchema.VOther true,
     Some (EventSchema.fieldRequired (js "description"))) /\
  (exists p,
      @EventSchema.newDate EventSchema.plainCalendar (js "2025-11-07") = Some p /\
      @normalizeTime asciiTables (js "noon") = Throw invalidTime /\
      EventSchema.slug
        (EventSchema.setDate
           (@EventSchema.reslug asciiTables (draft "Dev Summit" "noon"))
           (EventSchema.first (split EventSchema.tee (iso p))))
      = Some (js "dev-summit")).
Proof.
  split; [reflexivity|].
  destruct (@EventSchemaFacts.eventPreSave_refused asciiTables
              EventSchema.plainCalendar (draft "Dev Summit" "noon")
              (EventSchema.setSlug (draft "Dev Summit" "noon")
                                   (Some (js "dev-summit")))
              invalidTime eq_refl)
    as [(pre & f & post & _ & _ & _ & E & _)
       |[(_ & pre & f & post & _ & _ & _ & E & _)
        |[(_ & _ & D & _)
         |(_ & _ & p & P & N & _ & D)]]].
  - exfalso. revert E. vm_compute. discriminate.
  - exfalso. revert E. vm_compute. discriminate.
  - exfalso. revert D. vm_compute. discriminate.
  - exists p. split; [exact P|]. split; [exact N|].
    rewrite <- D. reflexivity.
Defined.

(** X23 at the saved draft. *)
Lemma eventPreSave_again_witness :
  hookOf (EventSchemaFacts.persisted (hooked "Dev Summit 2025!" (js "dev-summit-2025")))
  = (EventSchemaFacts.persisted (hooked "Dev Summit 2025!" (js "dev-summit-2025")),
     None).
Proof.
  apply (@EventSchemaFacts.eventPreSave_again asciiTables
           EventSchema.plainCalendar
           (draft "Dev Summit 2025!" " 1:30 PM ")
           (hooked "Dev Summit 2025!" (js "dev-summit-2025")) eq_refl).
  split; [reflexivity|].
  exists (MkDate (js "2025-11-07T00:00:00.000Z")). split; reflexivity.
Defined.

(** X24 at a title of punctuation only. *)
Lemma eventPreSave_empty_slug_witness :
  hookOf (draft "?!" "13:30") = (hooked "?!" [], None) /\
  EventSchema.slug (hooked "?!" []) = Some [] /\
  @validateSlug asciiTables (EventSchema.slug (hooked "?!" []))
  = SlugBad 400 MISSING_SLUG (js "Slug parameter is required.").
Proof.
  split; [reflexivity|].
  destruct (@EventSchemaFacts.eventPreSave_empty_slug asciiTables
              EventSchema.plainCalendar (draft "?!" "13:30") (hooked "?!" []))
    as (_ & S & V).
  - reflexivity.
  - reflexivity.
  - vm_compute. repeat constructor.
  - split; [exact S | exact V].
Defined.

End Scenarios.
